(** * pyformlang: context-free grammars and recursive automata

    A shallow embedding of [pyformlang/cfg/cfg.py] and
    [pyformlang/rsa/recursive_automaton.py].

    Python sets are [gset]s (iterated through [elements]), dicts are [gmap]s,
    Python lists are lists.  Methods that mutate [self] pass the object
    explicitly and return the updated object; methods that can raise return a
    sum whose left side is the exception. *)

From stdpp Require Import base option list sets gmap strings pretty.
From Stdlib Require Import ZArith Lia.

Open Scope Z_scope.
Open Scope nat_scope.

(** The exceptions raised by the modelled code. *)
Inductive exn :=
| ValueError
| NotImplementedError
| KeyError
| IndexError
| TypeError.

(** * Recursive automata: [pyformlang/rsa/recursive_automaton.py] *)


(** [pyformlang.finite_automaton.Symbol]: a label is a symbol, compared by its
    value.  [to_symbol] returns a symbol as it is, so on labels that are
    already symbols it is the identity. *)
Definition Symbol := string.

Definition to_symbol (x : Symbol) : Symbol := x.

Section Automaton.

(** The minimal DFA stored in a box is built by the regular-expression
    library; the automaton only stores it. *)
Variable DFA : Type.

(** [pyformlang.rsa.Box]: a DFA together with its label. *)
Record Box := mkBox { dfa : DFA; label : Symbol }.

Record RecursiveAutomaton := mkRSA {
  _labels : gset Symbol;
  _initial_label : Symbol;
  _boxes : gmap Symbol Box
}.

(** [get_box]: the box of a label, [None] when there is none. *)
Definition get_box_in (boxes : gmap Symbol Box) (l : Symbol) : option Box :=
  boxes !! to_symbol l.

Definition get_box (self : RecursiveAutomaton) (l : Symbol) : option Box :=
  get_box_in (_boxes self) l.

(** The loop [for box in boxes: self._boxes.update(..); self._labels.add(..)]. *)
Definition add_boxes (boxes : list Box) (st : gmap Symbol Box * gset Symbol)
  : gmap Symbol Box * gset Symbol :=
  foldl (fun st box => (<[to_symbol (label box) := box]> (st.1),
                        {[label box]} ∪ st.2)) st boxes.

(** The loop [for label in self._labels: if get_box(label) is None: raise]. *)
Fixpoint check_labels (boxes : gmap Symbol Box) (ls : list Symbol)
  : option exn :=
  match ls with
  | [] => None
  | l :: ls' =>
      match get_box_in boxes l with
      | None => Some ValueError
      | Some _ => check_labels boxes ls'
      end
  end.

(** The label set before the boxes are read: the given labels and the
    initial label, when there is one. *)
Definition init_labels (labels : option (gset Symbol))
    (initial_label : option Symbol) : gset Symbol :=
  let labels0 : gset Symbol :=
    match labels with
    | Some ls => set_map to_symbol ls
    | None => ∅
    end in
  match initial_label with
  | Some l => if decide (to_symbol l ∈ labels0) then labels0
              else {[to_symbol l]} ∪ labels0
  | None => labels0
  end.

(** [RecursiveAutomaton.__init__].  The set [boxes] is given by the sequence
    in which it is iterated. *)
Definition RecursiveAutomaton_init
    (labels : option (gset Symbol)) (initial_label : option Symbol)
    (boxes : option (list Box)) : exn + RecursiveAutomaton :=
  let labels1 := init_labels labels initial_label in
  let initial : Symbol :=
    match initial_label with
    | Some l => to_symbol l
    | None => ""%string
    end in
  let st := match boxes with
            | Some bs => add_boxes bs (∅, labels1)
            | None => (∅, labels1)
            end in
  match check_labels st.1 (elements st.2) with
  | Some e => inl e
  | None => inr {| _labels := st.2; _initial_label := initial; _boxes := st.1 |}
  end.

(** [change_initial_label]: the membership test is the whole body. *)
Definition change_initial_label (self : RecursiveAutomaton)
    (new_initial_label : Symbol) : exn + RecursiveAutomaton :=
  let new_initial_label := to_symbol new_initial_label in
  if decide (new_initial_label ∈ _labels self) then inr self
  else inl ValueError.

(** The label set a constructor call declares: the given labels, the initial
    label when one is given, and the labels of the given boxes. *)
Definition declared_labels (labels : option (gset Symbol))
    (initial_label : option Symbol) (boxes : option (list Box)) : gset Symbol :=
  default ∅ labels ∪
  (match initial_label with Some l => {[l]} | None => ∅ end) ∪
  list_to_set (label <$> default [] boxes).

End Automaton.

Arguments mkBox {DFA} dfa label.
Arguments dfa {DFA} b.
Arguments label {DFA} b.
Arguments mkRSA {DFA} _labels _initial_label _boxes.
Arguments _labels {DFA} r.
Arguments _initial_label {DFA} r.
Arguments _boxes {DFA} r.
Arguments get_box_in {DFA} boxes l.
Arguments get_box {DFA} self l.
Arguments add_boxes {DFA} boxes st.
Arguments check_labels {DFA} boxes ls.
Arguments RecursiveAutomaton_init {DFA} labels initial_label boxes.
Arguments change_initial_label {DFA} self new_initial_label.
Arguments declared_labels {DFA} labels initial_label boxes.


(** A concrete automaton: labels S and A, initial label S. *)
Definition two_boxes : list (Box nat) :=
  [mkBox 0 "S"%string; mkBox 1 "A"%string].

Definition two_labels : RecursiveAutomaton nat :=
  {| _labels := {["S"%string; "A"%string]};
     _initial_label := "S"%string;
     _boxes := {["S"%string := mkBox 0 "S"%string;
                 "A"%string := mkBox 1 "A"%string]} |}.

(** * Context-free grammars: [pyformlang/cfg/cfg.py] *)

(** ** Results of calls

    A call returns, raises, or (in the model only) runs out of the fuel that
    bounds a [while] loop or a recursion. *)
Inductive result (A : Type) :=
| Ok (a : A)
| Raise (e : exn)
| Timeout.
Arguments Ok {A} a.
Arguments Raise {A} e.
Arguments Timeout {A}.

Global Instance result_ret : MRet result := λ A a, Ok a.
Global Instance result_bind : MBind result := λ A B f m,
  match m with
  | Ok a => f a
  | Raise e => Raise e
  | Timeout => Timeout
  end.

(** A dictionary or list access [d[k]], which raises when [k] is missing. *)
Definition getitem {A} (e : exn) (o : option A) : result A :=
  match o with
  | Some a => Ok a
  | None => Raise e
  end.

(** ** Symbols and productions *)

(** Modelled from the spec: the symbol classes [Variable], [Terminal] and
    [Epsilon] are not in the two source files.  Section 3 of the
    specification: a variable and a terminal carry a value and are equal to
    another symbol of their own category iff the values are equal; a terminal
    is distinct from the variable of the same value; epsilon is a singleton
    distinct from both.  Values are strings, as [substitute] requires.  The
    constructor of variables is [Var]. *)
Inductive CFGObject :=
| Var (value : string)
| Terminal (value : string)
| Epsilon.

Global Instance CFGObject_eq_dec : EqDecision CFGObject.
Proof. solve_decision. Defined.

Global Instance CFGObject_countable : Countable CFGObject.
Proof.
  refine (inj_countable'
    (λ x, match x with
          | Var v => inl (inl v)
          | Terminal t => inl (inr t)
          | Epsilon => inr ()
          end)
    (λ y, match y with
          | inl (inl v) => Var v
          | inl (inr t) => Terminal t
          | inr _ => Epsilon
          end) _).
  by intros [].
Defined.

Definition is_Terminal (x : CFGObject) : bool :=
  match x with Terminal _ => true | _ => false end.

Definition is_Variable (x : CFGObject) : bool :=
  match x with Var _ => true | _ => false end.

Definition is_Epsilon (x : CFGObject) : bool :=
  match x with Epsilon => true | _ => false end.

(** [str(x.value)] of a symbol; epsilon prints as its name. *)
Definition value_of (x : CFGObject) : string :=
  match x with
  | Var v => v
  | Terminal t => t
  | Epsilon => "epsilon"
  end.

(** Modelled from the spec: [utils.to_variable] and [utils.to_terminal] are
    not in the source files.  A symbol of the wanted class is returned as it
    is; anything else is wrapped into the wanted class around its value. *)
Definition to_variable (x : CFGObject) : CFGObject :=
  match x with
  | Var _ => x
  | _ => Var (value_of x)
  end.

Definition to_terminal (x : CFGObject) : CFGObject :=
  match x with
  | Terminal _ => x
  | _ => Terminal (value_of x)
  end.

(** Modelled from the spec: the class [Production] is not in the source
    files.  Section 3: an ordered pair of a head, which is a variable, and a
    body, a sequence of symbols; a filtered production strips the epsilons of
    its body on construction, an unfiltered one keeps the body verbatim.  The
    head is stored by its value: [head p] is the variable. *)
Record Production := mkProduction {
  head_value : string;
  body : list CFGObject
}.

Definition head (p : Production) : CFGObject := Var (head_value p).

Global Instance Production_eq_dec : EqDecision Production.
Proof. solve_decision. Defined.

Global Instance Production_countable : Countable Production.
Proof.
  refine (inj_countable' (λ p, (head_value p, body p))
                         (λ y, mkProduction y.1 y.2) _).
  by intros [].
Defined.

Definition Production_init (head : string) (body : list CFGObject)
    (filtering : bool) : Production :=
  {| head_value := head;
     body := if filtering then filter (λ x, x ≠ Epsilon) body else body |}.

(** ** The grammar object *)

(** The fields of a [CFG] instance.  [_normal_form], which memoises the
    result of [to_normal_form] and can alias the instance itself, is left
    out: [to_normal_form] recomputes. *)
Record CFG := mkCFG {
  _variables : gset CFGObject;
  _terminals : gset CFGObject;
  _start_symbol : option CFGObject;
  _productions : list Production;
  _generating_symbols : option (gset CFGObject);
  _nullable_symbols : option (gset CFGObject);
  _impacts : option (gmap CFGObject (list (CFGObject * nat)));
  _remaining_lists : option (gmap CFGObject (list Z));
  _added_impacts : option (gset CFGObject)
}.

(** [__initialize_production_in_cfg], on the pair of the two symbol sets. *)
Definition initialize_production_in_cfg
    (st : gset CFGObject * gset CFGObject) (production : Production)
  : gset CFGObject * gset CFGObject :=
  foldl (λ st cfg_object,
           if is_Terminal cfg_object then (st.1, {[cfg_object]} ∪ st.2)
           else ({[cfg_object]} ∪ st.1, st.2))
        ({[head production]} ∪ st.1, st.2) (body production).

(** [CFG.__init__]. *)
Definition CFG_init (variables terminals : option (gset CFGObject))
    (start_symbol : option CFGObject) (productions : option (list Production))
  : CFG :=
  let variables : gset CFGObject :=
    match variables with
    | Some vs => set_map to_variable vs
    | None => ∅
    end in
  let terminals : gset CFGObject :=
    match terminals with
    | Some ts => set_map to_terminal ts
    | None => ∅
    end in
  let start_symbol := to_variable <$> start_symbol in
  let variables :=
    match start_symbol with
    | Some s => {[s]} ∪ variables
    | None => variables
    end in
  let productions := default [] productions in
  let st := foldl initialize_production_in_cfg (variables, terminals)
                  productions in
  {| _variables := st.1;
     _terminals := st.2;
     _start_symbol := start_symbol;
     _productions := productions;
     _generating_symbols := None;
     _nullable_symbols := None;
     _impacts := None;
     _remaining_lists := None;
     _added_impacts := None |}.

(** Assignments to the cache fields of an instance. *)
Definition set_tables (self : CFG) (added : gset CFGObject)
    (rl : gmap CFGObject (list Z)) (imp : gmap CFGObject (list (CFGObject * nat)))
  : CFG :=
  {| _variables := _variables self;
     _terminals := _terminals self;
     _start_symbol := _start_symbol self;
     _productions := _productions self;
     _generating_symbols := _generating_symbols self;
     _nullable_symbols := _nullable_symbols self;
     _impacts := Some imp;
     _remaining_lists := Some rl;
     _added_impacts := Some added |}.

Definition set_remaining_lists (self : CFG) (rl : gmap CFGObject (list Z))
  : CFG :=
  {| _variables := _variables self;
     _terminals := _terminals self;
     _start_symbol := _start_symbol self;
     _productions := _productions self;
     _generating_symbols := _generating_symbols self;
     _nullable_symbols := _nullable_symbols self;
     _impacts := _impacts self;
     _remaining_lists := Some rl;
     _added_impacts := _added_impacts self |}.

Definition set_generating_symbols (self : CFG) (g : gset CFGObject) : CFG :=
  {| _variables := _variables self;
     _terminals := _terminals self;
     _start_symbol := _start_symbol self;
     _productions := _productions self;
     _generating_symbols := Some g;
     _nullable_symbols := _nullable_symbols self;
     _impacts := _impacts self;
     _remaining_lists := _remaining_lists self;
     _added_impacts := _added_impacts self |}.

Definition set_nullable_symbols (self : CFG) (g : gset CFGObject) : CFG :=
  {| _variables := _variables self;
     _terminals := _terminals self;
     _start_symbol := _start_symbol self;
     _productions := _productions self;
     _generating_symbols := _generating_symbols self;
     _nullable_symbols := Some g;
     _impacts := _impacts self;
     _remaining_lists := _remaining_lists self;
     _added_impacts := _added_impacts self |}.

(** ** The fixed-point engine *)

(** The three tables of [_set_impacts_and_remaining_lists]: the heads of the
    empty productions, the counters of each head, the impacts of each
    symbol. *)
Record tables := mkTables {
  t_added : gset CFGObject;
  t_remaining : gmap CFGObject (list Z);
  t_impacts : gmap CFGObject (list (CFGObject * nat))
}.

(** The body of the loop over the productions. *)
Definition add_production_to_tables (t : tables) (production : Production)
  : tables :=
  let head := head production in
  let body := body production in
  match body with
  | [] => {| t_added := {[head]} ∪ t_added t;
             t_remaining := t_remaining t;
             t_impacts := t_impacts t |}
  | _ :: _ =>
      let temp := default [] (t_remaining t !! head) ++ [Z.of_nat (length body)] in
      let index_impact := length temp - 1 in
      {| t_added := t_added t;
         t_remaining := <[head := temp]> (t_remaining t);
         t_impacts :=
           foldl (λ imp symbol,
                    <[symbol := default [] (imp !! symbol)
                                  ++ [(head, index_impact)]]> imp)
                 (t_impacts t) body |}
  end.

Definition build_tables (productions : list Production) : tables :=
  foldl add_production_to_tables (mkTables ∅ ∅ ∅) productions.

Definition _set_impacts_and_remaining_lists (self : CFG) : CFG :=
  match _impacts self with
  | Some _ => self
  | None =>
      let t := build_tables (_productions self) in
      set_tables self (t_added t) (t_remaining t) (t_impacts t)
  end.

(** [rl[symbol][index] += d], returning the table and the new counter. *)
Definition add_to_counter (d : Z) (rl : gmap CFGObject (list Z))
    (symbol : CFGObject) (index : nat) : result (gmap CFGObject (list Z) * Z) :=
  l ← getitem KeyError (rl !! symbol);
  z ← getitem IndexError (l !! index);
  Ok (<[symbol := <[index := (z + d)%Z]> l]> rl, (z + d)%Z).

(** The local state of [_get_generating_or_nullable].  [to_process] is used
    as a stack ([append] and [pop]): its top is the head of the list. *)
Record engine_state := mkEngine {
  g_symbols : gset CFGObject;
  to_process : list CFGObject;
  processed_with_modification : list (CFGObject * nat);
  remaining_lists : gmap CFGObject (list Z)
}.

(** The loop [for symbol_impact, index_impact in self._impacts.get(current, [])]. *)
Fixpoint process_impacts (entries : list (CFGObject * nat)) (st : engine_state)
  : result engine_state :=
  match entries with
  | [] => Ok st
  | (symbol_impact, index_impact) :: entries' =>
      if decide (symbol_impact ∈ g_symbols st) then process_impacts entries' st
      else
        r ← add_to_counter (-1) (remaining_lists st) symbol_impact index_impact;
        let pwm := processed_with_modification st
                     ++ [(symbol_impact, index_impact)] in
        if decide (r.2 = 0%Z) then
          process_impacts entries'
            {| g_symbols := {[symbol_impact]} ∪ g_symbols st;
               to_process := symbol_impact :: to_process st;
               processed_with_modification := pwm;
               remaining_lists := r.1 |}
        else
          process_impacts entries'
            {| g_symbols := g_symbols st;
               to_process := to_process st;
               processed_with_modification := pwm;
               remaining_lists := r.1 |}
  end.

(** The loop [while to_process]. *)
Fixpoint engine_loop (fuel : nat)
    (impacts : gmap CFGObject (list (CFGObject * nat))) (st : engine_state)
  : result engine_state :=
  match fuel with
  | 0 => Timeout
  | S fuel' =>
      match to_process st with
      | [] => Ok st
      | current :: rest =>
          st' ← process_impacts (default [] (impacts !! current))
                  {| g_symbols := g_symbols st;
                     to_process := rest;
                     processed_with_modification :=
                       processed_with_modification st;
                     remaining_lists := remaining_lists st |};
          engine_loop fuel' impacts st'
      end
  end.

(** The loop [for symbol in self._added_impacts]. *)
Definition seed_added (added : list CFGObject)
    (st : gset CFGObject * list CFGObject) : gset CFGObject * list CFGObject :=
  foldl (λ st symbol,
           if decide (symbol ∈ st.1) then st
           else ({[symbol]} ∪ st.1, symbol :: st.2)) st added.

(** The loop [for terminal in self._terminals]. *)
Definition seed_terminals (terminals : list CFGObject)
    (st : gset CFGObject * list CFGObject) : gset CFGObject * list CFGObject :=
  foldl (λ st terminal, ({[terminal]} ∪ st.1, terminal :: st.2)) st terminals.

(** The loop that undoes the modifications of the counters. *)
Fixpoint fix_modifications (pwm : list (CFGObject * nat))
    (rl : gmap CFGObject (list Z)) : result (gmap CFGObject (list Z)) :=
  match pwm with
  | [] => Ok rl
  | (symbol_impact, index_impact) :: pwm' =>
      r ← add_to_counter 1 rl symbol_impact index_impact;
      fix_modifications pwm' r.1
  end.

(** Every pass of the [while] loop pops one symbol, and a symbol is pushed
    once at most, when it enters [g_symbols]: the pushed symbols are keys of
    the counter table. *)
Definition engine_fuel (st : engine_state) : nat :=
  S (length (to_process st) + size (dom (remaining_lists st))).

(** [_get_generating_or_nullable]. *)
Definition _get_generating_or_nullable (nullable : bool) (self : CFG)
  : result (gset CFGObject * CFG) :=
  let self := _set_impacts_and_remaining_lists self in
  added ← getitem TypeError (_added_impacts self);
  impacts ← getitem TypeError (_impacts self);
  rl ← getitem TypeError (_remaining_lists self);
  let seed := seed_added (elements added) ({[Epsilon]}, [Epsilon]) in
  let seed := if nullable then seed
              else seed_terminals (elements (_terminals self)) seed in
  let st := {| g_symbols := seed.1;
               to_process := seed.2;
               processed_with_modification := [];
               remaining_lists := rl |} in
  st ← engine_loop (engine_fuel st) impacts st;
  rl ← fix_modifications (processed_with_modification st) (remaining_lists st);
  Ok (g_symbols st ∖ {[Epsilon]}, set_remaining_lists self rl).

(** [get_generating_symbols] and [get_nullable_symbols]. *)
Definition get_generating_symbols (self : CFG) : result (gset CFGObject * CFG) :=
  match _generating_symbols self with
  | Some g => Ok (g, self)
  | None =>
      r ← _get_generating_or_nullable false self;
      Ok (r.1, set_generating_symbols r.2 r.1)
  end.

Definition get_nullable_symbols (self : CFG) : result (gset CFGObject * CFG) :=
  match _nullable_symbols self with
  | Some g => Ok (g, self)
  | None =>
      r ← _get_generating_or_nullable true self;
      Ok (r.1, set_nullable_symbols r.2 r.1)
  end.

(** ** [generate_epsilon] *)

(** The loop over [_added_impacts]; [None] stands for [return True]. *)
Fixpoint ge_seed (start : option CFGObject) (added : list CFGObject)
    (st : gset CFGObject * list CFGObject)
  : option (gset CFGObject * list CFGObject) :=
  match added with
  | [] => Some st
  | symbol :: added' =>
      if decide (Some symbol = start) then None
      else if decide (symbol ∈ st.1) then ge_seed start added' st
      else ge_seed start added' ({[symbol]} ∪ st.1, symbol :: st.2)
  end.

(** The inner loop of [generate_epsilon]; [Ok None] stands for
    [return True]. *)
Fixpoint ge_process_impacts (start : option CFGObject)
    (entries : list (CFGObject * nat)) (st : engine_state)
  : result (option engine_state) :=
  match entries with
  | [] => Ok (Some st)
  | (symbol_impact, index_impact) :: entries' =>
      if decide (symbol_impact ∈ g_symbols st)
      then ge_process_impacts start entries' st
      else
        r ← add_to_counter (-1) (remaining_lists st) symbol_impact index_impact;
        if decide (r.2 = 0%Z) then
          if decide (Some symbol_impact = start) then Ok None
          else
            ge_process_impacts start entries'
              {| g_symbols := {[symbol_impact]} ∪ g_symbols st;
                 to_process := symbol_impact :: to_process st;
                 processed_with_modification := [];
                 remaining_lists := r.1 |}
        else
          ge_process_impacts start entries'
            {| g_symbols := g_symbols st;
               to_process := to_process st;
               processed_with_modification := [];
               remaining_lists := r.1 |}
  end.

Fixpoint ge_loop (fuel : nat) (start : option CFGObject)
    (impacts : gmap CFGObject (list (CFGObject * nat))) (st : engine_state)
  : result bool :=
  match fuel with
  | 0 => Timeout
  | S fuel' =>
      match to_process st with
      | [] => Ok false
      | current :: rest =>
          st' ← ge_process_impacts start (default [] (impacts !! current))
                  {| g_symbols := g_symbols st;
                     to_process := rest;
                     processed_with_modification := [];
                     remaining_lists := remaining_lists st |};
          match st' with
          | None => Ok true
          | Some st' => ge_loop fuel' start impacts st'
          end
      end
  end.

(** [generate_epsilon]: the counters it decrements are those of the deep
    copy, so the instance only gets its tables set. *)
Definition generate_epsilon (self : CFG) : result (bool * CFG) :=
  let self := _set_impacts_and_remaining_lists self in
  added ← getitem TypeError (_added_impacts self);
  match ge_seed (_start_symbol self) (elements added) ({[Epsilon]}, [Epsilon]) with
  | None => Ok (true, self)
  | Some seed =>
      remaining_lists ← getitem TypeError (_remaining_lists self);
      impacts ← getitem TypeError (_impacts self);
      let st := {| g_symbols := seed.1;
                   to_process := seed.2;
                   processed_with_modification := [];
                   remaining_lists := remaining_lists |} in
      b ← ge_loop (engine_fuel st) (_start_symbol self) impacts st;
      Ok (b, self)
  end.

(** ** Reachable symbols *)

(** [reachable_transition_d]: for each head, the symbols of its bodies that
    are not epsilon. *)
Definition reachable_transitions (productions : list Production)
  : gmap CFGObject (list CFGObject) :=
  foldl (λ d production,
           <[head production :=
               default [] (d !! head production)
                 ++ filter (λ symbol, is_Epsilon symbol = false)
                           (body production)]> d)
        ∅ productions.

(** The sets of reachable symbols hold the start symbol as it is stored,
    [None] included. *)
Definition reach_state : Type :=
  gset (option CFGObject) * list (option CFGObject).

Definition reach_step (nexts : list CFGObject) (st : reach_state) : reach_state :=
  foldl (λ st next_symbol,
           if decide (Some next_symbol ∈ st.1) then st
           else ({[Some next_symbol]} ∪ st.1, Some next_symbol :: st.2))
        st nexts.

Fixpoint reach_loop (fuel : nat) (d : gmap CFGObject (list CFGObject))
    (st : reach_state) : result (gset (option CFGObject)) :=
  match fuel with
  | 0 => Timeout
  | S fuel' =>
      match st.2 with
      | [] => Ok st.1
      | current :: rest =>
          let nexts := match current with
                       | Some c => default [] (d !! c)
                       | None => []
                       end in
          reach_loop fuel' d (reach_step nexts (st.1, rest))
      end
  end.

(** A symbol is pushed once at most, and is a symbol of some body. *)
Definition reach_fuel (productions : list Production) : nat :=
  S (S (length (concat (body <$> productions)))).

Definition get_reachable_symbols (self : CFG)
  : result (gset (option CFGObject)) :=
  reach_loop (reach_fuel (_productions self))
             (reachable_transitions (_productions self))
             ({[_start_symbol self]}, [_start_symbol self]).

(** ** Unit pairs *)

(** Modelled from the spec: [utils_cfg.get_productions_d] is not in the
    source files.  It is the dictionary that gives, for a head, the list of
    the productions of that head, in their order: its callers read it with
    [productions_d.get(var, [])] and iterate over the productions they get
    (sections 4.1 and 4.2 of the specification). *)
Definition get_productions_d (productions : list Production)
  : gmap CFGObject (list Production) :=
  foldl (λ d production,
           <[head production :=
               default [] (d !! head production) ++ [production]]> d)
        ∅ productions.

(** [len(x.body) == 1 and isinstance(x.body[0], Variable)]. *)
Definition is_unit (x : Production) : bool :=
  match body x with
  | [b] => is_Variable b
  | _ => false
  end.

Definition unit_state : Type :=
  gset (CFGObject * CFGObject) * list (CFGObject * CFGObject).

Fixpoint unit_step (var_a : CFGObject) (productions : list Production)
    (st : unit_state) : result unit_state :=
  match productions with
  | [] => Ok st
  | production :: productions' =>
      b0 ← getitem IndexError (body production !! 0);
      let temp := (var_a, b0) in
      if decide (temp ∈ st.1) then unit_step var_a productions' st
      else unit_step var_a productions' ({[temp]} ∪ st.1, temp :: st.2)
  end.

Fixpoint unit_loop (fuel : nat) (d : gmap CFGObject (list Production))
    (st : unit_state) : result (gset (CFGObject * CFGObject)) :=
  match fuel with
  | 0 => Timeout
  | S fuel' =>
      match st.2 with
      | [] => Ok st.1
      | (var_a, var_b) :: rest =>
          st' ← unit_step var_a (default [] (d !! var_b)) (st.1, rest);
          unit_loop fuel' d st'
      end
  end.

(** A pair is pushed once at most; its first component is a variable of the
    grammar and its second one the body of a unit production. *)
Definition unit_fuel (self : CFG) : nat :=
  S (size (_variables self) * S (length (_productions self))).

Definition get_unit_pairs (self : CFG) : result (gset (CFGObject * CFGObject)) :=
  let unit_pairs : gset (CFGObject * CFGObject) :=
    set_map (λ variable, (variable, variable)) (_variables self) in
  let productions := filter (λ x, is_unit x = true) (_productions self) in
  let productions_d := get_productions_d productions in
  unit_loop (unit_fuel self) productions_d
            (unit_pairs, reverse (elements unit_pairs)).

(** ** The normal-form pipeline *)

Definition remove_useless_symbols (self : CFG) : result CFG :=
  r ← get_generating_symbols self;
  let generating := r.1 in
  let productions :=
    filter (λ x, head x ∈ generating ∧ Forall (λ y, y ∈ generating) (body x))
           (_productions self) in
  let new_var := _variables self ∩ generating in
  let new_ter := _terminals self ∩ generating in
  let cfg_temp := CFG_init (Some new_var) (Some new_ter) (_start_symbol self)
                           (Some productions) in
  reachables ← get_reachable_symbols cfg_temp;
  let productions := filter (λ x, Some (head x) ∈ reachables) productions in
  let new_var := filter (λ x, Some x ∈ reachables) new_var in
  let new_ter := filter (λ x, Some x ∈ reachables) new_ter in
  Ok (CFG_init (Some new_var) (Some new_ter) (_start_symbol self)
               (Some productions)).

(** Modelled from the spec: [utils_cfg.remove_nullable_production] is not in
    the source files.  Section 4.2, step 2: for each production, every body
    obtained by choosing independently, for each nullable occurrence, to keep
    it or to drop it, without the body in which everything is dropped.  The
    caller passes the production and the nullable set only, so the start
    symbol is unknown here and the empty body is never emitted: the empty
    word is given back by the callers ([contains], [get_words],
    [intersection]), as section 8, property 2, says. *)
Fixpoint remove_nullable_production_sub (body : list CFGObject)
    (nullables : gset CFGObject) : list (list CFGObject) :=
  match body with
  | [] => [[]]
  | b :: body' =>
      let all_next := remove_nullable_production_sub body' nullables in
      all_next ≫= (λ body_temp,
        (if decide (b ∈ nullables) then [body_temp] else [])
        ++ (if decide (b ≠ Epsilon) then [b :: body_temp] else []))
  end.

Definition remove_nullable_production (production : Production)
    (nullables : gset CFGObject) : list Production :=
  (λ prod_l, Production_init (head_value production) prod_l true) <$>
  filter (λ prod_l, prod_l ≠ [])
         (remove_nullable_production_sub (body production) nullables).

Definition remove_epsilon (self : CFG) : result CFG :=
  r ← get_nullable_symbols self;
  let nullables := r.1 in
  let new_productions :=
    _productions self ≫= (λ production,
      remove_nullable_production production nullables) in
  Ok (CFG_init (Some (_variables self)) (Some (_terminals self))
               (_start_symbol self) (Some new_productions)).

(** The loop [for var_a, var_b in unit_pairs] of
    [eliminate_unit_productions].  The heads of the productions it adds are
    the first components of the pairs; a pair whose first component is not a
    variable has no production to copy. *)
Definition add_unit_productions (productions_d : gmap CFGObject (list Production))
    (unit_pairs : list (CFGObject * CFGObject)) (productions : list Production)
  : list Production :=
  foldl (λ productions pair,
           foldl (λ productions production,
                    productions ++ [Production_init (value_of pair.1)
                                                    (body production) false])
                 productions (default [] (productions_d !! pair.2)))
        productions unit_pairs.

Definition eliminate_unit_productions (self : CFG) : result CFG :=
  unit_pairs ← get_unit_pairs self;
  let productions := filter (λ x, is_unit x = false) (_productions self) in
  let productions_d := get_productions_d productions in
  let productions :=
    add_unit_productions productions_d (elements unit_pairs) productions in
  Ok (CFG_init (Some (_variables self)) (Some (_terminals self))
               (_start_symbol self) (Some productions)).

(** [term_to_var]: each terminal of the grammar is given the variable whose
    name is the value of the terminal followed by [#CNF#]. *)
Definition cnf_name (terminal : CFGObject) : string :=
  value_of terminal +:+ "#CNF#".

Definition term_to_var_of (terminals : gset CFGObject) : gmap CFGObject string :=
  foldl (λ d terminal, <[terminal := cnf_name terminal]> d) ∅
        (elements terminals).

(** The loop [for symbol in production.body] that builds [new_body]. *)
Definition replace_terminals (term_to_var : gmap CFGObject string)
    (body : list CFGObject) (used : gset CFGObject)
  : list CFGObject * gset CFGObject :=
  foldl (λ st symbol,
           match term_to_var !! symbol with
           | Some v => (st.1 ++ [Var v], {[symbol]} ∪ st.2)
           | None => (st.1 ++ [symbol], st.2)
           end)
        ([], used) body.

Definition _get_productions_with_only_single_terminals (self : CFG)
  : result (list Production) :=
  let term_to_var := term_to_var_of (_terminals self) in
  let st :=
    foldl (λ st production,
             if decide (length (body production) = 1)
             then (st.1 ++ [production], st.2)
             else
               let r := replace_terminals term_to_var (body production) st.2 in
               (st.1 ++ [Production_init (head_value production) r.1 true], r.2))
          ([], ∅) (_productions self) in
  foldl (λ acc terminal,
           new_productions ← acc;
           v ← getitem KeyError (term_to_var !! terminal);
           Ok (new_productions ++ [Production_init v [terminal] true]))
        (Ok st.1) (elements st.2).

(** [_get_next_free_variable]: the loop tries the names one after the other;
    one of any [size variables + 1] names is free. *)
Fixpoint next_free_loop (fuel : nat) (variables : gset CFGObject)
    (idx : nat) (prefix : string) : result (nat * string) :=
  match fuel with
  | 0 => Timeout
  | S fuel' =>
      let temp := prefix +:+ pretty idx in
      if decide (Var temp ∈ variables)
      then next_free_loop fuel' variables (idx + 1) prefix
      else Ok (idx, temp)
  end.

Definition _get_next_free_variable (self : CFG) (idx : nat) (prefix : string)
  : result (nat * string) :=
  next_free_loop (S (size (_variables self))) (_variables self) (idx + 1) prefix.

(** The loop [for _ in range(len(body) - 2)] that draws the new variables. *)
Fixpoint draw_new_var (self : CFG) (n : nat) (idx : nat)
  : result (nat * list string) :=
  match n with
  | 0 => Ok (idx, [])
  | S n' =>
      r ← _get_next_free_variable self idx "C#CNF#";
      r' ← draw_new_var self n' r.1;
      Ok (r'.1, r.2 :: r'.2)
  end.

(** The loop [for i in range(len(body) - 2)] over one body, together with
    the production added after it when the loop was not left by [break].
    [body] is [body[i:]] and [new_var] is [new_var[i:]]: when [new_var] is
    used up, [body] is the list of the last two symbols. *)
Fixpoint decompose_body (head : string) (body : list CFGObject)
    (new_var : list string) (done : gmap (list CFGObject) string)
    (new_productions : list Production)
  : gmap (list CFGObject) string * list Production :=
  match new_var, body with
  | v :: new_var', b :: temp =>
      match done !! temp with
      | Some d =>
          (done, new_productions ++ [Production_init head [b; Var d] true])
      | None =>
          decompose_body v temp new_var' (<[temp := v]> done)
            (new_productions ++ [Production_init head [b; Var v] true])
      end
  | _, _ => (done, new_productions ++ [Production_init head body true])
  end.

(** The state of [_decompose_productions]: [idx], [done], [new_productions]. *)
Definition decompose_step (self : CFG)
    (acc : result (nat * gmap (list CFGObject) string * list Production))
    (production : Production)
  : result (nat * gmap (list CFGObject) string * list Production) :=
  st ← acc;
  let '(idx, done, new_productions) := st in
  let body := body production in
  if decide (length body ≤ 2)
  then Ok (idx, done, new_productions ++ [production])
  else
    r ← draw_new_var self (length body - 2) idx;
    let d := decompose_body (head_value production) body r.2 done
                            new_productions in
    Ok (r.1, d.1, d.2).

Definition _decompose_productions (self : CFG) (productions : list Production)
  : result (list Production) :=
  st ← foldl (decompose_step self) (Ok (0, ∅, [])) productions;
  Ok st.2.

(** The test of [to_normal_form] that sends the grammar through the
    pipeline once more. *)
Definition needs_pipeline (self : CFG) (nullables : gset CFGObject)
    (unit_pairs : gset (CFGObject * CFGObject)) (generating : gset CFGObject)
    (reachables : gset (option CFGObject)) : bool :=
  bool_decide (size nullables ≠ 0
               ∨ size unit_pairs ≠ size (_variables self)
               ∨ size generating ≠ size (_variables self) + size (_terminals self)
               ∨ size reachables ≠ size (_variables self) + size (_terminals self)).

(** [to_normal_form].  [fuel] bounds the depth of the recursion. *)
Fixpoint to_normal_form (fuel : nat) (self : CFG) : result CFG :=
  match fuel with
  | 0 => Timeout
  | S fuel' =>
      r ← get_nullable_symbols self;
      let nullables := r.1 in
      let self := r.2 in
      unit_pairs ← get_unit_pairs self;
      r ← get_generating_symbols self;
      let generating := r.1 in
      let self := r.2 in
      reachables ← get_reachable_symbols self;
      if needs_pipeline self nullables unit_pairs generating reachables then
        if decide (length (_productions self) = 0) then Ok self
        else
          g ← remove_useless_symbols self;
          g ← remove_epsilon g;
          g ← remove_useless_symbols g;
          g ← eliminate_unit_productions g;
          new_cfg ← remove_useless_symbols g;
          to_normal_form fuel' new_cfg
      else
        new_productions ← _get_productions_with_only_single_terminals self;
        new_productions ← _decompose_productions self new_productions;
        Ok (CFG_init None None (_start_symbol self)
                     (Some (remove_dups new_productions)))
  end.

(** ** [get_words] *)

(** A word is a list of symbols; [gen_d] gives, for a variable and a length,
    the words found so far. *)
Definition word : Type := list CFGObject.













(** ** Membership *)

(** Modelled from the spec: the class [CYKTable] is not in the source files.
    Section 4.3: on the normal form of the grammar and a word [w] of length
    [n ≥ 1], [T[i][0]] is the set of the heads [A] with a production
    [A → w[i]], and for [j > 0], [T[i][j]] is the set of the heads [A] with a
    production [A → B C] and a [k < j] such that [B ∈ T[i][k]] and
    [C ∈ T[i+k+1][j-k-1]]; the word is accepted iff the start symbol is in
    [T[0][n-1]].  The table is the list of its rows [T[·][j]]. *)
Definition cyk_cell (table : list (list (gset CFGObject))) (i j : nat)
  : gset CFGObject :=
  default ∅ (table !! j ≫= (.!! i)).

Definition cyk_row0 (productions : list Production) (w : word)
  : list (gset CFGObject) :=
  (λ a, list_to_set (head <$> filter (λ p, body p = [a]) productions)) <$> w.

Definition cyk_admits (table : list (list (gset CFGObject))) (i j : nat)
    (p : Production) : bool :=
  match body p with
  | [B; C] =>
      bool_decide
        (Exists (λ k, B ∈ cyk_cell table i k
                      ∧ C ∈ cyk_cell table (i + k + 1) (j - k - 1))
                (seq 0 j))
  | _ => false
  end.

Definition cyk_next_cell (productions : list Production)
    (table : list (list (gset CFGObject))) (i j : nat) : gset CFGObject :=
  list_to_set
    (head <$> filter (λ p, cyk_admits table i j p = true) productions).

Definition cyk_table (productions : list Production) (w : word)
  : list (list (gset CFGObject)) :=
  foldl (λ table j,
           table ++ [(λ i, cyk_next_cell productions table i j)
                       <$> seq 0 (length w - j)])
        [cyk_row0 productions w] (seq 1 (length w - 1)).

Definition CYKTable_generate_word (fuel : nat) (cfg : CFG) (w : word)
  : result bool :=
  cnf ← to_normal_form fuel cfg;
  match _start_symbol cnf with
  | Some s =>
      Ok (bool_decide
            (s ∈ cyk_cell (cyk_table (_productions cnf) w) 0 (length w - 1)))
  | None => Ok false
  end.

(** [contains]. *)
Definition contains (fuel : nat) (self : CFG) (w : word) : result bool :=
  let w := to_terminal <$> filter (λ x, x ≠ Epsilon) w in
  match w with
  | [] => r ← generate_epsilon self; Ok r.1
  | _ :: _ => CYKTable_generate_word fuel self w
  end.

(** ** Grammar algebra *)

Definition SUBS_SUFFIX : string := "#SUBS#".

(** The loop [for variable in variables] that names the copies of the
    variables: the state is [idx], the dictionary and [new_vars]. *)
Definition rename_variables (variables : list CFGObject)
    (st : nat * gmap CFGObject string * gset CFGObject)
  : nat * gmap CFGObject string * gset CFGObject :=
  foldl (λ st variable,
           let '(idx, d, new_vars) := st in
           let temp := value_of variable +:+ SUBS_SUFFIX +:+ pretty idx in
           (idx + 1, <[variable := temp]> d, {[Var temp]} ∪ new_vars))
        st variables.

(** The renaming of a body of a substituted grammar. *)
Definition rename_body (d : gmap CFGObject string) (body : list CFGObject)
  : list CFGObject :=
  (λ cfgobj, match d !! cfgobj with
             | Some v => Var v
             | None => cfgobj
             end) <$> body.

(** The renaming of a body of the host grammar. *)
Definition rename_host_body (d final_replacement : gmap CFGObject string)
    (body : list CFGObject) : list CFGObject :=
  (λ cfgobj, match d !! cfgobj with
             | Some v => Var v
             | None =>
                 match final_replacement !! cfgobj with
                 | Some v => Var v
                 | None => cfgobj
                 end
             end) <$> body.

(** The loop that copies the productions of a grammar under a renaming. *)
Definition rename_productions (rename : list CFGObject → list CFGObject)
    (d : gmap CFGObject string) (ps : list Production)
    (productions : result (list Production)) : result (list Production) :=
  foldl (λ acc production,
           productions ← acc;
           h ← getitem KeyError (d !! head production);
           Ok (productions
                 ++ [Production_init h (rename (body production)) true]))
        productions ps.

(** The state of the loop over the substitution: [idx], [new_vars],
    [productions], [terminals] and [final_replacement]. *)
Record subs_state := mkSubs {
  s_idx : nat;
  s_new_vars : gset CFGObject;
  s_productions : list Production;
  s_terminals : gset CFGObject;
  s_final_replacement : gmap CFGObject string
}.

Definition substitute_one (acc : result subs_state) (item : CFGObject * CFG)
  : result subs_state :=
  st ← acc;
  let '(ter, cfg) := item in
  let '(idx, new_variables_d_local, new_vars) :=
    rename_variables (elements (_variables cfg))
                     (s_idx st, ∅, s_new_vars st) in
  productions ← rename_productions (rename_body new_variables_d_local)
                  new_variables_d_local (_productions cfg)
                  (Ok (s_productions st));
  s ← getitem KeyError (_start_symbol cfg ≫= (new_variables_d_local !!.));
  Ok {| s_idx := idx;
        s_new_vars := new_vars;
        s_productions := productions;
        s_terminals := s_terminals st ∪ _terminals cfg;
        s_final_replacement := <[ter := s]> (s_final_replacement st) |}.

(** [substitute].  The dictionary [substitution] is the list of its items.
    The set [terminals] that the loop accumulates is not read afterwards. *)
Definition substitute (self : CFG) (substitution : list (CFGObject * CFG))
  : result CFG :=
  let '(idx, new_variables_d, new_vars) :=
    rename_variables (elements (_variables self)) (0, ∅, ∅) in
  st ← foldl substitute_one
         (Ok {| s_idx := idx;
                s_new_vars := new_vars;
                s_productions := [];
                s_terminals := _terminals self;
                s_final_replacement := ∅ |})
         substitution;
  productions ← rename_productions
                  (rename_host_body new_variables_d (s_final_replacement st))
                  new_variables_d (_productions self) (Ok (s_productions st));
  s ← getitem KeyError (_start_symbol self ≫= (new_variables_d !!.));
  Ok (CFG_init (Some (s_new_vars st)) None (Some (Var s))
               (Some (remove_dups productions))).

Definition union (self other : CFG) : result CFG :=
  let start_temp := "#STARTUNION#" in
  let temp_0 := Terminal "#0UNION#" in
  let temp_1 := Terminal "#1UNION#" in
  let production_0 := Production_init start_temp [temp_0] true in
  let production_1 := Production_init start_temp [temp_1] true in
  let cfg_temp := CFG_init (Some {[Var start_temp]}) (Some {[temp_0; temp_1]})
                           (Some (Var start_temp))
                           (Some [production_0; production_1]) in
  substitute cfg_temp [(temp_0, self); (temp_1, other)].

Definition concatenate (self other : CFG) : result CFG :=
  let start_temp := "#STARTCONC#" in
  let temp_0 := Terminal "#0CONC#" in
  let temp_1 := Terminal "#1CONC#" in
  let production0 := Production_init start_temp [temp_0; temp_1] true in
  let cfg_temp := CFG_init (Some {[Var start_temp]}) (Some {[temp_0; temp_1]})
                           (Some (Var start_temp)) (Some [production0]) in
  substitute cfg_temp [(temp_0, self); (temp_1, other)].

Definition get_closure (self : CFG) : result CFG :=
  let start_temp := "#STARTCLOS#" in
  let temp_1 := Terminal "#1CLOS#" in
  let production0 := Production_init start_temp [temp_1] true in
  let production1 :=
    Production_init start_temp [Var start_temp; Var start_temp] true in
  let production2 := Production_init start_temp [] true in
  let cfg_temp := CFG_init (Some {[Var start_temp]}) (Some {[temp_1]})
                           (Some (Var start_temp))
                           (Some [production0; production1; production2]) in
  substitute cfg_temp [(temp_1, self)].

Definition get_positive_closure (self : CFG) : result CFG :=
  let start_temp := "#STARTPOSCLOS#" in
  let var_temp := "#VARPOSCLOS#" in
  let temp_1 := Terminal "#1POSCLOS#" in
  let production0 := Production_init start_temp [temp_1; Var var_temp] true in
  let production1 :=
    Production_init var_temp [Var var_temp; Var var_temp] true in
  let production2 := Production_init var_temp [temp_1] true in
  let production3 := Production_init var_temp [] true in
  let cfg_temp :=
    CFG_init (Some {[Var start_temp; Var var_temp]}) (Some {[temp_1]})
             (Some (Var start_temp))
             (Some [production0; production1; production2; production3]) in
  substitute cfg_temp [(temp_1, self)].

(** ** Intersection with a finite automaton *)

Section Intersection.

(** The collaborators of [intersection] are outside the two source files and
    are taken through their contract (section 6 of the specification): the
    states of an automaton, its start states and final states, its transition
    function, its tests, its determinisation; the compilation of a regular
    expression; the converter that names the combined variables. *)
Variable State : Type.
Variable Regex : Type.
Variable Other : Type.

Record FiniteAutomaton := mkFA {
  states : list State;
  start_states : list State;
  final_states : list State;
  transition : State → string → list State;
  is_deterministic : bool;
  is_empty : bool;
  accepts_empty_word : bool
}.

Variable to_epsilon_nfa : Regex → FiniteAutomaton.
Variable to_deterministic : FiniteAutomaton → FiniteAutomaton.
Variable to_cfg_combined_variable :
  State → option CFGObject → State → string.

(** What [intersection] can be given: a regular expression, a finite
    automaton, or any other object. *)
Inductive operand :=
| a_regex (r : Regex)
| a_finite_automaton (a : FiniteAutomaton)
| another_object (o : Other).

Definition _get_all_bodies (production : Production) (state_p state_r : State)
    (states : list State) : result (list (list CFGObject)) :=
  b0 ← getitem IndexError (body production !! 0);
  b1 ← getitem IndexError (body production !! 1);
  Ok ((λ state_q,
         [Var (to_cfg_combined_variable state_p (Some b0) state_q);
          Var (to_cfg_combined_variable state_q (Some b1) state_r)])
        <$> states).

Definition _intersection_when_two_non_terminals (production : Production)
    (states : list State) : result (list Production) :=
  foldl (λ acc state_p,
           foldl (λ acc state_r,
                    productions_temp ← acc;
                    bodies ← _get_all_bodies production state_p state_r states;
                    let new_head :=
                      to_cfg_combined_variable state_p
                        (Some (head production)) state_r in
                    Ok (productions_temp
                          ++ ((λ body, Production_init new_head body false)
                                <$> bodies)))
                 acc states)
        (Ok []) states.

Definition _intersection_when_terminal (other_fst : FiniteAutomaton)
    (production : Production) (states : list State) : result (list Production) :=
  foldl (λ acc state_p,
           productions_temp ← acc;
           b0 ← getitem IndexError (body production !! 0);
           match transition other_fst state_p (value_of b0) with
           | [] => Ok productions_temp
           | next_state :: _ =>
               let new_head :=
                 to_cfg_combined_variable state_p (Some (head production))
                                          next_state in
               Ok (productions_temp ++ [Production_init new_head [b0] false])
           end)
        (Ok []) states.

Definition _intersection_starting_rules (cfg : CFG) (other : FiniteAutomaton)
  : result (list Production) :=
  start_other ← getitem IndexError (start_states other !! 0);
  Ok ((λ final_state,
         Production_init "Start"
           [Var (to_cfg_combined_variable start_other (_start_symbol cfg)
                                          final_state)] false)
        <$> final_states other).

(** [intersection]. *)
Definition intersection (fuel : nat) (self : CFG) (other : operand)
  : result CFG :=
  other ← match other with
          | a_regex r => Ok (to_deterministic (to_epsilon_nfa r))
          | a_finite_automaton a =>
              if is_deterministic a then Ok a else Ok (to_deterministic a)
          | another_object _ => Raise NotImplementedError
          end;
  if is_empty other then Ok (CFG_init None None None None)
  else
    c ← contains fuel self [];
    let generate_empty := c && accepts_empty_word other in
    cfg ← to_normal_form fuel self;
    let states := states other in
    new_productions ←
      foldl (λ acc production,
               new_productions ← acc;
               ps ← (if decide (length (body production) = 2)
                     then _intersection_when_two_non_terminals production states
                     else _intersection_when_terminal other production states);
               Ok (new_productions ++ ps))
            (Ok []) (_productions cfg);
    starting ← _intersection_starting_rules cfg other;
    let new_productions := new_productions ++ starting in
    let new_productions :=
      if generate_empty
      then new_productions ++ [Production_init "Start" [] true]
      else new_productions in
    Ok (CFG_init None None (Some (Var "Start")) (Some new_productions)).

End Intersection.

Arguments mkFA {State} states start_states final_states transition
  is_deterministic is_empty accepts_empty_word.
Arguments states {State} f.
Arguments start_states {State} f.
Arguments final_states {State} f.
Arguments transition {State} f s a.
Arguments is_deterministic {State} f.
Arguments is_empty {State} f.
Arguments accepts_empty_word {State} f.
Arguments a_regex {State Regex Other} r.
Arguments a_finite_automaton {State Regex Other} a.
Arguments another_object {State Regex Other} o.
Arguments _get_all_bodies {State} to_cfg_combined_variable production
  state_p state_r states.
Arguments _intersection_when_two_non_terminals {State}
  to_cfg_combined_variable production states.
Arguments _intersection_when_terminal {State} to_cfg_combined_variable
  other_fst production states.
Arguments _intersection_starting_rules {State} to_cfg_combined_variable
  cfg other.
Arguments intersection {State Regex Other} to_epsilon_nfa to_deterministic
  to_cfg_combined_variable fuel self other.

(** ** Properties stated by the specification *)

(** A production of a grammar in Chomsky normal form (glossary of the
    specification): the body is two variables, or one terminal, or, for the
    start symbol only, empty. *)
Definition in_normal_form (start : option CFGObject) (p : Production) : bool :=
  match body p with
  | [Var _; Var _] => true
  | [Terminal _] => true
  | [] => bool_decide (Some (head p) = start)
  | _ => false
  end.

(** The terminals that occur in the bodies of the productions of a grammar. *)
Definition terminals_of_bodies (g : CFG) : gset CFGObject :=
  list_to_set (filter (λ x, is_Terminal x = true)
                      (mjoin (body <$> _productions g))).

(** ** Sample grammars *)

(** S → A B, A → a, B → b. *)
Definition cfg_ab : CFG :=
  CFG_init None None (Some (Var "S"))
    (Some [mkProduction "S" [Var "A"; Var "B"];
           mkProduction "A" [Terminal "a"];
           mkProduction "B" [Terminal "b"]]).

(** S → S | a. *)
Definition cfg_unit_loop : CFG :=
  CFG_init None None (Some (Var "S"))
    (Some [mkProduction "S" [Var "S"]; mkProduction "S" [Terminal "a"]]).

(** S → a A, A → b, where the name of the variable A is [a#CNF#]: the
    language is the single word ab. *)
Definition cfg_clash : CFG :=
  CFG_init None None (Some (Var "S"))
    (Some [mkProduction "S" [Terminal "a"; Var "a#CNF#"];
           mkProduction "a#CNF#" [Terminal "b"]]).

(** S → c. *)
Definition cfg_c : CFG :=
  CFG_init None None (Some (Var "S")) (Some [mkProduction "S" [Terminal "c"]]).

(** S → a, with the terminal z declared and used by no production. *)
Definition cfg_declared_z : CFG :=
  CFG_init (Some {[Var "S"]}) (Some {[Terminal "a"; Terminal "z"]})
    (Some (Var "S")) (Some [mkProduction "S" [Terminal "a"]]).

(** An automaton without states, whose language is empty. *)
Definition empty_automaton : FiniteAutomaton nat :=
  {| states := [];
     start_states := [];
     final_states := [];
     transition := λ _ _, [];
     is_deterministic := true;
     is_empty := true;
     accepts_empty_word := false |}.

(** The symbols of the bodies of a list of productions. *)
Definition body_symbols (ps : list Production) : list CFGObject :=
  mjoin (body <$> ps).

(** An operation does not raise [NotImplementedError]. *)
Definition no_nie {A} (r : result A) : Prop := r ≠ Raise NotImplementedError.

(** The grammar [CFG()]. *)
Definition empty_cfg : CFG := CFG_init None None None None.

(** ** Invariants of the fixed-point engine *)

(** The counter [rl[symbol][index]], when there is one. *)
Definition counter (rl : gmap CFGObject (list Z)) (symbol : CFGObject)
    (index : nat) : option Z :=
  rl !! symbol ≫= (.!! index).

(** Every impact names a counter of the table. *)
Definition valid_impacts (imp : gmap CFGObject (list (CFGObject * nat)))
    (rl : gmap CFGObject (list Z)) : Prop :=
  ∀ symbol entries e, imp !! symbol = Some entries → e ∈ entries →
                      is_Some (counter rl e.1 e.2).

(** The tables of an instance are not set yet, or they are the tables of its
    productions. *)
Definition tables_built (self : CFG) : Prop :=
  _impacts self = None
  ∨ (_impacts self = Some (t_impacts (build_tables (_productions self)))
     ∧ _remaining_lists self
       = Some (t_remaining (build_tables (_productions self)))
     ∧ _added_impacts self = Some (t_added (build_tables (_productions self)))).

(** [rl[symbol][index] += d] for every pair of a list, in order. *)
Fixpoint adjust_all (d : Z) (pwm : list (CFGObject * nat))
    (rl : gmap CFGObject (list Z)) : result (gmap CFGObject (list Z)) :=
  match pwm with
  | [] => Ok rl
  | (symbol_impact, index_impact) :: pwm' =>
      r ← add_to_counter d rl symbol_impact index_impact;
      adjust_all d pwm' r.1
  end.

(** What bounds the number of passes of the [while] loop that are left. *)
Definition engine_measure (st : engine_state) : nat :=
  length (to_process st) + size (dom (remaining_lists st) ∖ g_symbols st).

(** The number of occurrences of an element in a list. *)
Definition occurrences `{EqDecision A} (x : A) (l : list A) : nat :=
  length (filter (λ y, y = x) l).

(** The bodies that own the counters: the counter [index] of a head belongs
    to the production of that head which was the [index]-th one with a body
    that is not empty.  [build_slots] follows [build_tables] and records the
    body of each counter. *)
Definition add_production_to_slots
    (st : tables * gmap (CFGObject * nat) (list CFGObject))
    (production : Production)
  : tables * gmap (CFGObject * nat) (list CFGObject) :=
  (add_production_to_tables st.1 production,
   match body production with
   | [] => st.2
   | _ :: _ =>
       <[(head production,
          length (default [] (t_remaining st.1 !! head production)))
         := body production]> st.2
   end).

Definition build_slots (productions : list Production)
  : tables * gmap (CFGObject * nat) (list CFGObject) :=
  foldl add_production_to_slots (mkTables ∅ ∅ ∅, ∅) productions.

(** What the tables say about the bodies they were built from. *)
Record tables_ok (ps : list Production) (t : tables)
    (slots : gmap (CFGObject * nat) (list CFGObject)) : Prop := {
  ok_counter : ∀ h i,
    counter (t_remaining t) h i
    = (λ b, Z.of_nat (length b)) <$> slots !! (h, i);
  ok_impacts : ∀ x e,
    occurrences e (default [] (t_impacts t !! x))
    = match slots !! e with
      | Some b => occurrences x b
      | None => 0
      end;
  ok_slot : ∀ h i b,
    slots !! (h, i) = Some b →
    b ≠ [] ∧ ∃ p, p ∈ ps ∧ head p = h ∧ body p = b;
  ok_production : ∀ p,
    p ∈ ps → body p ≠ [] → ∃ i, slots !! (head p, i) = Some (body p);
  ok_added : ∀ h,
    h ∈ t_added t ↔ ∃ p, p ∈ ps ∧ head p = h ∧ body p = []
}.

(** The run of the engine of [_get_generating_or_nullable] on given tables:
    the seeds, then the [while] loop. *)
Definition engine_seed (nullable : bool) (terminals : gset CFGObject)
    (t : tables) : gset CFGObject * list CFGObject :=
  let seed := seed_added (elements (t_added t)) ({[Epsilon]}, [Epsilon]) in
  if nullable then seed else seed_terminals (elements terminals) seed.

Definition run_engine (nullable : bool) (terminals : gset CFGObject)
    (t : tables) : result engine_state :=
  let seed := engine_seed nullable terminals t in
  let st := {| g_symbols := seed.1;
               to_process := seed.2;
               processed_with_modification := [];
               remaining_lists := t_remaining t |} in
  engine_loop (engine_fuel st) (t_impacts t) st.

(** ** What the analyses compute *)

(** The least set that holds the seeds and, for each production all of whose
    body symbols it holds, the head of the production. *)
Inductive closure (seed : gset CFGObject) (ps : list Production)
  : CFGObject → Prop :=
| closure_seed x : x ∈ seed → closure seed ps x
| closure_production p :
    p ∈ ps → (∀ y, y ∈ body p → closure seed ps y) →
    closure seed ps (head p).

(** The seeds of the two analyses. *)
Definition engine_seeds (nullable : bool) (terminals : gset CFGObject)
  : gset CFGObject :=
  if nullable then {[Epsilon]} else {[Epsilon]} ∪ terminals.

(** The terminals of a grammar are terminals and its variables are not:
    the constructor sees to it. *)
Definition symbols_sorted (self : CFG) : Prop :=
  (∀ x, x ∈ _terminals self → is_Terminal x = true)
  ∧ (∀ x, x ∈ _variables self → is_Terminal x = false).

(** The invariant of the loops of the engine.  [done] lists the symbols
    whose impacts have all been read, [pre] the impacts of the current symbol
    that have been read. *)
Record engine_inv (seed : gset CFGObject) (ps : list Production)
    (t : tables) (slots : gmap (CFGObject * nat) (list CFGObject))
    (st : engine_state) (done : list CFGObject)
    (pre : list (CFGObject * nat)) : Prop := {
  inv_adjust :
    adjust_all (-1) (processed_with_modification st) (t_remaining t)
    = Ok (remaining_lists st);
  inv_count : ∀ e,
    e.1 ∉ g_symbols st →
    occurrences e (processed_with_modification st)
    = occurrences e ((done ≫= λ x, default [] (t_impacts t !! x)) ++ pre);
  inv_positive : ∀ h i z,
    h ∉ g_symbols st → counter (remaining_lists st) h i = Some z → (1 ≤ z)%Z;
  inv_sound : ∀ x, x ∈ g_symbols st → closure seed ps x;
  inv_seed : seed ⊆ g_symbols st;
  inv_added : t_added t ⊆ g_symbols st
}.

(** The symbols that [get_reachable_symbols] is after: the start symbol as
    it is stored, and the symbols other than epsilon of the bodies of the
    productions whose head is reached. *)
Inductive reachable (ps : list Production) (start : option CFGObject)
  : option CFGObject → Prop :=
| reachable_start : reachable ps start start
| reachable_step p y :
    reachable ps start (Some (head p)) → p ∈ ps → y ∈ body p →
    y ≠ Epsilon → reachable ps start (Some y).

(** The pairs that [get_unit_pairs] is after: a variable of the grammar with
    itself, and with every variable that a chain of unit productions
    reaches from it. *)
Inductive unit_pair (ps : list Production) (variables : gset CFGObject)
  : CFGObject * CFGObject → Prop :=
| unit_pair_refl v : v ∈ variables → unit_pair ps variables (v, v)
| unit_pair_step a p c :
    unit_pair ps variables (a, head p) → p ∈ ps → body p = [c] →
    is_Variable c = true → unit_pair ps variables (a, c).

(** The pairs that the loop of [get_unit_pairs] can add: a variable of the
    grammar with the body of a unit production. *)
Definition unit_universe (ps : list Production) (variables : gset CFGObject)
  : list (CFGObject * CFGObject) :=
  a ← elements variables;
  p ← ps;
  match body p with
  | [c] => [(a, c)]
  | _ => []
  end.

(** ** Well-formed grammars *)

(** What the constructor guarantees: the two symbol sets are sorted, they
    hold the symbols of the productions, and the start symbol is a variable
    of the grammar. *)
Definition wf_core (self : CFG) : Prop :=
  symbols_sorted self
  ∧ (∀ p, p ∈ _productions self → head p ∈ _variables self)
  ∧ (∀ y, y ∈ body_symbols (_productions self) →
          if is_Terminal y then y ∈ _terminals self else y ∈ _variables self)
  ∧ (∀ s, _start_symbol self = Some s →
          s ∈ _variables self ∧ is_Variable s = true).

(** Two instances of one grammar: they differ by their caches only. *)
Definition same_core (a b : CFG) : Prop :=
  _variables a = _variables b
  ∧ _terminals a = _terminals b
  ∧ _start_symbol a = _start_symbol b
  ∧ _productions a = _productions b.

(** The sets of nullable and of generating symbols of a grammar. *)
Definition nullable_set (self : CFG) (g : gset CFGObject) : Prop :=
  ∀ x, x ∈ g ↔ x ≠ Epsilon ∧ closure {[Epsilon]} (_productions self) x.

Definition generating_set (self : CFG) (g : gset CFGObject) : Prop :=
  ∀ x, x ∈ g ↔ x ≠ Epsilon
                 ∧ closure ({[Epsilon]} ∪ _terminals self)
                           (_productions self) x.

(** The caches of an instance hold what the methods compute. *)
Definition cache_ok (self : CFG) : Prop :=
  tables_built self
  ∧ (∀ g, _generating_symbols self = Some g → generating_set self g)
  ∧ (∀ g, _nullable_symbols self = Some g → nullable_set self g).

(** ** Grammars that [to_normal_form] takes as they are *)

(** The four tests of [to_normal_form], read on the grammar: nothing but
    epsilon is nullable, the unit pairs are the pairs of a variable with
    itself, every symbol is generating and every symbol is reachable. *)
Definition canonical (self : CFG) : Prop :=
  (∀ x, closure {[Epsilon]} (_productions self) x → x = Epsilon)
  ∧ (∀ a b, unit_pair (_productions self) (_variables self) (a, b) → a = b)
  ∧ (∀ x, x ∈ _variables self ∪ _terminals self →
          x ≠ Epsilon
          ∧ closure ({[Epsilon]} ∪ _terminals self) (_productions self) x)
  ∧ (∀ x, x ∈ _variables self ∪ _terminals self →
          reachable (_productions self) (_start_symbol self) (Some x)).

(** The same without the last test. *)
Definition canonical_but_reachable (self : CFG) : Prop :=
  (∀ x, closure {[Epsilon]} (_productions self) x → x = Epsilon)
  ∧ (∀ a b, unit_pair (_productions self) (_variables self) (a, b) → a = b)
  ∧ (∀ x, x ∈ _variables self ∪ _terminals self →
          x ≠ Epsilon
          ∧ closure ({[Epsilon]} ∪ _terminals self) (_productions self) x).

Definition unit_pair_set (self : CFG) (up : gset (CFGObject * CFGObject))
  : Prop :=
  ∀ pr, pr ∈ up ↔ unit_pair (_productions self) (_variables self) pr.

Definition reachable_set (self : CFG) (r : gset (option CFGObject)) : Prop :=
  ∀ x, x ∈ r ↔ reachable (_productions self) (_start_symbol self) x.

(** ** What [_decompose_productions] leaves *)

(** The productions that [_decompose_productions] writes for a long body:
    [chain ps h body] says that [ps] holds a production from [h] to the first
    symbol of [body] and a variable, which heads the chain of the rest of
    the body, down to the production of the last two symbols. *)
Inductive chain (ps : list Production) : string → list CFGObject → Prop :=
| chain_last h x y :
    mkProduction h [x; y] ∈ ps → chain ps h [x; y]
| chain_link h x v rest :
    mkProduction h [x; Var v] ∈ ps → chain ps v rest →
    chain ps h (x :: rest).

(** A production [r] written for the body [b] of head [h]: two symbols, the
    first one from [b], the second one from [b] or the head of the chain of
    a list of symbols of [b]; its head is reached from [h]. *)
Definition link_of (ps : list Production) (h : string) (b : list CFGObject)
    (r : Production) : Prop :=
  ∃ x y, body r = [x; y] ∧ x ∈ b
         ∧ (y ∈ b ∨ ∃ v sfx, y = Var v ∧ chain ps v sfx
                             ∧ ∀ z, z ∈ sfx → z ∈ b)
         ∧ reachable ps (Some (Var h)) (Some (head r)).

(** The entries of [done]: the variable of a list of symbols heads the chain
    of that list. *)
Definition done_ok (ps : list Production)
    (done : gmap (list CFGObject) string) : Prop :=
  ∀ sfx v, done !! sfx = Some v → chain ps v sfx.

(** ** What [_get_productions_with_only_single_terminals] leaves *)

(** The symbol that the loop writes for a symbol of a body: the variable of
    a terminal of the grammar, and the symbol itself otherwise. *)
Definition cnf_symbol (terminals : gset CFGObject) (x : CFGObject)
  : CFGObject :=
  if decide (x ∈ terminals) then Var (cnf_name x) else x.

(** The production that the loop writes for a production. *)
Definition cnf_production (terminals : gset CFGObject) (p : Production)
  : Production :=
  if decide (length (body p) = 1) then p
  else Production_init (head_value p) (cnf_symbol terminals <$> body p) true.

(** The production added for a terminal that was replaced. *)
Definition cnf_terminal_production (t : CFGObject) : Production :=
  Production_init (cnf_name t) [t] true.

(** The grammar that the last lines of [to_normal_form] build from the
    start symbol and the new productions. *)
Definition normal_form_of (s : CFGObject) (new_productions : list Production)
  : CFG :=
  CFG_init None None (Some s) (Some (remove_dups new_productions)).

(** ** The grammars that the pipeline of [to_normal_form] builds *)

(** No production has an empty body or an epsilon in its body. *)
Definition epsilon_free (ps : list Production) : Prop :=
  ∀ p, p ∈ ps → body p ≠ [] ∧ Epsilon ∉ body p.

(** No production is a unit production. *)
Definition unit_free (ps : list Production) : Prop :=
  ∀ p, p ∈ ps → is_unit p = false.

(** A grammar on which [to_normal_form] goes no deeper: it has no
    production, or it passes the four tests and has a start symbol. *)
Definition settled (self : CFG) : Prop :=
  _productions self = []
  ∨ (canonical self ∧ ∃ s, _start_symbol self = Some s).

(** ** The automaton that [intersection] works with *)

(** The automaton that the first lines of [intersection] bind to [other]:
    the determinisation of the automaton of a regular expression; a finite
    automaton, determinised when it is not deterministic; none for another
    object. *)
Definition used_automaton {State Regex Other : Type}
    (to_epsilon_nfa : Regex → FiniteAutomaton State)
    (to_deterministic : FiniteAutomaton State → FiniteAutomaton State)
    (other : operand State Regex Other) : option (FiniteAutomaton State) :=
  match other with
  | a_regex r => Some (to_deterministic (to_epsilon_nfa r))
  | a_finite_automaton a =>
      Some (if is_deterministic a then a else to_deterministic a)
  | another_object _ => None
  end.

(** A deterministic automaton that accepts the word a: state 0 is the start
    state, state 1 the final state. *)
Definition automaton_a : FiniteAutomaton nat :=
  {| states := [0; 1];
     start_states := [0];
     final_states := [1];
     transition := λ state symbol,
       if decide (state = 0 ∧ symbol = "a"%string) then [1] else [];
     is_deterministic := true;
     is_empty := false;
     accepts_empty_word := false |}.
(** * Proofs: recursive automata *)

Section AutomatonProofs.

Context {DFA : Type}.
Implicit Types (bs : list (Box DFA)) (bx boxes : gmap Symbol (Box DFA)).
Implicit Types (b : Box DFA) (R : RecursiveAutomaton DFA).

(** ** Lemmas on the constructor *)

Lemma add_boxes_cons b bs bx ls :
  add_boxes (b :: bs) (bx, ls) =
  add_boxes bs (<[to_symbol (label b) := b]> bx, {[label b]} ∪ ls).
Proof. reflexivity. Qed.

Lemma add_boxes_labels bs bx ls :
  (add_boxes bs (bx, ls)).2 = ls ∪ list_to_set (label <$> bs).
Proof.
  revert bx ls. induction bs as [|b bs IH]; intros bx ls.
  - simpl. set_solver.
  - rewrite add_boxes_cons, IH. set_solver.
Qed.

Lemma add_boxes_lookup_Some bs bx ls l b :
  (add_boxes bs (bx, ls)).1 !! l = Some b →
  (b ∈ bs ∧ label b = l) ∨ bx !! l = Some b.
Proof.
  revert bx ls. induction bs as [|b' bs IH]; intros bx ls; [by right|].
  rewrite add_boxes_cons. intros H. apply IH in H as [[? ?]|H].
  - left. split; [by apply elem_of_cons; right|done].
  - unfold to_symbol in H. destruct (decide (label b' = l)) as [<-|Hne].
    + rewrite lookup_insert_eq in H. injection H as ->. left. set_solver.
    + rewrite lookup_insert_ne in H by done. by right.
Qed.

Lemma add_boxes_lookup_is_Some bs bx ls l :
  is_Some ((add_boxes bs (bx, ls)).1 !! l) ↔
  (∃ b, b ∈ bs ∧ label b = l) ∨ is_Some (bx !! l).
Proof.
  revert bx ls. induction bs as [|b' bs IH]; intros bx ls.
  - simpl. split; [by right|]. intros [(b & Hb & _)|?]; [|done].
    by apply elem_of_nil in Hb.
  - rewrite add_boxes_cons, IH. unfold to_symbol. split.
    + intros [(b & Hb & Hl)|H].
      * left. exists b. split; [by apply elem_of_cons; right|done].
      * destruct (decide (label b' = l)) as [<-|Hne].
        -- left. exists b'. split; [by apply elem_of_cons; left|done].
        -- rewrite lookup_insert_ne in H by done. by right.
    + intros [(b & Hb & Hl)|H].
      * apply elem_of_cons in Hb as [->|Hb].
        -- right. rewrite <- Hl, lookup_insert_eq. by eexists.
        -- left. by exists b.
      * destruct (decide (label b' = l)) as [<-|Hne].
        -- right. rewrite lookup_insert_eq. by eexists.
        -- right. by rewrite lookup_insert_ne.
Qed.

Lemma check_labels_None boxes ls :
  check_labels boxes ls = None ↔ ∀ l, l ∈ ls → is_Some (boxes !! l).
Proof.
  induction ls as [|l ls IH]; simpl.
  - split; [|done]. intros _ l Hl. by apply elem_of_nil in Hl.
  - unfold get_box_in, to_symbol. destruct (boxes !! l) eqn:E.
    + rewrite IH. split.
      * intros H l' Hl'. apply elem_of_cons in Hl' as [->|?]; [by rewrite E|auto].
      * intros H l' Hl'. apply H. by apply elem_of_cons; right.
    + split; [done|]. intros H. specialize (H l). rewrite E in H.
      destruct H as [? ?]; [by apply elem_of_cons; left|done].
Qed.

Lemma check_labels_result boxes ls e :
  check_labels boxes ls = Some e →
  e = ValueError ∧ ∃ l, l ∈ ls ∧ boxes !! l = None.
Proof.
  induction ls as [|l ls IH]; simpl; [done|].
  unfold get_box_in, to_symbol. destruct (boxes !! l) eqn:E.
  - intros H. destruct (IH H) as (-> & l' & Hin & Hno).
    split; [done|]. exists l'. split; [by apply elem_of_cons; right|done].
  - intros [= <-]. split; [done|]. exists l.
    split; [by apply elem_of_cons; left|done].
Qed.

Lemma init_labels_eq labels initial_label :
  init_labels labels initial_label =
  default ∅ labels ∪ (match initial_label with Some l => {[l]} | None => ∅ end).
Proof.
  unfold init_labels, to_symbol.
  assert (∀ ls : gset Symbol, set_map (λ x : Symbol, x) ls = ls) as Hid.
  { intros ls. apply set_eq. intros x. rewrite elem_of_map. naive_solver. }
  destruct labels as [ls|], initial_label as [l|]; simpl;
    rewrite ?Hid; try case_decide; set_solver.
Qed.

Lemma init_state_labels labels initial_label (boxes : option (list (Box DFA))) :
  (match boxes with
   | Some bs => add_boxes bs (∅, init_labels labels initial_label)
   | None => (∅, init_labels labels initial_label)
   end).2 = declared_labels labels initial_label boxes.
Proof.
  unfold declared_labels. destruct boxes as [bs|]; simpl.
  - by rewrite add_boxes_labels, init_labels_eq.
  - rewrite init_labels_eq. set_solver.
Qed.

Lemma init_state_boxes labels initial_label (boxes : option (list (Box DFA))) l :
  is_Some ((match boxes with
            | Some bs => add_boxes bs (∅, init_labels labels initial_label)
            | None => (∅, init_labels labels initial_label)
            end).1 !! l) ↔
  ∃ b, b ∈ default [] boxes ∧ label b = l.
Proof.
  destruct boxes as [bs|]; simpl.
  - rewrite add_boxes_lookup_is_Some, lookup_empty.
    split; [intros [?|[? ?]]; done|by left].
  - rewrite lookup_empty. split; [by intros [? ?]|].
    intros (b & Hb & _). by apply elem_of_nil in Hb.
Qed.

(** C7: the constructor raises [ValueError] exactly when some declared label
    (a given label, the given initial label, the label of a given box) is
    carried by no given box; when it returns, the automaton's label set is the
    declared one, the labels are exactly the keys of the box table, and every
    label is mapped to one box, which is a given box carrying that label. *)
Theorem init_value_error_iff labels initial_label
    (boxes : option (list (Box DFA))) :
  (RecursiveAutomaton_init labels initial_label boxes = inl ValueError ↔
   ∃ l, l ∈ declared_labels labels initial_label boxes ∧
        ¬ ∃ b, b ∈ default [] boxes ∧ label b = l) ∧
  (∀ e, RecursiveAutomaton_init labels initial_label boxes = inl e →
        e = ValueError) ∧
  (∀ R, RecursiveAutomaton_init labels initial_label boxes = inr R →
        _labels R = declared_labels labels initial_label boxes ∧
        dom (_boxes R) = _labels R ∧
        ∀ l, l ∈ _labels R →
             ∃ b, get_box R l = Some b ∧ label b = l ∧ b ∈ default [] boxes ∧
                  ∀ b', get_box R l = Some b' → b' = b).
Proof.
  unfold RecursiveAutomaton_init.
  pose proof (init_state_labels labels initial_label boxes) as Hl.
  pose proof (init_state_boxes labels initial_label boxes) as Hb.
  set (st := match boxes with
             | Some bs => add_boxes bs (∅, init_labels labels initial_label)
             | None => (∅, init_labels labels initial_label)
             end) in *.
  destruct (check_labels st.1 (elements st.2)) as [e|] eqn:E.
  - destruct (check_labels_result _ _ _ E) as (-> & l & Hin & Hno).
    split; [|split; [by intros e [= <-]|done]].
    split; [intros _|done].
    exists l. split.
    + rewrite <- Hl. by apply elem_of_elements.
    + intros Hex. apply Hb in Hex. rewrite Hno in Hex. by destruct Hex.
  - pose proof (proj1 (check_labels_None _ _) E) as Hall.
    split; [|split; [done|]].
    + split; [done|]. intros (l & Hin & Hno). exfalso. apply Hno.
      apply Hb, Hall, elem_of_elements. by rewrite Hl.
    + intros R [= <-]. simpl. split; [done|]. split.
      * apply set_eq. intros l. rewrite elem_of_dom. split.
        -- intros Hs. apply Hb in Hs as (b & Hin & <-).
           rewrite Hl. unfold declared_labels.
           apply elem_of_union_r, elem_of_list_to_set, list_elem_of_fmap.
           by exists b.
        -- intros Hin. by apply Hall, elem_of_elements.
      * intros l Hin. unfold get_box, get_box_in, to_symbol. simpl.
        destruct (Hall l) as [b Hbl]; [by apply elem_of_elements|].
        exists b. split; [done|].
        assert (b ∈ default [] boxes ∧ label b = l) as [? ?].
        { subst st. destruct boxes as [bs|]; simpl in *.
          - apply add_boxes_lookup_Some in Hbl as [?|Hbl]; [done|].
            by rewrite lookup_empty in Hbl.
          - by rewrite lookup_empty in Hbl. }
        split; [done|]. split; [done|]. intros b'. rewrite Hbl. congruence.
Qed.

(** C8: on a label that is already in the label set, [change_initial_label]
    returns without error and the automaton it leaves is the automaton it
    got: initial label, labels and boxes are unchanged, whatever the label. *)
Theorem change_initial_label_unchanged (R : RecursiveAutomaton DFA)
    (l : Symbol) :
  l ∈ _labels R →
  ∃ R', change_initial_label R l = inr R' ∧
        _initial_label R' = _initial_label R ∧
        _labels R' = _labels R ∧
        _boxes R' = _boxes R.
Proof.
  intros Hin. exists R. unfold change_initial_label, to_symbol.
  by rewrite decide_True.
Qed.

End AutomatonProofs.

Lemma change_initial_label_unchanged_witness :
  ∃ R', change_initial_label two_labels "A"%string = inr R' ∧
        _initial_label R' = "S"%string ∧
        _labels R' = _labels two_labels ∧
        _boxes R' = _boxes two_labels.
Proof.
  apply (change_initial_label_unchanged two_labels "A"%string).
  vm_compute. reflexivity.
Defined.

(** * Proofs: enumeration of the words *)




(** * Proofs: the normal form on sample grammars *)

(** C2 fails on the grammar S → S | a: it passes the test that guards the
    pipeline, so [to_normal_form] keeps the production S → S, whose body is
    one variable. *)
Theorem to_normal_form_keeps_unit_loop :
  (R ← to_normal_form 1 cfg_unit_loop; Ok (_productions R, _start_symbol R))
  = Ok ([mkProduction "S" [Var "S"]; mkProduction "S" [Terminal "a"]],
        Some (Var "S"))
  ∧ in_normal_form (Some (Var "S")) (mkProduction "S" [Var "S"]) = false.
Proof. split; vm_compute; reflexivity. Qed.

(** C4 fails on a grammar that has a variable named [a#CNF#]: the normal form
    of S → a A, A → b (A being that variable) merges A with the variable made
    for the terminal a, so [contains] accepts aa; the union renames A, so the
    union with S → c rejects aa. *)
Theorem union_contains_name_clash :
  contains 5 cfg_clash [Terminal "a"; Terminal "a"] = Ok true
  ∧ contains 5 cfg_c [Terminal "a"; Terminal "a"] = Ok false
  ∧ (u ← union cfg_clash cfg_c; contains 5 u [Terminal "a"; Terminal "a"])
    = Ok false.
Proof. repeat split; vm_compute; reflexivity. Qed.

(** * Proofs: the constructor of grammars *)

Lemma body_symbols_cons p ps :
  body_symbols (p :: ps) = body p ++ body_symbols ps.
Proof. reflexivity. Qed.

Lemma elem_of_body_symbols x ps :
  x ∈ body_symbols ps ↔ ∃ p, p ∈ ps ∧ x ∈ body p.
Proof.
  unfold body_symbols. rewrite list_elem_of_join. split.
  - intros (l & Hx & Hl). apply list_elem_of_fmap in Hl as (p & -> & Hp).
    by exists p.
  - intros (p & Hp & Hx). exists (body p). split; [done|].
    apply list_elem_of_fmap. by exists p.
Qed.

Lemma initialize_body_spec (bd : list CFGObject) (vs ts : gset CFGObject) :
  foldl (λ st cfg_object,
           if is_Terminal cfg_object then (st.1, {[cfg_object]} ∪ st.2)
           else ({[cfg_object]} ∪ st.1, st.2)) (vs, ts) bd =
  (vs ∪ list_to_set (filter (λ x, is_Terminal x = false) bd),
   ts ∪ list_to_set (filter (λ x, is_Terminal x = true) bd)).
Proof.
  revert vs ts. induction bd as [|b bd IH]; intros vs ts; simpl.
  - f_equal; set_solver.
  - destruct (is_Terminal b) eqn:E; simpl; rewrite IH.
    + rewrite filter_cons_False by congruence.
      rewrite filter_cons_True by done. f_equal. set_solver.
    + rewrite filter_cons_True by done.
      rewrite filter_cons_False by congruence. f_equal. set_solver.
Qed.

Lemma initialize_productions_spec (ps : list Production)
    (vs ts : gset CFGObject) :
  foldl initialize_production_in_cfg (vs, ts) ps =
  (vs ∪ list_to_set (head <$> ps)
      ∪ list_to_set (filter (λ x, is_Terminal x = false) (body_symbols ps)),
   ts ∪ list_to_set (filter (λ x, is_Terminal x = true) (body_symbols ps))).
Proof.
  revert vs ts. induction ps as [|p ps IH]; intros vs ts; simpl.
  - f_equal; set_solver.
  - unfold initialize_production_in_cfg at 2. simpl.
    rewrite initialize_body_spec, IH, body_symbols_cons, !filter_app.
    f_equal; set_solver.
Qed.

Lemma CFG_init_terminals vs ts s ps :
  _terminals (CFG_init vs ts s ps) =
  match ts with Some ts => set_map to_terminal ts | None => ∅ end
  ∪ list_to_set (filter (λ x, is_Terminal x = true)
                        (body_symbols (default [] ps))).
Proof. unfold CFG_init. simpl. by rewrite initialize_productions_spec. Qed.

Lemma CFG_init_variables vs ts s ps :
  _variables (CFG_init vs ts s ps) =
  match to_variable <$> s with Some s => {[s]} | None => ∅ end
  ∪ match vs with Some vs => set_map to_variable vs | None => ∅ end
  ∪ list_to_set (head <$> default [] ps)
  ∪ list_to_set (filter (λ x, is_Terminal x = false)
                        (body_symbols (default [] ps))).
Proof.
  unfold CFG_init. simpl. rewrite initialize_productions_spec. simpl.
  destruct s; simpl; set_solver.
Qed.

Lemma CFG_init_productions vs ts s ps :
  _productions (CFG_init vs ts s ps) = default [] ps.
Proof. reflexivity. Qed.

Lemma CFG_init_start_symbol vs ts s ps :
  _start_symbol (CFG_init vs ts s ps) = to_variable <$> s.
Proof. reflexivity. Qed.

(** * Proofs: substitution *)

Lemma substitute_terminals self substitution R :
  substitute self substitution = Ok R →
  _terminals R = terminals_of_bodies R.
Proof.
  unfold substitute.
  destruct (rename_variables _ _) as [[idx d] new_vars].
  destruct (foldl substitute_one _ _) as [st| |]; simpl; [|done|done].
  destruct (rename_productions _ _ _ _) as [ps| |]; simpl; [|done|done].
  destruct (_start_symbol self ≫= _) as [s|]; simpl; [|done].
  intros [= <-]. rewrite CFG_init_terminals. unfold terminals_of_bodies.
  rewrite CFG_init_productions. simpl. unfold body_symbols. set_solver.
Qed.

(** C9: the terminal set of the grammar that [substitute] returns, and so of
    the grammars that [union], [concatenate], [get_closure] and
    [get_positive_closure] return, is the set of the terminals that occur in
    the bodies of its productions; a terminal that occurs in no body of the
    result is not a terminal of the result, whether the host or a substituted
    grammar declared it or not. *)
Theorem substitute_terminals_from_bodies (self other : CFG)
    (substitution : list (CFGObject * CFG)) (R : CFG) :
  substitute self substitution = Ok R
  ∨ union self other = Ok R
  ∨ concatenate self other = Ok R
  ∨ get_closure self = Ok R
  ∨ get_positive_closure self = Ok R →
  _terminals R = terminals_of_bodies R
  ∧ ∀ t, (∀ p, p ∈ _productions R → t ∉ body p) → t ∉ _terminals R.
Proof.
  intros H.
  assert (_terminals R = terminals_of_bodies R) as Heq.
  { destruct H as [H|[H|[H|[H|H]]]]; by apply substitute_terminals in H. }
  split; [done|]. intros t Hno. rewrite Heq. unfold terminals_of_bodies.
  rewrite elem_of_list_to_set, list_elem_of_filter.
  intros [_ Hin]. apply elem_of_body_symbols in Hin as (p & Hp & Hin).
  by apply (Hno p).
Qed.


Lemma substitute_terminals_from_bodies_witness :
  ∃ R, substitute cfg_declared_z [] = Ok R
       ∧ _terminals R = terminals_of_bodies R
       ∧ ∀ t, (∀ p, p ∈ _productions R → t ∉ body p) → t ∉ _terminals R.
Proof.
  eexists. split.
  - vm_compute. reflexivity.
  - apply (substitute_terminals_from_bodies cfg_declared_z cfg_declared_z []).
    left. vm_compute. reflexivity.
Defined.

(** * Proofs: which exceptions can be raised *)

Create HintDb raises.

Lemma no_nie_Ok {A} (a : A) : no_nie (Ok a).
Proof. done. Qed.

Lemma no_nie_Timeout {A} : no_nie (@Timeout A).
Proof. done. Qed.

Lemma no_nie_bind {A B} (m : result A) (f : A → result B) :
  no_nie m → (∀ a, no_nie (f a)) → no_nie (m ≫= f).
Proof.
  intros Hm Hf. destruct m; [apply Hf| |done].
  unfold no_nie in *. cbn. congruence.
Qed.

Lemma no_nie_getitem {A} e (o : option A) :
  e ≠ NotImplementedError → no_nie (getitem e o).
Proof. destruct o; simpl; unfold no_nie; congruence. Qed.

Lemma no_nie_foldl {A B} (f : result A → B → result A) l init :
  (∀ acc x, no_nie acc → no_nie (f acc x)) → no_nie init →
  no_nie (foldl f init l).
Proof. revert init. induction l; simpl; auto. Qed.

#[local] Hint Resolve no_nie_Ok no_nie_Timeout : raises.
#[local] Hint Extern 1 (no_nie (getitem _ _)) =>
  apply no_nie_getitem; discriminate : raises.

(** One step of the analysis of a body in the [result] monad. *)
Ltac no_nie_step :=
  match goal with
  | |- no_nie (Ok _) => apply no_nie_Ok
  | |- no_nie Timeout => apply no_nie_Timeout
  | |- no_nie (getitem _ _) => apply no_nie_getitem; discriminate
  | |- no_nie (mbind _ _) => apply no_nie_bind; [|intros ?]
  | |- no_nie (foldl _ _ _) => apply no_nie_foldl; [intros ? ? ?|]
  | |- no_nie (if ?c then _ else _) => destruct c
  | |- no_nie (match ?x with _ => _ end) => destruct x
  | |- no_nie (let '(_, _) := ?x in _) => destruct x
  | |- _ => solve [eauto with raises]
  end.

Ltac no_nie := repeat no_nie_step.

Lemma no_nie_add_to_counter d rl s i : no_nie (add_to_counter d rl s i).
Proof. unfold add_to_counter. no_nie. Qed.
#[local] Hint Resolve no_nie_add_to_counter : raises.

Lemma no_nie_process_impacts entries st : no_nie (process_impacts entries st).
Proof.
  revert st. induction entries as [|[s i] entries IH]; intros st; simpl; no_nie.
Qed.
#[local] Hint Resolve no_nie_process_impacts : raises.

Lemma no_nie_engine_loop fuel impacts st : no_nie (engine_loop fuel impacts st).
Proof. revert st. induction fuel as [|fuel IH]; intros st; simpl; no_nie. Qed.
#[local] Hint Resolve no_nie_engine_loop : raises.

Lemma no_nie_fix_modifications pwm rl : no_nie (fix_modifications pwm rl).
Proof.
  revert rl. induction pwm as [|[s i] pwm IH]; intros rl; simpl; no_nie.
Qed.
#[local] Hint Resolve no_nie_fix_modifications : raises.

Lemma no_nie_get_generating_or_nullable b self :
  no_nie (_get_generating_or_nullable b self).
Proof. unfold _get_generating_or_nullable. no_nie. Qed.
#[local] Hint Resolve no_nie_get_generating_or_nullable : raises.

Lemma no_nie_get_generating_symbols self : no_nie (get_generating_symbols self).
Proof. unfold get_generating_symbols. no_nie. Qed.

Lemma no_nie_get_nullable_symbols self : no_nie (get_nullable_symbols self).
Proof. unfold get_nullable_symbols. no_nie. Qed.
#[local] Hint Resolve no_nie_get_generating_symbols
  no_nie_get_nullable_symbols : raises.

Lemma no_nie_ge_process_impacts start entries st :
  no_nie (ge_process_impacts start entries st).
Proof.
  revert st. induction entries as [|[s i] entries IH]; intros st; simpl; no_nie.
Qed.
#[local] Hint Resolve no_nie_ge_process_impacts : raises.

Lemma no_nie_ge_loop fuel start impacts st :
  no_nie (ge_loop fuel start impacts st).
Proof. revert st. induction fuel as [|fuel IH]; intros st; simpl; no_nie. Qed.
#[local] Hint Resolve no_nie_ge_loop : raises.

Lemma no_nie_generate_epsilon self : no_nie (generate_epsilon self).
Proof. unfold generate_epsilon. no_nie. Qed.
#[local] Hint Resolve no_nie_generate_epsilon : raises.

Lemma no_nie_reach_loop fuel d st : no_nie (reach_loop fuel d st).
Proof. revert st. induction fuel as [|fuel IH]; intros st; simpl; no_nie. Qed.
#[local] Hint Resolve no_nie_reach_loop : raises.

Lemma no_nie_get_reachable_symbols self : no_nie (get_reachable_symbols self).
Proof. unfold get_reachable_symbols. no_nie. Qed.
#[local] Hint Resolve no_nie_get_reachable_symbols : raises.

Lemma no_nie_unit_step a ps st : no_nie (unit_step a ps st).
Proof. revert st. induction ps as [|p ps IH]; intros st; simpl; no_nie. Qed.
#[local] Hint Resolve no_nie_unit_step : raises.

Lemma no_nie_unit_loop fuel d st : no_nie (unit_loop fuel d st).
Proof. revert st. induction fuel as [|fuel IH]; intros st; simpl; no_nie. Qed.
#[local] Hint Resolve no_nie_unit_loop : raises.

Lemma no_nie_get_unit_pairs self : no_nie (get_unit_pairs self).
Proof. unfold get_unit_pairs. no_nie. Qed.
#[local] Hint Resolve no_nie_get_unit_pairs : raises.

Lemma no_nie_remove_useless_symbols self : no_nie (remove_useless_symbols self).
Proof. unfold remove_useless_symbols. no_nie. Qed.

Lemma no_nie_remove_epsilon self : no_nie (remove_epsilon self).
Proof. unfold remove_epsilon. no_nie. Qed.

Lemma no_nie_eliminate_unit_productions self :
  no_nie (eliminate_unit_productions self).
Proof. unfold eliminate_unit_productions. no_nie. Qed.
#[local] Hint Resolve no_nie_remove_useless_symbols no_nie_remove_epsilon
  no_nie_eliminate_unit_productions : raises.

Lemma no_nie_single_terminals self :
  no_nie (_get_productions_with_only_single_terminals self).
Proof. unfold _get_productions_with_only_single_terminals. no_nie. Qed.
#[local] Hint Resolve no_nie_single_terminals : raises.

Lemma no_nie_next_free_loop fuel vs idx prefix :
  no_nie (next_free_loop fuel vs idx prefix).
Proof. revert idx. induction fuel as [|fuel IH]; intros idx; simpl; no_nie. Qed.
#[local] Hint Resolve no_nie_next_free_loop : raises.

Lemma no_nie_draw_new_var self n idx : no_nie (draw_new_var self n idx).
Proof.
  revert idx. induction n as [|n IH]; intros idx; simpl; [no_nie|].
  unfold _get_next_free_variable. no_nie.
Qed.
#[local] Hint Resolve no_nie_draw_new_var : raises.

Lemma no_nie_decompose_productions self ps :
  no_nie (_decompose_productions self ps).
Proof.
  unfold _decompose_productions. no_nie_step; [|no_nie].
  apply no_nie_foldl; [|no_nie]. intros acc x Hacc.
  unfold decompose_step. apply no_nie_bind; [done|]. intros [[idx d] nps].
  no_nie.
Qed.
#[local] Hint Resolve no_nie_decompose_productions : raises.

Lemma no_nie_to_normal_form fuel self : no_nie (to_normal_form fuel self).
Proof.
  revert self. induction fuel as [|fuel IH]; intros self; simpl; no_nie.
Qed.
#[local] Hint Resolve no_nie_to_normal_form : raises.

Lemma no_nie_contains fuel self w : no_nie (contains fuel self w).
Proof. unfold contains, CYKTable_generate_word. no_nie. Qed.
#[local] Hint Resolve no_nie_contains : raises.

(** * Proofs: intersection *)

Section IntersectionProofs.

Context {State Regex Other : Type}.
Variable to_epsilon_nfa : Regex → FiniteAutomaton State.
Variable to_deterministic : FiniteAutomaton State → FiniteAutomaton State.
Variable to_cfg_combined_variable : State → option CFGObject → State → string.

Notation intersection' :=
  (intersection (Other:=Other) to_epsilon_nfa to_deterministic
                to_cfg_combined_variable).

Lemma no_nie_intersection_rest fuel self (other : FiniteAutomaton State) :
  no_nie
    (if is_empty other then Ok (CFG_init None None None None)
     else
       c ← contains fuel self [];
       let generate_empty := c && accepts_empty_word other in
       cfg ← to_normal_form fuel self;
       let states := states other in
       new_productions ←
         foldl (λ acc production,
                  new_productions ← acc;
                  ps ← (if decide (length (body production) = 2)
                        then _intersection_when_two_non_terminals
                               to_cfg_combined_variable production states
                        else _intersection_when_terminal
                               to_cfg_combined_variable other production states);
                  Ok (new_productions ++ ps))
               (Ok []) (_productions cfg);
       starting ← _intersection_starting_rules to_cfg_combined_variable cfg other;
       let new_productions := new_productions ++ starting in
       let new_productions :=
         if generate_empty
         then new_productions ++ [Production_init "Start" [] true]
         else new_productions in
       Ok (CFG_init None None (Some (Var "Start")) (Some new_productions))).
Proof.
  unfold _intersection_when_two_non_terminals, _intersection_when_terminal,
    _intersection_starting_rules, _get_all_bodies.
  no_nie.
Qed.

(** [intersection] raises [NotImplementedError] exactly when its operand is
    neither a regular expression nor a finite automaton, whatever the
    grammar, the automaton and the fuel. *)
Lemma intersection_not_implemented (fuel : nat) (self : CFG)
    (other : operand State Regex Other) :
  intersection' fuel self other = Raise NotImplementedError
  ↔ ∃ o, other = another_object o.
Proof.
  assert (∀ r, intersection' fuel self (a_regex r)
               ≠ Raise NotImplementedError) as Hr.
  { intros r. unfold intersection. cbn [mbind result_bind].
    apply no_nie_intersection_rest. }
  assert (∀ a, intersection' fuel self (a_finite_automaton a)
               ≠ Raise NotImplementedError) as Ha.
  { intros a. unfold intersection.
    destruct (is_deterministic a); cbn [mbind result_bind];
      apply no_nie_intersection_rest. }
  destruct other as [r|a|o].
  - split; [by intros ?%Hr|]. by intros [o [=]].
  - split; [by intros ?%Ha|]. by intros [o [=]].
  - split; [by exists o|done].
Qed.

(** C10: on a finite automaton whose language is empty (the emptiness test
    of the automaton that is used, the given one when it is deterministic
    and its determinisation otherwise, answers yes), [intersection] returns
    the grammar [CFG()]: no variable, no terminal, no production and no start
    symbol, so not the start symbol [Start] of the product; that grammar
    contains no word. *)
Theorem intersection_empty_automaton (fuel : nat) (self : CFG)
    (a : FiniteAutomaton State) :
  is_empty (if is_deterministic a then a else to_deterministic a) = true →
  intersection' fuel self (a_finite_automaton a) = Ok empty_cfg
  ∧ _variables empty_cfg = ∅
  ∧ _terminals empty_cfg = ∅
  ∧ _productions empty_cfg = []
  ∧ _start_symbol empty_cfg = None
  ∧ ∀ n w, contains (S n) empty_cfg w = Ok false.
Proof.
  intros Hempty. split.
  { unfold intersection.
    destruct (is_deterministic a); cbn [mbind result_bind];
      by rewrite Hempty. }
  do 4 (split; [reflexivity|]).
  intros n w. unfold contains.
  destruct (to_terminal <$> filter _ w) as [|x w'].
  - vm_compute. reflexivity.
  - unfold CYKTable_generate_word.
    assert (∃ R, to_normal_form (S n) empty_cfg = Ok R
                 ∧ _start_symbol R = None) as (R & -> & HR).
    { eexists. split; [vm_compute; reflexivity|reflexivity]. }
    cbn [mbind result_bind]. by rewrite HR.
Qed.

End IntersectionProofs.

Lemma intersection_empty_automaton_witness :
  intersection (Regex:=unit) (Other:=unit) (λ _, empty_automaton) id
    (λ _ _ _, ""%string) 3 cfg_ab (a_finite_automaton empty_automaton)
  = Ok empty_cfg
  ∧ ∀ n w, contains (S n) empty_cfg w = Ok false.
Proof.
  destruct (intersection_empty_automaton (Regex:=unit) (Other:=unit)
              (λ _, empty_automaton) id (λ _ _ _, ""%string) 3 cfg_ab
              empty_automaton eq_refl) as (H1 & _ & _ & _ & _ & H2).
  split; [exact H1|exact H2].
Defined.


(** * Proofs: the counters of the fixed-point engine *)

Lemma add_to_counter_Ok d rl s i l z :
  rl !! s = Some l → l !! i = Some z →
  add_to_counter d rl s i = Ok (<[s := <[i := (z + d)%Z]> l]> rl, (z + d)%Z).
Proof.
  intros Hs Hi. unfold add_to_counter. rewrite Hs. simpl. by rewrite Hi.
Qed.

Lemma add_to_counter_inv d rl s i r :
  add_to_counter d rl s i = Ok r →
  ∃ l z, rl !! s = Some l ∧ l !! i = Some z
         ∧ r = (<[s := <[i := (z + d)%Z]> l]> rl, (z + d)%Z).
Proof.
  unfold add_to_counter. destruct (rl !! s) as [l|] eqn:Hs; simpl; [|done].
  destruct (l !! i) as [z|] eqn:Hi; simpl; [|done].
  intros [= <-]. by exists l, z.
Qed.

Lemma add_to_counter_defined d rl s i :
  is_Some (counter rl s i) → ∃ r, add_to_counter d rl s i = Ok r.
Proof.
  unfold counter. destruct (rl !! s) as [l|] eqn:Hs; simpl; [|by intros [? ?]].
  intros [z Hz]. eexists. by apply add_to_counter_Ok.
Qed.

Lemma counter_add_to_counter d rl s i r s' i' :
  add_to_counter d rl s i = Ok r →
  counter r.1 s' i' =
  if decide (s' = s ∧ i' = i) then Some r.2 else counter rl s' i'.
Proof.
  intros (l & z & Hs & Hi & ->)%add_to_counter_inv. unfold counter. simpl.
  destruct (decide (s' = s)) as [->|Hne].
  - rewrite lookup_insert_eq, Hs. simpl.
    destruct (decide (i' = i)) as [->|Hne'].
    + rewrite decide_True by done. apply list_lookup_insert_eq.
      by eapply lookup_lt_Some.
    + rewrite decide_False by naive_solver. by apply list_lookup_insert_ne.
  - rewrite lookup_insert_ne by done. rewrite decide_False by naive_solver.
    done.
Qed.

Lemma dom_add_to_counter d rl s i r :
  add_to_counter d rl s i = Ok r → dom r.1 = dom rl.
Proof.
  intros (l & z & Hs & Hi & ->)%add_to_counter_inv. simpl.
  rewrite dom_insert_L. apply elem_of_dom_2 in Hs. set_solver.
Qed.

Lemma counter_defined_add_to_counter d rl s i r s' i' :
  add_to_counter d rl s i = Ok r →
  is_Some (counter r.1 s' i') ↔ is_Some (counter rl s' i').
Proof.
  intros H. rewrite (counter_add_to_counter _ _ _ _ _ _ _ H).
  case_decide as Hd; [|done]. destruct Hd as [-> ->].
  apply add_to_counter_inv in H as (l & z & Hs & Hi & ->).
  unfold counter. rewrite Hs. simpl. rewrite Hi. split; by eauto.
Qed.

Lemma valid_impacts_add_to_counter imp d rl s i r :
  add_to_counter d rl s i = Ok r → valid_impacts imp rl →
  valid_impacts imp r.1.
Proof.
  intros H Hv sym entries e Hsym He.
  apply (counter_defined_add_to_counter _ _ _ _ _ _ _ H). eauto.
Qed.

(** Two updates of counters commute. *)
Lemma add_to_counter_commute d1 d2 rl s1 i1 s2 i2 r1 r12 :
  add_to_counter d1 rl s1 i1 = Ok r1 →
  add_to_counter d2 r1.1 s2 i2 = Ok r12 →
  ∃ r2 r21, add_to_counter d2 rl s2 i2 = Ok r2
            ∧ add_to_counter d1 r2.1 s1 i1 = Ok r21
            ∧ r21.1 = r12.1.
Proof.
  intros H1 H12.
  pose proof H1 as (l1 & z1 & Hs1 & Hi1 & ->)%add_to_counter_inv.
  pose proof H12 as (l2 & z2 & Hs2 & Hi2 & ->)%add_to_counter_inv.
  simpl in *. destruct (decide (s2 = s1)) as [->|Hne].
  - rewrite lookup_insert_eq in Hs2. injection Hs2 as <-.
    destruct (decide (i2 = i1)) as [->|Hne'].
    + rewrite list_lookup_insert_eq in Hi2 by (by eapply lookup_lt_Some).
      injection Hi2 as <-.
      eexists _, _. split; [by apply add_to_counter_Ok|]. split.
      * apply add_to_counter_Ok; simpl; [apply lookup_insert_eq|].
        apply list_lookup_insert_eq. by eapply lookup_lt_Some.
      * simpl. rewrite !insert_insert_eq, !list_insert_insert_eq.
        do 2 f_equal. lia.
    + rewrite list_lookup_insert_ne in Hi2 by done.
      eexists _, _. split; [by apply add_to_counter_Ok|]. split.
      * apply add_to_counter_Ok; simpl; [apply lookup_insert_eq|].
        by rewrite list_lookup_insert_ne.
      * simpl. rewrite !insert_insert_eq. f_equal.
        by apply list_insert_insert_ne.
  - rewrite lookup_insert_ne in Hs2 by done.
    eexists _, _. split; [by apply add_to_counter_Ok|]. split.
    + apply add_to_counter_Ok; simpl; [by rewrite lookup_insert_ne|done].
    + simpl. by apply insert_insert_ne.
Qed.

(** An update is undone by the opposite update. *)
Lemma add_to_counter_undo d rl s i r :
  add_to_counter d rl s i = Ok r →
  ∃ r', add_to_counter (- d) r.1 s i = Ok r' ∧ r'.1 = rl.
Proof.
  intros (l & z & Hs & Hi & ->)%add_to_counter_inv. simpl.
  eexists. split.
  - apply add_to_counter_Ok; [apply lookup_insert_eq|].
    apply list_lookup_insert_eq. by eapply lookup_lt_Some.
  - simpl. rewrite insert_insert_eq, list_insert_insert_eq.
    replace (z + d + - d)%Z with z by lia.
    rewrite list_insert_id by done. by apply insert_id.
Qed.

Lemma adjust_all_snoc d pwm x rl :
  adjust_all d (pwm ++ [x]) rl =
  rl' ← adjust_all d pwm rl; r ← add_to_counter d rl' x.1 x.2; Ok r.1.
Proof.
  revert rl. induction pwm as [|[s i] pwm IH]; intros rl; simpl.
  - destruct x as [s i]. simpl. by destruct (add_to_counter d rl s i).
  - destruct (add_to_counter d rl s i) as [r| |]; simpl; [|done|done].
    apply IH.
Qed.

Lemma adjust_all_commute d1 d2 pwm rl s i r rl' :
  add_to_counter d1 rl s i = Ok r →
  adjust_all d2 pwm r.1 = Ok rl' →
  ∃ rl2 r2, adjust_all d2 pwm rl = Ok rl2
            ∧ add_to_counter d1 rl2 s i = Ok r2 ∧ r2.1 = rl'.
Proof.
  revert rl r rl'. induction pwm as [|[s' i'] pwm IH]; intros rl r rl' H1 H2.
  - simpl in *. injection H2 as <-. by exists rl, r.
  - simpl in H2.
    destruct (add_to_counter d2 r.1 s' i') as [r12| |] eqn:H12; [|done|done].
    simpl in H2.
    destruct (add_to_counter_commute _ _ _ _ _ _ _ _ _ H1 H12)
      as (r2 & r21 & Hr2 & Hr21 & Heq).
    rewrite <- Heq in H2.
    destruct (IH _ _ _ Hr21 H2) as (rl2 & r2' & Ha & Hb & Hc).
    exists rl2, r2'. simpl. rewrite Hr2. simpl. done.
Qed.

(** Incrementing the counters that were decremented gives the table back. *)
Lemma fix_modifications_adjust_all pwm rl :
  fix_modifications pwm rl = adjust_all 1 pwm rl.
Proof.
  revert rl. induction pwm as [|[s i] pwm IH]; intros rl; simpl; [done|].
  destruct (add_to_counter 1 rl s i); simpl; auto.
Qed.

Lemma adjust_all_undo pwm rl rl' :
  adjust_all (-1) pwm rl = Ok rl' → fix_modifications pwm rl' = Ok rl.
Proof.
  rewrite fix_modifications_adjust_all.
  revert rl rl'. induction pwm as [|[s i] pwm IH]; intros rl rl' H.
  - simpl in *. by injection H as <-.
  - simpl in H.
    destruct (add_to_counter (-1) rl s i) as [r| |] eqn:H1; [|done|done].
    simpl in H.
    destruct (adjust_all_commute _ _ _ _ _ _ _ _ H1 H)
      as (rl2 & r2 & Ha & Hb & Hc).
    destruct (add_to_counter_undo _ _ _ _ _ Hb) as (r' & Hr' & Heq).
    change (- (-1))%Z with 1%Z in Hr'. simpl. rewrite Hc in Hr'.
    rewrite Hr'. simpl.
    rewrite Heq. by apply IH.
Qed.

(** ** The loops of the engine end and keep track of the decrements *)

Lemma size_difference_insert (X g : gset CFGObject) s :
  s ∈ X → s ∉ g → S (size (X ∖ ({[s]} ∪ g))) = size (X ∖ g).
Proof.
  intros HX Hg.
  assert (X ∖ g = {[s]} ∪ X ∖ ({[s]} ∪ g)) as ->.
  { apply set_eq. intros x. destruct (decide (x = s)); set_solver. }
  pose proof (size_union (C:=gset CFGObject) {[s]} (X ∖ ({[s]} ∪ g))) as Hu.
  rewrite size_singleton in Hu. rewrite Hu; [done|set_solver].
Qed.

Lemma counter_dom rl s i : is_Some (counter rl s i) → s ∈ dom rl.
Proof.
  unfold counter. destruct (rl !! s) eqn:E; [|by intros [? ?]].
  intros _. by apply elem_of_dom.
Qed.

Lemma process_impacts_basic rl0 entries st :
  (∀ e, e ∈ entries → is_Some (counter (remaining_lists st) e.1 e.2)) →
  adjust_all (-1) (processed_with_modification st) rl0
  = Ok (remaining_lists st) →
  ∃ st', process_impacts entries st = Ok st'
         ∧ adjust_all (-1) (processed_with_modification st') rl0
           = Ok (remaining_lists st')
         ∧ dom (remaining_lists st') = dom (remaining_lists st)
         ∧ (∀ s i, is_Some (counter (remaining_lists st') s i)
                   ↔ is_Some (counter (remaining_lists st) s i))
         ∧ engine_measure st' ≤ engine_measure st.
Proof.
  revert st. induction entries as [|[s i] entries IH]; intros st Hval Hadj.
  - exists st. simpl. by repeat split.
  - simpl. destruct (decide (s ∈ g_symbols st)) as [Hin|Hnin].
    + apply IH; [|done]. intros e He. apply Hval. by apply elem_of_cons; right.
    + destruct (add_to_counter_defined (-1) (remaining_lists st) s i)
        as [r Hr]; [apply (Hval (s, i)); by apply elem_of_cons; left|].
      rewrite Hr. cbn [mbind result_bind].
      assert (adjust_all (-1) (processed_with_modification st ++ [(s, i)]) rl0
              = Ok r.1) as Hadj'.
      { rewrite adjust_all_snoc, Hadj. simpl. by rewrite Hr. }
      pose proof (dom_add_to_counter _ _ _ _ _ Hr) as Hdom.
      pose proof (λ s' i', counter_defined_add_to_counter _ _ _ _ _ s' i' Hr)
        as Hdef.
      assert (s ∈ dom (remaining_lists st)) as Hsdom.
      { eapply counter_dom. apply (Hval (s, i)). by apply elem_of_cons; left. }
      destruct (decide (r.2 = 0%Z)) as [Hz|Hz].
      * edestruct (IH {| g_symbols := {[s]} ∪ g_symbols st;
                         to_process := s :: to_process st;
                         processed_with_modification :=
                           processed_with_modification st ++ [(s, i)];
                         remaining_lists := r.1 |})
          as (st' & H1 & H2 & H3 & H4 & H5); simpl.
        { intros e He. apply Hdef, Hval. by apply elem_of_cons; right. }
        { done. }
        exists st'. split; [done|]. split; [done|].
        split; [by rewrite H3|]. split; [intros; by rewrite H4, Hdef|].
        etrans; [exact H5|]. unfold engine_measure. simpl. rewrite Hdom.
        pose proof (size_difference_insert _ _ _ Hsdom Hnin). lia.
      * edestruct (IH {| g_symbols := g_symbols st;
                         to_process := to_process st;
                         processed_with_modification :=
                           processed_with_modification st ++ [(s, i)];
                         remaining_lists := r.1 |})
          as (st' & H1 & H2 & H3 & H4 & H5); simpl.
        { intros e He. apply Hdef, Hval. by apply elem_of_cons; right. }
        { done. }
        exists st'. split; [done|]. split; [done|].
        split; [by rewrite H3|]. split; [intros; by rewrite H4, Hdef|].
        etrans; [exact H5|]. unfold engine_measure. simpl. by rewrite Hdom.
Qed.

Lemma engine_loop_basic rl0 fuel imp st :
  valid_impacts imp (remaining_lists st) →
  adjust_all (-1) (processed_with_modification st) rl0
  = Ok (remaining_lists st) →
  engine_measure st < fuel →
  ∃ st', engine_loop fuel imp st = Ok st'
         ∧ adjust_all (-1) (processed_with_modification st') rl0
           = Ok (remaining_lists st')
         ∧ to_process st' = [].
Proof.
  revert st. induction fuel as [|fuel IH]; intros st Hval Hadj Hfuel; [lia|].
  simpl. destruct (to_process st) as [|current rest] eqn:Htp.
  - by exists st.
  - destruct (process_impacts_basic rl0 (default [] (imp !! current))
                {| g_symbols := g_symbols st;
                   to_process := rest;
                   processed_with_modification :=
                     processed_with_modification st;
                   remaining_lists := remaining_lists st |})
      as (st1 & H1 & H2 & H3 & H4 & H5); simpl.
    { intros e He. destruct (imp !! current) as [entries|] eqn:E; simpl in He.
      - by apply (Hval current entries).
      - by apply elem_of_nil in He. }
    { done. }
    rewrite H1. cbn [mbind result_bind]. apply IH.
    + intros sym entries e Hsym He. apply H4. simpl. by eapply Hval.
    + done.
    + unfold engine_measure in *. simpl in *. rewrite Htp in Hfuel.
      simpl in Hfuel. lia.
Qed.

(** ** What the tables hold *)

Lemma occurrences_app `{EqDecision A} (x : A) l1 l2 :
  occurrences x (l1 ++ l2) = occurrences x l1 + occurrences x l2.
Proof. unfold occurrences. by rewrite filter_app, length_app. Qed.

Lemma occurrences_cons `{EqDecision A} (x y : A) l :
  occurrences x (y :: l) = (if decide (y = x) then 1 else 0) + occurrences x l.
Proof.
  unfold occurrences. rewrite filter_cons. by destruct (decide (y = x)).
Qed.

Lemma occurrences_nil `{EqDecision A} (x : A) : occurrences x [] = 0.
Proof. reflexivity. Qed.

Lemma occurrences_pos `{EqDecision A} (x : A) l :
  0 < occurrences x l ↔ x ∈ l.
Proof.
  induction l as [|y l IH]; [rewrite occurrences_nil; set_solver by lia|].
  rewrite occurrences_cons, elem_of_cons. destruct (decide (y = x)).
  - split; [by left|lia].
  - rewrite <- IH. simpl. naive_solver.
Qed.

Lemma add_impacts_lookup (e : CFGObject * nat) (bd : list CFGObject)
    (imp : gmap CFGObject (list (CFGObject * nat))) x :
  default [] (foldl (λ imp symbol,
                       <[symbol := default [] (imp !! symbol) ++ [e]]> imp)
                    imp bd !! x)
  = default [] (imp !! x) ++ replicate (occurrences x bd) e.
Proof.
  revert imp. induction bd as [|b bd IH]; intros imp; simpl.
  - by rewrite app_nil_r.
  - rewrite IH, occurrences_cons. destruct (decide (b = x)) as [->|Hne].
    + rewrite lookup_insert_eq. simpl. by rewrite <- app_assoc.
    + by rewrite lookup_insert_ne.
Qed.

Lemma occurrences_replicate `{EqDecision A} (x y : A) n :
  occurrences x (replicate n y) = if decide (y = x) then n else 0.
Proof.
  induction n as [|n IH]; simpl.
  - by destruct (decide (y = x)).
  - rewrite occurrences_cons, IH. by destruct (decide (y = x)).
Qed.

Lemma tables_ok_nil : tables_ok [] (mkTables ∅ ∅ ∅) ∅.
Proof.
  split; simpl.
  - intros h i. unfold counter. by rewrite !lookup_empty.
  - intros x e. by rewrite !lookup_empty.
  - intros h i b. by rewrite lookup_empty.
  - intros p Hp. by apply elem_of_nil in Hp.
  - intros h. split; [set_solver|]. intros (p & Hp & _).
    by apply elem_of_nil in Hp.
Qed.

Lemma tables_ok_snoc ps t slots p :
  tables_ok ps t slots →
  tables_ok (ps ++ [p]) (add_production_to_slots (t, slots) p).1
            (add_production_to_slots (t, slots) p).2.
Proof.
  intros [Hc Hi Hs Hp Ha]. unfold add_production_to_slots. simpl.
  unfold add_production_to_tables.
  destruct (body p) as [|b0 bd] eqn:Hbody; simpl.
  - split; simpl.
    + done.
    + done.
    + intros h i b Hb. destruct (Hs h i b Hb) as (? & p' & ? & ? & ?).
      split; [done|]. exists p'. split; [by apply elem_of_app; left|done].
    + intros p' Hp' Hne. apply elem_of_app in Hp' as [Hp'|Hp'].
      * by apply Hp.
      * apply list_elem_of_singleton in Hp' as ->. by rewrite Hbody in Hne.
    + intros h. rewrite elem_of_union, elem_of_singleton, Ha. split.
      * intros [->|(p' & Hp' & ? & ?)].
        -- exists p. split; [apply elem_of_app; right; by left|done].
        -- exists p'. split; [by apply elem_of_app; left|done].
      * intros (p' & Hp' & Hh & Hb). apply elem_of_app in Hp' as [Hp'|Hp'].
        -- right. by exists p'.
        -- apply list_elem_of_singleton in Hp' as ->. by left.
  - set (h0 := head p). set (old := default [] (t_remaining t !! h0)).
    assert (slots !! (h0, length old) = None) as Hfresh.
    { specialize (Hc h0 (length old)). unfold counter in Hc.
      destruct (slots !! (h0, length old)) as [b'|]; [|done]. exfalso.
      subst old. destruct (t_remaining t !! h0) as [l|]; simpl in *.
      - by rewrite lookup_ge_None_2 in Hc.
      - done. }
    assert (length (old ++ [Z.of_nat (S (length bd))]) - 1 = length old)
      as Hidx by (rewrite length_app; simpl; lia).
    split; simpl.
    + intros h i. unfold counter.
      destruct (decide (h = h0)) as [->|Hne].
      * rewrite lookup_insert_eq. simpl.
        destruct (decide (i = length old)) as [->|Hne'].
        -- rewrite lookup_insert_eq. simpl.
           by rewrite lookup_app_r, Nat.sub_diag.
        -- rewrite lookup_insert_ne by congruence.
           rewrite <- Hc. unfold counter. subst old.
           destruct (t_remaining t !! h0) as [l|] eqn:El; simpl in *.
           ++ destruct (decide (i < length l)).
              ** by rewrite lookup_app_l.
              ** rewrite !lookup_ge_None_2; [done|lia|].
                 rewrite length_app. simpl. lia.
           ++ destruct i; [done|]. simpl. by destruct i.
      * rewrite !lookup_insert_ne by congruence. apply Hc.
    + intros x e. rewrite Hidx.
      pose proof (add_impacts_lookup (h0, length old) (b0 :: bd)
                    (t_impacts t) x) as Hl.
      simpl in Hl. rewrite Hl, occurrences_app, Hi.
      rewrite occurrences_replicate.
      destruct (decide ((h0, length old) = e)) as [<-|Hne].
      * rewrite lookup_insert_eq, Hfresh. done.
      * rewrite lookup_insert_ne by done. lia.
    + intros h i b. destruct (decide ((h0, length old) = (h, i))) as [Heq|Hne].
      * rewrite Heq, lookup_insert_eq. intros [= <-]. split; [done|].
        exists p. split; [apply elem_of_app; right; by left|].
        split; [by injection Heq|done].
      * rewrite lookup_insert_ne by done. intros Hb.
        destruct (Hs h i b Hb) as (? & p' & ? & ? & ?).
        split; [done|]. exists p'. split; [by apply elem_of_app; left|done].
    + intros p' Hp' Hne. apply elem_of_app in Hp' as [Hp'|Hp'].
      * destruct (Hp p' Hp' Hne) as [i Hi'].
        exists i. rewrite lookup_insert_ne; [done|].
        intros Heq. rewrite <- Heq in Hi'. by rewrite Hfresh in Hi'.
      * apply list_elem_of_singleton in Hp' as ->.
        exists (length old). rewrite Hbody. apply lookup_insert_eq.
    + intros h. rewrite Ha. split.
      * intros (p' & Hp' & ? & ?). exists p'.
        split; [by apply elem_of_app; left|done].
      * intros (p' & Hp' & Hh & Hb). apply elem_of_app in Hp' as [Hp'|Hp'].
        -- by exists p'.
        -- apply list_elem_of_singleton in Hp' as ->. by rewrite Hbody in Hb.
Qed.

Lemma build_slots_snoc ps p :
  build_slots (ps ++ [p]) = add_production_to_slots (build_slots ps) p.
Proof. unfold build_slots. by rewrite foldl_app. Qed.

Lemma build_slots_ok ps : tables_ok ps (build_slots ps).1 (build_slots ps).2.
Proof.
  induction ps as [|p ps IH] using rev_ind; [apply tables_ok_nil|].
  rewrite build_slots_snoc. destruct (build_slots ps) as [t slots].
  by apply tables_ok_snoc.
Qed.

Lemma build_slots_tables ps : (build_slots ps).1 = build_tables ps.
Proof.
  induction ps as [|p ps IH] using rev_ind; [done|].
  rewrite build_slots_snoc. unfold build_tables in *. rewrite foldl_app.
  simpl. by rewrite <- IH.
Qed.

Lemma build_tables_ok ps : tables_ok ps (build_tables ps) (build_slots ps).2.
Proof. rewrite <- build_slots_tables. apply build_slots_ok. Qed.

Lemma build_tables_valid ps :
  valid_impacts (t_impacts (build_tables ps)) (t_remaining (build_tables ps)).
Proof.
  destruct (build_tables_ok ps) as [Hc Hi _ _ _].
  intros x entries e Hx He. destruct e as [h i]. simpl. rewrite Hc.
  specialize (Hi x (h, i)). rewrite Hx in Hi. simpl in Hi.
  apply occurrences_pos in He.
  destruct ((build_slots ps).2 !! (h, i)); [|lia].
  by eexists.
Qed.

(** ** The engine on the tables of a grammar *)

Lemma set_remaining_lists_same self rl :
  _remaining_lists self = Some rl → set_remaining_lists self rl = self.
Proof. destruct self. simpl. by intros ->. Qed.

Lemma setup_tables_built self :
  tables_built self →
  let t := build_tables (_productions self) in
  let self' := _set_impacts_and_remaining_lists self in
  _impacts self' = Some (t_impacts t)
  ∧ _remaining_lists self' = Some (t_remaining t)
  ∧ _added_impacts self' = Some (t_added t)
  ∧ _productions self' = _productions self
  ∧ _terminals self' = _terminals self.
Proof.
  intros [Hnone|(H1 & H2 & H3)]; unfold _set_impacts_and_remaining_lists.
  - by rewrite Hnone.
  - by rewrite H1.
Qed.

Lemma setup_idempotent self :
  tables_built self →
  _set_impacts_and_remaining_lists (_set_impacts_and_remaining_lists self)
  = _set_impacts_and_remaining_lists self.
Proof.
  intros Hb. destruct (setup_tables_built self Hb) as (H1 & _).
  unfold _set_impacts_and_remaining_lists at 1. by rewrite H1.
Qed.

Lemma run_engine_Ok nullable terminals ps :
  ∃ st, run_engine nullable terminals (build_tables ps) = Ok st
        ∧ fix_modifications (processed_with_modification st)
                            (remaining_lists st)
          = Ok (t_remaining (build_tables ps))
        ∧ to_process st = [].
Proof.
  unfold run_engine.
  set (st0 := {| g_symbols := _; to_process := _;
                 processed_with_modification := _; remaining_lists := _ |}).
  destruct (engine_loop_basic (t_remaining (build_tables ps))
              (engine_fuel st0) (t_impacts (build_tables ps)) st0)
    as (st & H1 & H2 & H3).
  - apply build_tables_valid.
  - done.
  - unfold engine_measure, engine_fuel.
    assert (size (dom (remaining_lists st0) ∖ g_symbols st0)
            ≤ size (dom (remaining_lists st0))); [|lia].
    apply subseteq_size. set_solver.
  - exists st. split; [done|]. split; [|done]. by apply adjust_all_undo.
Qed.

Lemma get_generating_or_nullable_run nullable self :
  tables_built self →
  ∃ st, run_engine nullable (_terminals self)
                   (build_tables (_productions self)) = Ok st
        ∧ to_process st = []
        ∧ _get_generating_or_nullable nullable self
          = Ok (g_symbols st ∖ {[Epsilon]},
                _set_impacts_and_remaining_lists self).
Proof.
  intros Hb. destruct (setup_tables_built self Hb) as (H1 & H2 & H3 & H4 & H5).
  destruct (run_engine_Ok nullable (_terminals self) (_productions self))
    as (st & Hrun & Hfix & Htp).
  exists st. split; [done|]. split; [done|].
  unfold _get_generating_or_nullable. rewrite H1, H2, H3, H5.
  cbn [getitem mbind result_bind].
  unfold run_engine, engine_seed in Hrun. destruct nullable.
  - rewrite Hrun. cbn [mbind result_bind]. rewrite Hfix.
    cbn [mbind result_bind]. by rewrite set_remaining_lists_same.
  - rewrite Hrun. cbn [mbind result_bind]. rewrite Hfix.
    cbn [mbind result_bind]. by rewrite set_remaining_lists_same.
Qed.

Lemma tables_built_setup self :
  tables_built self → tables_built (_set_impacts_and_remaining_lists self).
Proof.
  intros Hb. destruct (setup_tables_built self Hb) as (H1 & H2 & H3 & H4 & _).
  right. by rewrite H4.
Qed.

Lemma setup_unchanged self :
  _impacts self ≠ None → _set_impacts_and_remaining_lists self = self.
Proof.
  unfold _set_impacts_and_remaining_lists. by destruct (_impacts self).
Qed.

Lemma CFG_init_tables_built vs ts s ps : tables_built (CFG_init vs ts s ps).
Proof. by left. Qed.

Lemma tables_built_set_generating self g :
  tables_built self → tables_built (set_generating_symbols self g).
Proof. by intros [?|?]; [left|right]. Qed.

Lemma tables_built_set_nullable self g :
  tables_built self → tables_built (set_nullable_symbols self g).
Proof. by intros [?|?]; [left|right]. Qed.

(** C5: on an instance whose tables are not set yet or are the tables of its
    productions, the engine returns, and the instance it leaves is the
    instance with its tables set: every counter that was decremented has been
    incremented again, so the counter table is the table of before the call
    when there was one; run again, the engine gives the same set.
    [get_generating_symbols] and [get_nullable_symbols] return as well, leave
    the counter table of before the call, and give the same set when they are
    called again. *)
Theorem analyses_restore_counters (self : CFG) :
  tables_built self →
  (∀ nullable, ∃ g,
     _get_generating_or_nullable nullable self
     = Ok (g, _set_impacts_and_remaining_lists self)
     ∧ _get_generating_or_nullable nullable
         (_set_impacts_and_remaining_lists self)
       = Ok (g, _set_impacts_and_remaining_lists self))
  ∧ _remaining_lists (_set_impacts_and_remaining_lists self)
    = Some (t_remaining (build_tables (_productions self)))
  ∧ (_impacts self ≠ None → _set_impacts_and_remaining_lists self = self)
  ∧ (∀ analysis, analysis = get_generating_symbols
                 ∨ analysis = get_nullable_symbols →
       ∃ g self',
         analysis self = Ok (g, self')
         ∧ (_impacts self ≠ None →
            _remaining_lists self' = _remaining_lists self)
         ∧ tables_built self'
         ∧ analysis self' = Ok (g, self')).
Proof.
  intros Hb.
  assert (∀ nullable, ∃ g,
            _get_generating_or_nullable nullable self
            = Ok (g, _set_impacts_and_remaining_lists self)
            ∧ _get_generating_or_nullable nullable
                (_set_impacts_and_remaining_lists self)
              = Ok (g, _set_impacts_and_remaining_lists self)) as Hengine.
  { intros nullable.
    destruct (get_generating_or_nullable_run nullable self Hb)
      as (st & Hrun & _ & Hget).
    exists (g_symbols st ∖ {[Epsilon]}). split; [done|].
    destruct (setup_tables_built self Hb) as (_ & _ & _ & Hp & Ht).
    destruct (get_generating_or_nullable_run nullable _
                (tables_built_setup self Hb)) as (st' & Hrun' & _ & Hget').
    rewrite Hp, Ht, Hrun in Hrun'. injection Hrun' as <-.
    by rewrite Hget', setup_idempotent. }
  split; [done|].
  split; [by destruct (setup_tables_built self Hb) as (_ & ? & _)|].
  split; [apply setup_unchanged|].
  intros analysis [-> | ->].
  - unfold get_generating_symbols.
    destruct (_generating_symbols self) as [g0|] eqn:Hc.
    + exists g0, self. by rewrite Hc.
    + destruct (Hengine false) as (g & Hg & _). rewrite Hg.
      cbn [mbind result_bind fst snd].
      exists g, (set_generating_symbols
                   (_set_impacts_and_remaining_lists self) g).
      split; [done|]. split; [by intros ->%setup_unchanged|].
      split; [by apply tables_built_set_generating, tables_built_setup|done].
  - unfold get_nullable_symbols.
    destruct (_nullable_symbols self) as [g0|] eqn:Hc.
    + exists g0, self. by rewrite Hc.
    + destruct (Hengine true) as (g & Hg & _). rewrite Hg.
      cbn [mbind result_bind fst snd].
      exists g, (set_nullable_symbols
                   (_set_impacts_and_remaining_lists self) g).
      split; [done|]. split; [by intros ->%setup_unchanged|].
      split; [by apply tables_built_set_nullable, tables_built_setup|done].
Qed.

Lemma analyses_restore_counters_witness :
  ∃ g self',
    get_generating_symbols cfg_ab = Ok (g, self')
    ∧ (_impacts cfg_ab ≠ None →
       _remaining_lists self' = _remaining_lists cfg_ab)
    ∧ tables_built self'
    ∧ get_generating_symbols self' = Ok (g, self').
Proof.
  destruct (analyses_restore_counters cfg_ab (or_introl eq_refl))
    as (_ & _ & _ & H).
  apply (H get_generating_symbols). by left.
Defined.

(** ** The engine computes the closure *)

Lemma counter_adjust_all d pwm rl rl' h i :
  adjust_all d pwm rl = Ok rl' →
  counter rl' h i
  = (λ z, (z + d * Z.of_nat (occurrences (h, i) pwm))%Z) <$> counter rl h i.
Proof.
  revert rl. induction pwm as [|[s j] pwm IH]; intros rl H.
  - simpl in H. injection H as <-. rewrite (occurrences_nil (h, i)).
    destruct (counter rl h i); simpl; [f_equal; lia|done].
  - simpl in H.
    destruct (add_to_counter d rl s j) as [r| |] eqn:Hr; [|done|done].
    simpl in H. rewrite (IH _ H), (counter_add_to_counter _ _ _ _ _ _ _ Hr).
    rewrite (occurrences_cons (h, i) (s, j) pwm).
    apply add_to_counter_inv in Hr as (l & z & Hs & Hj & ->). simpl.
    destruct (decide (h = s ∧ i = j)) as [[-> ->]|Hne].
    + rewrite decide_True by done. unfold counter. rewrite Hs. simpl.
      rewrite Hj. simpl. f_equal. lia.
    + rewrite decide_False by (intros [= -> ->]; naive_solver).
      destruct (counter rl h i); simpl; [f_equal; lia|done].
Qed.

Lemma occurrences_bind `{EqDecision A} {B} (e : A) (f : B → list A) L :
  occurrences e (L ≫= f) = sum_list ((λ x, occurrences e (f x)) <$> L).
Proof.
  induction L as [|x L IH]; [done|].
  rewrite bind_cons, occurrences_app, IH. done.
Qed.

Lemma sum_occurrences_nil (L : list CFGObject) :
  sum_list ((λ x, occurrences x []) <$> L) = 0.
Proof. induction L as [|x L IH]; [done|]. rewrite fmap_cons. simpl. exact IH. Qed.

Lemma sum_occurrences_cons (y : CFGObject) b (L : list CFGObject) :
  NoDup L →
  sum_list ((λ x, occurrences x (y :: b)) <$> L)
  = (if decide (y ∈ L) then 1 else 0)
    + sum_list ((λ x, occurrences x b) <$> L).
Proof.
  induction L as [|x L IHL]; intros HL.
  - rewrite decide_False; [done|]. apply not_elem_of_nil.
  - apply NoDup_cons in HL as [Hx HL]. rewrite !fmap_cons.
    cbn [sum_list sum_list_with]. rewrite IHL by done.
    rewrite occurrences_cons.
    destruct (decide (y = x)) as [->|Hne].
    + rewrite (decide_True (P:=x ∈ x :: L)) by (by apply elem_of_cons; left).
      rewrite (decide_False (P:=x ∈ L)) by done. simpl. lia.
    + destruct (decide (y ∈ L)) as [Hin|Hnin].
      * rewrite (decide_True (P:=y ∈ x :: L)) by (by apply elem_of_cons; right).
        simpl. lia.
      * rewrite (decide_False (P:=y ∈ x :: L)); [simpl; lia|].
        intros [?|?]%elem_of_cons; done.
Qed.

Lemma sum_occurrences (b : list CFGObject) (L : list CFGObject) :
  NoDup L →
  sum_list ((λ x, occurrences x b) <$> L) = length (filter (λ y, y ∈ L) b).
Proof.
  intros HL. induction b as [|y b IH].
  - apply sum_occurrences_nil.
  - rewrite sum_occurrences_cons by done. rewrite IH, filter_cons.
    by destruct (decide (y ∈ L)).
Qed.

Lemma filter_length_all {A} (P : A → Prop) `{∀ x, Decision (P x)} (l : list A) :
  length (filter P l) = length l → Forall P l.
Proof.
  induction l as [|x l IH]; [done|]. rewrite filter_cons.
  pose proof (length_filter P l). destruct (decide (P x)); simpl.
  - intros [=]. constructor; auto.
  - lia.
Qed.

Lemma filter_length_Forall {A} (P : A → Prop) `{∀ x, Decision (P x)}
    (l : list A) :
  Forall P l → length (filter P l) = length l.
Proof.
  induction 1 as [|x l Hx Hl IH]; [done|].
  rewrite filter_cons_True by done. simpl. by rewrite IH.
Qed.

Lemma occurrences_prefix `{EqDecision A} (e : A) l1 l2 :
  occurrences e l1 ≤ occurrences e (l1 ++ l2).
Proof. rewrite occurrences_app. lia. Qed.

Lemma engine_inv_mono_g seed ps t slots st done pre g' tp' :
  engine_inv seed ps t slots st done pre →
  g_symbols st ⊆ g' →
  (∀ x, x ∈ g' → x ∉ g_symbols st → closure seed ps x) →
  (∀ h i z, h ∉ g' → counter (remaining_lists st) h i = Some z → (1 ≤ z)%Z) →
  engine_inv seed ps t slots
    {| g_symbols := g'; to_process := tp';
       processed_with_modification := processed_with_modification st;
       remaining_lists := remaining_lists st |} done pre.
Proof.
  intros [H1 H2 H3 H4 H5 H6] Hsub Hnew Hpos. split; simpl; try done.
  - intros e He. apply H2. set_solver.
  - intros x Hx. destruct (decide (x ∈ g_symbols st)); auto.
  - set_solver.
  - set_solver.
Qed.

(** The counter of a slot is the length of the body minus the number of the
    decrements. *)
Lemma engine_inv_counter seed ps t slots st done pre h i z :
  tables_ok ps t slots →
  engine_inv seed ps t slots st done pre →
  counter (remaining_lists st) h i = Some z →
  ∃ b, slots !! (h, i) = Some b
       ∧ z = (Z.of_nat (length b)
              - Z.of_nat (occurrences (h, i) (processed_with_modification st)))%Z.
Proof.
  intros Hok Hinv Hz.
  rewrite (counter_adjust_all _ _ _ _ h i (inv_adjust _ _ _ _ _ _ _ Hinv)) in Hz.
  rewrite (ok_counter _ _ _ Hok) in Hz.
  destruct (slots !! (h, i)) as [b|]; [|done]. simpl in Hz.
  exists b. split; [done|]. injection Hz as <-. lia.
Qed.

Lemma engine_inv_zero seed ps t slots st done pre cur rest s i z :
  tables_ok ps t slots →
  engine_inv seed ps t slots st done pre →
  pre ++ (s, i) :: rest = default [] (t_impacts t !! cur) →
  NoDup (done ++ [cur]) →
  (∀ x, x ∈ done ++ [cur] → x ∈ g_symbols st) →
  s ∉ g_symbols st →
  counter (remaining_lists st) s i = Some z → (z + -1)%Z = 0%Z →
  closure seed ps s.
Proof.
  intros Hok Hinv Hpre Hnd Hdone Hs Hz Hzero.
  destruct (engine_inv_counter _ _ _ _ _ _ _ _ _ _ Hok Hinv Hz)
    as (b & Hb & ->).
  rewrite (inv_count _ _ _ _ _ _ _ Hinv (s, i) Hs) in Hzero.
  set (X := done ≫= λ x, default [] (t_impacts t !! x)) in *.
  assert (occurrences (s, i) (X ++ pre ++ [(s, i)]) = length b) as Hocc.
  { rewrite app_assoc, occurrences_app, occurrences_cons.
    rewrite decide_True by done. rewrite occurrences_nil. lia. }
  assert (occurrences (s, i)
            ((done ++ [cur]) ≫= λ x, default [] (t_impacts t !! x))
          = length (filter (λ y, y ∈ done ++ [cur]) b)) as Hsum.
  { rewrite occurrences_bind.
    rewrite <- (sum_occurrences b (done ++ [cur]) Hnd).
    f_equal. apply list_fmap_ext. intros _ x _.
    by rewrite (ok_impacts _ _ _ Hok), Hb. }
  assert (length b ≤ length (filter (λ y, y ∈ done ++ [cur]) b)) as Hle.
  { rewrite <- Hsum, <- Hocc, bind_app. simpl. rewrite app_nil_r.
    fold X. rewrite <- Hpre.
    replace (X ++ pre ++ (s, i) :: rest)
      with ((X ++ pre ++ [(s, i)]) ++ rest)
      by (by rewrite <- !app_assoc).
    apply occurrences_prefix. }
  pose proof (length_filter (λ y, y ∈ done ++ [cur]) b) as Hle'.
  assert (Forall (λ y, y ∈ done ++ [cur]) b) as Hall
    by (apply (filter_length_all (λ y, y ∈ done ++ [cur])); lia).
  destruct (ok_slot _ _ _ Hok s i b Hb) as (_ & p & Hp & <- & <-).
  apply closure_production; [done|]. intros y Hy.
  apply (inv_sound _ _ _ _ _ _ _ Hinv), Hdone.
  rewrite Forall_forall in Hall. by apply Hall.
Qed.

Lemma process_impacts_inv seed ps t slots cur done entries :
  tables_ok ps t slots →
  NoDup (done ++ [cur]) →
  ∀ pre st st',
    pre ++ entries = default [] (t_impacts t !! cur) →
    (∀ x, x ∈ done ++ [cur] → x ∈ g_symbols st) →
    engine_inv seed ps t slots st done pre →
    process_impacts entries st = Ok st' →
    engine_inv seed ps t slots st' done (pre ++ entries)
    ∧ ∃ new, to_process st' = new ++ to_process st
             ∧ g_symbols st' = list_to_set new ∪ g_symbols st
             ∧ NoDup new
             ∧ ∀ x, x ∈ new → x ∉ g_symbols st.
Proof.
  intros Hok Hnd.
  induction entries as [|[s i] entries IH]; intros pre st st' Hpre Hdone Hinv Hrun.
  - simpl in Hrun. injection Hrun as <-. rewrite app_nil_r. split; [done|].
    exists []. split; [done|]. split; [set_solver|]. split; [constructor|].
    intros x Hx. by apply elem_of_nil in Hx.
  - simpl in Hrun. rewrite (cons_middle (s, i)), app_assoc.
    destruct (decide (s ∈ g_symbols st)) as [Hin|Hnin].
    + apply (IH (pre ++ [(s, i)]) st st'); [by rewrite <- app_assoc|done| |done].
      destruct Hinv as [H1 H2 H3 H4 H5 H6]. split; try done.
      intros e He. rewrite H2 by done. rewrite !app_assoc.
      rewrite (occurrences_app e _ [(s, i)]), occurrences_cons.
      rewrite decide_False; [rewrite occurrences_nil; lia|].
      intros <-. done.
    + destruct (add_to_counter (-1) (remaining_lists st) s i) as [r| |] eqn:Hr;
        [|done|done].
      cbn [mbind result_bind] in Hrun.
      pose proof Hr as (l & z & Hs & Hi & Hreq)%add_to_counter_inv.
      assert (counter (remaining_lists st) s i = Some z) as Hz
        by (unfold counter; rewrite Hs; done).
      assert (r.2 = (z + -1)%Z) as Hr2 by (by rewrite Hreq).
      pose proof (inv_positive _ _ _ _ _ _ _ Hinv s i z Hnin Hz) as Hzpos.
      (* the invariant after the decrement, whatever the new [g_symbols] *)
      assert (∀ g' tp',
                g_symbols st ⊆ g' →
                (r.2 = 0%Z → s ∈ g') →
                (∀ x, x ∈ g' → x ∉ g_symbols st → closure seed ps x) →
                engine_inv seed ps t slots
                  {| g_symbols := g'; to_process := tp';
                     processed_with_modification :=
                       processed_with_modification st ++ [(s, i)];
                     remaining_lists := r.1 |} done (pre ++ [(s, i)]))
        as Hstep.
      { intros g' tp' Hsub Hzero Hnew.
        destruct Hinv as [H1 H2 H3 H4 H5 H6]. split; simpl.
        - rewrite adjust_all_snoc, H1. simpl. by rewrite Hr.
        - intros e He. rewrite occurrences_app, H2 by set_solver.
          by rewrite !app_assoc, (occurrences_app e _ [(s, i)]).
        - intros h i' z' Hh Hc.
          rewrite (counter_add_to_counter _ _ _ _ _ h i' Hr) in Hc.
          case_decide as Hd.
          + destruct Hd as [-> ->]. injection Hc as <-.
            destruct (decide (r.2 = 0%Z)) as [Hz0|Hz0]; [|lia].
            exfalso. by apply Hh, Hzero.
          + apply (H3 h i'); [set_solver|done].
        - intros x Hx. destruct (decide (x ∈ g_symbols st)); auto.
        - set_solver.
        - set_solver. }
      destruct (decide (r.2 = 0%Z)) as [Hzero|Hnz].
      * edestruct (IH (pre ++ [(s, i)])) as (Hinv' & new & Hn1 & Hn2 & Hn3 & Hn4);
          [by rewrite <- app_assoc| | |exact Hrun|]; simpl.
        { intros x Hx. apply elem_of_union. right. by apply Hdone. }
        { apply Hstep; [set_solver|set_solver|].
          intros x Hx Hnx. assert (x = s) as -> by set_solver.
          eapply engine_inv_zero; eauto. by rewrite <- Hr2. }
        split; [done|]. simpl in *. exists (new ++ [s]).
        split; [by rewrite Hn1, <- app_assoc|].
        split; [rewrite Hn2, list_to_set_app_L; set_solver|].
        split.
        { apply NoDup_app. split; [done|]. split; [|apply NoDup_singleton].
          intros x Hx ->%list_elem_of_singleton. apply (Hn4 s Hx).
          set_solver. }
        intros x [Hx| ->%list_elem_of_singleton]%elem_of_app; [|done].
        specialize (Hn4 x Hx). set_solver.
      * edestruct (IH (pre ++ [(s, i)])) as (Hinv' & new & Hn1 & Hn2 & Hn3 & Hn4);
          [by rewrite <- app_assoc| | |exact Hrun|]; simpl.
        { done. }
        { apply Hstep; [done|done|]. intros x Hx Hnx. done. }
        split; [done|]. by exists new.
Qed.

Lemma engine_inv_next seed ps t slots st done cur :
  engine_inv seed ps t slots st done (default [] (t_impacts t !! cur)) →
  engine_inv seed ps t slots st (done ++ [cur]) [].
Proof.
  intros [H1 H2 H3 H4 H5 H6]. split; try done.
  intros e He. rewrite H2 by done. rewrite bind_app, app_nil_r. simpl.
  by rewrite app_nil_r.
Qed.

Lemma engine_loop_inv seed ps t slots fuel :
  tables_ok ps t slots →
  ∀ st dn st',
    engine_inv seed ps t slots st dn [] →
    NoDup (dn ++ to_process st) →
    (∀ x, x ∈ g_symbols st ↔ x ∈ dn ∨ x ∈ to_process st) →
    engine_loop fuel (t_impacts t) st = Ok st' →
    ∃ done', engine_inv seed ps t slots st' done' []
             ∧ to_process st' = []
             ∧ NoDup done'
             ∧ ∀ x, x ∈ g_symbols st' ↔ x ∈ done'.
Proof.
  intros Hok. induction fuel as [|fuel IH]; intros st dn st' Hinv Hnd Hg Hrun;
    [done|].
  simpl in Hrun. destruct (to_process st) as [|cur rest] eqn:Htp.
  - injection Hrun as <-. exists dn. split; [done|]. split; [done|].
    rewrite app_nil_r in Hnd. split; [done|]. intros x. rewrite Hg.
    rewrite elem_of_nil. tauto.
  - destruct (process_impacts _ _) as [st1| |] eqn:Hin; [|done|done].
    cbn [mbind result_bind] in Hrun.
    assert (NoDup (dn ++ [cur])) as Hnd1.
    { rewrite (cons_middle cur dn rest), app_assoc in Hnd.
      by apply NoDup_app in Hnd as (? & _ & _). }
    edestruct (process_impacts_inv seed ps t slots cur dn
                 (default [] (t_impacts t !! cur)) Hok Hnd1 [])
      as (Hinv1 & new & Hn1 & Hn2 & Hn3 & Hn4);
      [reflexivity| | |exact Hin|]; simpl.
    { intros x Hx. apply Hg. apply elem_of_app in Hx as [?|Hx]; [by left|].
      right. apply list_elem_of_singleton in Hx as ->. by left. }
    { destruct Hinv as [H1 H2 H3 H4 H5 H6]. by split. }
    simpl in *. apply (IH st1 (dn ++ [cur]) st'); [| | |done].
    + by apply engine_inv_next.
    + rewrite Hn1. rewrite <- app_assoc. simpl.
      apply NoDup_app in Hnd as (Hd1 & Hd2 & Hd3).
      apply NoDup_cons in Hd3 as [Hc Hrest].
      apply NoDup_app. split; [done|]. split.
      * intros x Hx [->|[Hx'|Hx']%elem_of_app]%elem_of_cons.
        -- apply (Hd2 cur Hx). by left.
        -- apply (Hn4 x Hx'). apply Hg. by left.
        -- apply (Hd2 x Hx). by right.
      * apply NoDup_cons. split.
        -- intros [Hx'|Hx']%elem_of_app; [|done].
           apply (Hn4 cur Hx'). apply Hg. right. by left.
        -- apply NoDup_app. split; [done|]. split; [|done].
           intros x Hx Hx'. apply (Hn4 x Hx). apply Hg. right. by right.
    + intros x. rewrite Hn2, Hn1, elem_of_union, elem_of_list_to_set, Hg.
      rewrite !elem_of_app, elem_of_cons, list_elem_of_singleton. tauto.
Qed.

Lemma seed_added_spec added g tp :
  NoDup tp → (∀ x, x ∈ g ↔ x ∈ tp) →
  let r := seed_added added (g, tp) in
  NoDup r.2 ∧ (∀ x, x ∈ r.1 ↔ x ∈ r.2) ∧ r.1 = g ∪ list_to_set added.
Proof.
  revert g tp. induction added as [|a added IH]; intros g tp Hnd Hg; simpl.
  - split; [done|]. split; [done|]. set_solver.
  - destruct (decide (a ∈ g)) as [Hin|Hnin]; simpl.
    + destruct (IH g tp Hnd Hg) as (H1 & H2 & H3).
      split; [done|]. split; [done|]. rewrite H3. set_solver.
    + destruct (IH ({[a]} ∪ g) (a :: tp)) as (H1 & H2 & H3).
      * apply NoDup_cons. split; [by rewrite <- Hg|done].
      * intros x. rewrite elem_of_union, elem_of_singleton, elem_of_cons, Hg.
        done.
      * split; [done|]. split; [done|]. rewrite H3. set_solver.
Qed.

Lemma seed_terminals_spec terminals g tp :
  NoDup tp → (∀ x, x ∈ g ↔ x ∈ tp) →
  NoDup terminals → (∀ x, x ∈ terminals → x ∉ g) →
  let r := seed_terminals terminals (g, tp) in
  NoDup r.2 ∧ (∀ x, x ∈ r.1 ↔ x ∈ r.2) ∧ r.1 = g ∪ list_to_set terminals.
Proof.
  revert g tp. induction terminals as [|a terminals IH];
    intros g tp Hnd Hg Hnt Hdisj; simpl.
  - split; [done|]. split; [done|]. set_solver.
  - apply NoDup_cons in Hnt as [Ha Hnt].
    destruct (IH ({[a]} ∪ g) (a :: tp)) as (H1 & H2 & H3).
    + apply NoDup_cons. split; [|done]. rewrite <- Hg. apply Hdisj. by left.
    + intros x. rewrite elem_of_union, elem_of_singleton, elem_of_cons, Hg.
      done.
    + done.
    + intros x Hx [->%elem_of_singleton|Hx']%elem_of_union; [done|].
      apply (Hdisj x); [by right|done].
    + split; [done|]. split; [done|]. rewrite H3. set_solver.
Qed.

Lemma engine_seed_spec nullable terminals ps :
  (∀ x, x ∈ terminals → is_Terminal x = true) →
  let r := engine_seed nullable terminals (build_tables ps) in
  NoDup r.2 ∧ (∀ x, x ∈ r.1 ↔ x ∈ r.2)
  ∧ r.1 = engine_seeds nullable terminals ∪ t_added (build_tables ps).
Proof.
  intros Hter. unfold engine_seed.
  destruct (seed_added_spec (elements (t_added (build_tables ps)))
              {[Epsilon]} [Epsilon]) as (H1 & H2 & H3).
  { apply NoDup_singleton. }
  { intros x. by rewrite elem_of_singleton, list_elem_of_singleton. }
  destruct (seed_added _ _) as [g tp] eqn:E. simpl in *.
  rewrite list_to_set_elements_L in H3.
  destruct nullable; simpl.
  - split; [done|]. split; [done|]. done.
  - destruct (seed_terminals_spec (elements terminals) g tp H1 H2)
      as (H4 & H5 & H6).
    + apply NoDup_elements.
    + intros x Hx%elem_of_elements. rewrite H3.
      intros [->%elem_of_singleton|Hx']%elem_of_union.
      * by specialize (Hter _ Hx).
      * apply (ok_added _ _ _ (build_tables_ok ps)) in Hx' as (p & _ & <- & _).
        by specialize (Hter _ Hx).
    + split; [done|]. split; [done|]. rewrite H6, H3.
      rewrite list_to_set_elements_L. set_solver.
Qed.

(** The set of the engine after its loop is the closure of the seeds. *)
Lemma run_engine_closure nullable terminals ps st :
  (∀ x, x ∈ terminals → is_Terminal x = true) →
  run_engine nullable terminals (build_tables ps) = Ok st →
  ∀ x, x ∈ g_symbols st ↔ closure (engine_seeds nullable terminals) ps x.
Proof.
  intros Hter Hrun. unfold run_engine in Hrun.
  destruct (engine_seed_spec nullable terminals ps Hter) as (H1 & H2 & H3).
  pose proof (build_tables_ok ps) as Hok.
  set (seed := engine_seeds nullable terminals) in *.
  set (st0 := {| g_symbols := _; to_process := _;
                 processed_with_modification := _; remaining_lists := _ |})
    in Hrun.
  destruct (engine_loop_inv seed ps _ _ (engine_fuel st0) Hok st0 [] st)
    as (done' & Hinv & Htp & Hnd & Hg); [| | |exact Hrun|]; simpl.
  - split; simpl.
    + done.
    + done.
    + intros h i z _ Hz. rewrite (ok_counter _ _ _ Hok) in Hz.
      destruct (_ !! (h, i)) as [b|] eqn:Hb; [|done]. injection Hz as <-.
      destruct (ok_slot _ _ _ Hok h i b Hb) as [Hne _].
      destruct b; [done|]. simpl. lia.
    + intros x. rewrite H3. intros [Hx|Hx]%elem_of_union.
      * by apply closure_seed.
      * apply (ok_added _ _ _ Hok) in Hx as (p & Hp & <- & Hb).
        apply closure_production; [done|]. rewrite Hb. intros y Hy.
        by apply elem_of_nil in Hy.
    + rewrite H3. set_solver.
    + rewrite H3. set_solver.
  - done.
  - intros x. rewrite H2. set_solver.
  - intros x. split; [apply (inv_sound _ _ _ _ _ _ _ Hinv)|].
    induction 1 as [x Hx|p Hp Hbody IH].
    + by apply (inv_seed _ _ _ _ _ _ _ Hinv).
    + destruct (decide (head p ∈ g_symbols st)) as [|Hnin]; [done|]. exfalso.
      destruct (decide (body p = [])) as [Hb|Hb].
      { apply Hnin, (inv_added _ _ _ _ _ _ _ Hinv), (ok_added _ _ _ Hok).
        by exists p. }
      destruct (ok_production _ _ _ Hok p Hp Hb) as [i Hi].
      assert (is_Some (counter (remaining_lists st) (head p) i)) as [z Hz].
      { rewrite (counter_adjust_all _ _ _ _ (head p) i
                   (inv_adjust _ _ _ _ _ _ _ Hinv)).
        rewrite (ok_counter _ _ _ Hok), Hi. by eexists. }
      pose proof (inv_positive _ _ _ _ _ _ _ Hinv _ _ _ Hnin Hz) as Hpos.
      destruct (engine_inv_counter _ _ _ _ _ _ _ _ _ _ Hok Hinv Hz)
        as (b & Hb' & ->).
      rewrite Hi in Hb'. injection Hb' as <-.
      rewrite (inv_count _ _ _ _ _ _ _ Hinv (head p, i) Hnin) in Hpos.
      rewrite app_nil_r, occurrences_bind in Hpos.
      assert (sum_list ((λ x, occurrences (head p, i)
                                (default [] (t_impacts (build_tables ps) !! x)))
                          <$> done')
              = length (body p)) as Hsum; [|lia].
      rewrite <- (filter_length_Forall (λ y, y ∈ done') (body p)).
      * rewrite <- (sum_occurrences (body p) done' Hnd).
        f_equal. apply list_fmap_ext. intros _ x _.
        by rewrite (ok_impacts _ _ _ Hok), Hi.
      * apply Forall_forall. intros y Hy. apply Hg. by apply IH.
Qed.

(** ** The two analyses *)

Lemma closure_mono seed seed' ps ps' x :
  seed ⊆ seed' → (∀ p, p ∈ ps → p ∈ ps') →
  closure seed ps x → closure seed' ps' x.
Proof.
  intros Hs Hp. induction 1 as [x Hx|p Hin Hbody IH].
  - apply closure_seed. set_solver.
  - apply closure_production; auto.
Qed.

Lemma get_generating_or_nullable_closure nullable self :
  tables_built self →
  (∀ x, x ∈ _terminals self → is_Terminal x = true) →
  ∃ g, _get_generating_or_nullable nullable self
       = Ok (g, _set_impacts_and_remaining_lists self)
       ∧ ∀ x, x ∈ g ↔ x ≠ Epsilon
                      ∧ closure (engine_seeds nullable (_terminals self))
                                (_productions self) x.
Proof.
  intros Hb Hter.
  destruct (get_generating_or_nullable_run nullable self Hb)
    as (st & Hrun & _ & Hget).
  exists (g_symbols st ∖ {[Epsilon]}). split; [done|]. intros x.
  rewrite elem_of_difference, elem_of_singleton.
  rewrite (run_engine_closure _ _ _ _ Hter Hrun). tauto.
Qed.

(** ** Reachable symbols *)

Lemma gset_size_difference_insert `{Countable A} (X g : gset A) s :
  s ∈ X → s ∉ g → S (size (X ∖ ({[s]} ∪ g))) = size (X ∖ g).
Proof.
  intros HX Hg.
  assert (X ∖ g = {[s]} ∪ X ∖ ({[s]} ∪ g)) as ->.
  { apply set_eq. intros x. destruct (decide (x = s)); set_solver. }
  pose proof (size_union (C:=gset A) {[s]} (X ∖ ({[s]} ∪ g))) as Hu.
  rewrite size_singleton in Hu. rewrite Hu; [done|set_solver].
Qed.

Lemma reachable_transitions_snoc ps p :
  reachable_transitions (ps ++ [p])
  = <[head p := default [] (reachable_transitions ps !! head p)
                  ++ filter (λ symbol, is_Epsilon symbol = false) (body p)]>
      (reachable_transitions ps).
Proof. unfold reachable_transitions. by rewrite foldl_app. Qed.

Lemma is_Epsilon_false x : is_Epsilon x = false ↔ x ≠ Epsilon.
Proof. destruct x; simpl; split; congruence. Qed.

Lemma reachable_transitions_spec ps h y :
  y ∈ default [] (reachable_transitions ps !! h)
  ↔ ∃ p, p ∈ ps ∧ head p = h ∧ y ∈ body p ∧ y ≠ Epsilon.
Proof.
  induction ps as [|p ps IH] using rev_ind.
  - unfold reachable_transitions. simpl. rewrite lookup_empty. simpl.
    split; [by intros ?%elem_of_nil|]. by intros (p & ?%elem_of_nil & _).
  - rewrite reachable_transitions_snoc.
    destruct (decide (head p = h)) as [<-|Hne].
    + rewrite lookup_insert_eq. simpl. rewrite elem_of_app, IH.
      rewrite list_elem_of_filter, is_Epsilon_false. split.
      * intros [(p' & Hp' & ? & ? & ?)|[? ?]].
        -- exists p'. split; [by apply elem_of_app; left|done].
        -- exists p. split; [apply elem_of_app; right; by left|done].
      * intros (p' & [Hp'|Hp']%elem_of_app & Hh & Hy & Hne).
        -- left. by exists p'.
        -- apply list_elem_of_singleton in Hp' as ->. by right.
    + rewrite lookup_insert_ne by done. rewrite IH. split.
      * intros (p' & Hp' & ? & ? & ?). exists p'.
        split; [by apply elem_of_app; left|done].
      * intros (p' & [Hp'|Hp']%elem_of_app & Hh & Hy & Hne').
        -- by exists p'.
        -- apply list_elem_of_singleton in Hp' as ->. done.
Qed.

Lemma reach_step_spec (all : gset (option CFGObject)) nexts r tp :
  (∀ y, y ∈ nexts → Some y ∈ all) →
  let r' := reach_step nexts (r, tp) in
  r'.1 = r ∪ list_to_set (Some <$> nexts)
  ∧ (∀ x, x ∈ r'.2 ↔ x ∈ tp ∨ (x ∈ Some <$> nexts ∧ x ∉ r))
  ∧ length r'.2 + size (all ∖ r'.1) ≤ length tp + size (all ∖ r).
Proof.
  revert r tp. induction nexts as [|y nexts IH]; intros r tp Hall; simpl.
  - split; [set_solver|]. split; [|done]. intros x. rewrite elem_of_nil. tauto.
  - destruct (decide (Some y ∈ r)) as [Hin|Hnin]; simpl.
    + destruct (IH r tp) as (H1 & H2 & H3).
      { intros ? ?. apply Hall. by right. }
      split; [rewrite H1; set_solver|]. split; [|done].
      intros x. rewrite H2, elem_of_cons. split; [tauto|].
      intros [?|[[->|?] ?]]; [tauto|done|tauto].
    + destruct (IH ({[Some y]} ∪ r) (Some y :: tp)) as (H1 & H2 & H3).
      { intros ? ?. apply Hall. by right. }
      split; [rewrite H1; set_solver|]. split.
      * intros x. rewrite H2, !elem_of_cons, elem_of_union, elem_of_singleton.
        destruct (decide (x = Some y)) as [->|Hne]; [|naive_solver].
        split; [|tauto]. intros _. right. split; [by left|done].
      * etrans; [exact H3|]. simpl.
        pose proof (gset_size_difference_insert all r (Some y)
                      (Hall y ltac:(by left)) Hnin). lia.
Qed.

Lemma reach_loop_spec ps start fuel :
  let all : gset (option CFGObject) := list_to_set (Some <$> body_symbols ps) in
  ∀ (r : gset (option CFGObject)) (tp dn : list (option CFGObject)),
    length tp + size (all ∖ r) < fuel →
    (∀ x, x ∈ r ↔ x ∈ dn ∨ x ∈ tp) →
    (∀ x, x ∈ r → reachable ps start x) →
    (∀ x y, Some x ∈ dn →
            y ∈ default [] (reachable_transitions ps !! x) → Some y ∈ r) →
    ∃ r', reach_loop fuel (reachable_transitions ps) (r, tp) = Ok r'
          ∧ r ⊆ r'
          ∧ (∀ x, x ∈ r' → reachable ps start x)
          ∧ (∀ x y, Some x ∈ r' →
                    y ∈ default [] (reachable_transitions ps !! x) →
                    Some y ∈ r').
Proof.
  intros all. induction fuel as [|fuel IH]; intros r tp dn Hfuel Hr Hsound Hclosed;
    [lia|].
  simpl. destruct tp as [|cur rest].
  - exists r. split; [done|]. split; [done|]. split; [done|].
    intros x y Hx. apply Hclosed. apply Hr in Hx as [?|?%elem_of_nil]; done.
  - set (nexts := match cur with
                  | Some c => default [] (reachable_transitions ps !! c)
                  | None => []
                  end).
    assert (∀ y, y ∈ nexts → ∃ c, cur = Some c ∧
              y ∈ default [] (reachable_transitions ps !! c)) as Hnexts.
    { intros y Hy. subst nexts. destruct cur as [c|]; [by exists c|].
      by apply elem_of_nil in Hy. }
    destruct (reach_step_spec all nexts r rest) as (H1 & H2 & H3).
    { intros y Hy. destruct (Hnexts y Hy) as (c & -> & Hc).
      apply reachable_transitions_spec in Hc as (p & Hp & _ & Hy' & _).
      apply elem_of_list_to_set, list_elem_of_fmap. exists y. split; [done|].
      apply elem_of_body_symbols. by exists p. }
    destruct (reach_step nexts (r, rest)) as [r1 tp1] eqn:E. simpl in *.
    destruct (IH r1 tp1 (cur :: dn)) as (r' & Hrun & Hsub & Hs' & Hc').
    + lia.
    + intros x. rewrite H1, H2, elem_of_union, elem_of_list_to_set.
      rewrite elem_of_cons. specialize (Hr x). rewrite elem_of_cons in Hr.
      destruct (decide (x ∈ r)); tauto.
    + intros x. rewrite H1. intros [Hx|Hx]%elem_of_union; [by apply Hsound|].
      apply elem_of_list_to_set, list_elem_of_fmap in Hx as (y & -> & Hy).
      destruct (Hnexts y Hy) as (c & -> & Hc).
      apply reachable_transitions_spec in Hc as (p & Hp & <- & Hy' & Hne).
      apply (reachable_step _ _ p); try done. apply Hsound, Hr. right. by left.
    + intros x y [Heq|Hx]%elem_of_cons Hy; rewrite H1.
      * apply elem_of_union. right.
        apply elem_of_list_to_set, list_elem_of_fmap. exists y.
        split; [done|]. subst nexts. by rewrite <- Heq.
      * apply elem_of_union. left. by eapply Hclosed.
    + exists r'. split; [done|]. split; [|done].
      etrans; [|exact Hsub]. rewrite H1. set_solver.
Qed.

(** [get_reachable_symbols] returns, and returns the reachable symbols. *)
Lemma get_reachable_symbols_spec self :
  ∃ r, get_reachable_symbols self = Ok r
       ∧ ∀ x, x ∈ r ↔ reachable (_productions self) (_start_symbol self) x.
Proof.
  unfold get_reachable_symbols.
  destruct (reach_loop_spec (_productions self) (_start_symbol self)
              (reach_fuel (_productions self))
              {[_start_symbol self]} [_start_symbol self] [])
    as (r & Hrun & Hsub & Hsound & Hclosed).
  - unfold reach_fuel. simpl.
    assert (length (concat (body <$> _productions self))
            = length (body_symbols (_productions self))) as ->.
    { unfold body_symbols. induction (body <$> _productions self) as [|l ls IH];
        [done|]. simpl. by rewrite !length_app, IH. }
    set (all := list_to_set (Some <$> body_symbols (_productions self))
                : gset (option CFGObject)).
    assert (size (all ∖ {[_start_symbol self]}) ≤ size all)
      by (apply subseteq_size; set_solver).
    assert (size all ≤ length (body_symbols (_productions self))); [|lia].
    subst all. clear.
    induction (body_symbols (_productions self)) as [|y l IH].
    + by rewrite fmap_nil, list_to_set_nil, size_empty.
    + rewrite fmap_cons, list_to_set_cons. simpl length.
      rewrite size_union_alt, size_singleton.
      assert (size (list_to_set (Some <$> l) ∖ {[Some y]}
                    : gset (option CFGObject))
              ≤ size (list_to_set (Some <$> l) : gset (option CFGObject)))
        by (apply subseteq_size; set_solver).
      lia.
  - intros x. rewrite elem_of_singleton, list_elem_of_singleton, elem_of_nil.
    tauto.
  - intros x ->%elem_of_singleton. constructor.
  - intros x y Hx. by apply elem_of_nil in Hx.
  - exists r. split; [done|]. intros x. split; [apply Hsound|].
    induction 1 as [|p y Hreach IH Hp Hy Hne].
    + apply Hsub. set_solver.
    + apply (Hclosed (head p)); [done|].
      apply reachable_transitions_spec. by exists p.
Qed.

(** ** Unit pairs *)

Lemma size_list_to_set_le `{Countable A} (l : list A) :
  size (list_to_set l : gset A) ≤ length l.
Proof.
  induction l as [|y l IH]; [by rewrite list_to_set_nil, size_empty|].
  rewrite list_to_set_cons. simpl length.
  rewrite size_union_alt, size_singleton.
  assert (size ((list_to_set l : gset A) ∖ {[y]}) ≤ size (list_to_set l : gset A))
    by (apply subseteq_size; set_solver).
  lia.
Qed.

Lemma get_productions_d_snoc ps p :
  get_productions_d (ps ++ [p])
  = <[head p := default [] (get_productions_d ps !! head p) ++ [p]]>
      (get_productions_d ps).
Proof. unfold get_productions_d. by rewrite foldl_app. Qed.

Lemma get_productions_d_spec ps h p :
  p ∈ default [] (get_productions_d ps !! h) ↔ p ∈ ps ∧ head p = h.
Proof.
  induction ps as [|q ps IH] using rev_ind.
  - unfold get_productions_d. simpl. rewrite lookup_empty. simpl.
    rewrite elem_of_nil. tauto.
  - rewrite get_productions_d_snoc, elem_of_app, list_elem_of_singleton.
    destruct (decide (head q = h)) as [<-|Hne].
    + rewrite lookup_insert_eq. simpl.
      rewrite elem_of_app, list_elem_of_singleton, IH. split.
      * intros [[? ?]| ->]; split; auto.
      * intros [[?| ->] ?]; auto.
    + rewrite lookup_insert_ne by done. rewrite IH. split.
      * intros [? ?]. split; auto.
      * intros [[?| ->] ?]; [done|]. by destruct Hne.
Qed.

Lemma is_unit_spec p : is_unit p = true ↔ ∃ c, body p = [c] ∧ is_Variable c = true.
Proof.
  unfold is_unit. destruct (body p) as [|c [|c' l]].
  - split; [done|]. by intros (c & ? & _).
  - split; [by exists c|]. by intros (c' & [= <-] & ?).
  - split; [done|]. by intros (c0 & ? & _).
Qed.

Lemma unit_step_spec (U : gset (CFGObject * CFGObject)) a prods up tp :
  (∀ p, p ∈ prods → ∃ c, body p = [c] ∧ (a, c) ∈ U) →
  ∃ up' tp',
    unit_step a prods (up, tp) = Ok (up', tp')
    ∧ (∀ pr, pr ∈ up' ↔ pr ∈ up ∨ ∃ p c, p ∈ prods ∧ body p = [c] ∧ pr = (a, c))
    ∧ (∀ pr, pr ∈ tp' ↔ pr ∈ tp ∨ (pr ∈ up' ∧ pr ∉ up))
    ∧ length tp' + size (U ∖ up') ≤ length tp + size (U ∖ up).
Proof.
  revert up tp. induction prods as [|p prods IH]; intros up tp Hp.
  - exists up, tp. split; [done|]. split.
    + intros pr. split; [by left|]. intros [?|(p & c & ?%elem_of_nil & _)]; done.
    + split; [|done]. intros pr. tauto.
  - destruct (Hp p) as (c & Hc & HU); [by left|].
    simpl. rewrite Hc. simpl.
    destruct (decide ((a, c) ∈ up)) as [Hin|Hnin].
    + destruct (IH up tp) as (up' & tp' & H1 & H2 & H3 & H4).
      { intros q Hq. apply Hp. by right. }
      exists up', tp'. split; [done|]. split; [|done].
      intros pr. rewrite H2. split.
      * intros [?|(q & c' & Hq & ? & ?)]; [by left|].
        right. exists q, c'. split; [by right|done].
      * intros [?|(q & c' & [->|Hq]%elem_of_cons & Hb & ->)]; [by left| |].
        -- left. rewrite Hc in Hb. by injection Hb as <-.
        -- right. by exists q, c'.
    + destruct (IH ({[(a, c)]} ∪ up) ((a, c) :: tp))
        as (up' & tp' & H1 & H2 & H3 & H4).
      { intros q Hq. apply Hp. by right. }
      exists up', tp'. split; [done|]. split; [|split].
      * intros pr. rewrite H2, elem_of_union, elem_of_singleton. split.
        -- intros [[->|?]|(q & c' & Hq & ? & ?)]; [|by left|].
           ++ right. exists p, c. split; [by left|done].
           ++ right. exists q, c'. split; [by right|done].
        -- intros [?|(q & c' & [->|Hq]%elem_of_cons & Hb & ->)];
             [left; by right| |].
           ++ left. left. rewrite Hc in Hb. by injection Hb as <-.
           ++ right. by exists q, c'.
      * intros pr. rewrite H3, elem_of_cons, elem_of_union, elem_of_singleton.
        assert ((a, c) ∈ up') as Hin'.
        { apply H2. left. apply elem_of_union. left. by apply elem_of_singleton. }
        destruct (decide (pr = (a, c))) as [->|Hne]; [tauto|]. tauto.
      * etrans; [exact H4|]. simpl.
        pose proof (gset_size_difference_insert U up (a, c) HU Hnin). lia.
Qed.

Lemma unit_pair_first ps vs pr : unit_pair ps vs pr → pr.1 ∈ vs.
Proof. induction 1; done. Qed.

Lemma elem_of_unit_universe ps vs a c :
  (a, c) ∈ unit_universe ps vs
  ↔ a ∈ vs ∧ ∃ p, p ∈ ps ∧ body p = [c].
Proof.
  unfold unit_universe. rewrite list_elem_of_bind. split.
  - intros (a' & Hin & Ha'%elem_of_elements).
    apply list_elem_of_bind in Hin as (p & Hin & Hp).
    destruct (body p) as [|c' [|? ?]] eqn:E; try by apply elem_of_nil in Hin.
    apply list_elem_of_singleton in Hin. injection Hin as -> ->.
    split; [done|]. by exists p.
  - intros (Ha & p & Hp & Hb). exists a. split; [|by apply elem_of_elements].
    apply list_elem_of_bind. exists p. split; [|done]. rewrite Hb.
    by apply list_elem_of_singleton.
Qed.

Lemma length_unit_universe ps vs :
  length (unit_universe ps vs) ≤ size vs * length ps.
Proof.
  unfold unit_universe, size, set_size. simpl.
  induction (elements vs) as [|a l IH]; [done|].
  rewrite bind_cons, length_app. simpl.
  assert (length (ps ≫= λ p, match body p with
                             | [c] => [(a, c)]
                             | _ => []
                             end) ≤ length ps); [|lia].
  clear. induction ps as [|p ps IH]; [done|].
  rewrite bind_cons, length_app. simpl.
  destruct (body p) as [|c [|? ?]]; simpl; lia.
Qed.

Lemma unit_loop_spec ps vs fuel :
  let U : gset (CFGObject * CFGObject) := list_to_set (unit_universe ps vs) in
  let d := get_productions_d (filter (λ x, is_unit x = true) ps) in
  ∀ (up : gset (CFGObject * CFGObject)) (tp dn : list (CFGObject * CFGObject)),
    length tp + size (U ∖ up) < fuel →
    (∀ pr, pr ∈ up ↔ pr ∈ dn ∨ pr ∈ tp) →
    (∀ pr, pr ∈ up → unit_pair ps vs pr) →
    (∀ pr p c, pr ∈ dn → p ∈ ps → head p = pr.2 → body p = [c] →
               is_Variable c = true → (pr.1, c) ∈ up) →
    ∃ up', unit_loop fuel d (up, tp) = Ok up'
           ∧ up ⊆ up'
           ∧ (∀ pr, pr ∈ up' → unit_pair ps vs pr)
           ∧ (∀ pr p c, pr ∈ up' → p ∈ ps → head p = pr.2 → body p = [c] →
                        is_Variable c = true → (pr.1, c) ∈ up').
Proof.
  intros U d. induction fuel as [|fuel IH];
    intros up tp dn Hfuel Hup Hsound Hclosed; [lia|].
  simpl. destruct tp as [|[a b] rest].
  - exists up. split; [done|]. split; [done|]. split; [done|].
    intros pr p c Hpr. apply Hclosed.
    apply Hup in Hpr as [?|?%elem_of_nil]; done.
  - assert (unit_pair ps vs (a, b)) as Hab.
    { apply Hsound, Hup. right. by left. }
    assert (∀ p, p ∈ default [] (d !! b) ↔
                 p ∈ ps ∧ head p = b ∧ ∃ c, body p = [c] ∧ is_Variable c = true)
      as Hd.
    { intros p. subst d. rewrite get_productions_d_spec, list_elem_of_filter.
      rewrite is_unit_spec. tauto. }
    destruct (unit_step_spec U a (default [] (d !! b)) up rest)
      as (up1 & tp1 & H1 & H2 & H3 & H4).
    { intros p (Hp & Hh & c & Hc & Hv)%Hd. exists c. split; [done|].
      apply elem_of_list_to_set, elem_of_unit_universe.
      split; [apply (unit_pair_first _ _ _ Hab)|by exists p]. }
    rewrite H1. cbn [mbind result_bind].
    destruct (IH up1 tp1 ((a, b) :: dn)) as (up' & Hrun & Hsub & Hs' & Hc').
    + simpl in Hfuel. lia.
    + intros pr. rewrite H3, elem_of_cons. specialize (Hup pr).
      rewrite elem_of_cons in Hup.
      assert (pr ∈ up → pr ∈ up1) by (intros ?; apply H2; by left).
      destruct (decide (pr ∈ up)); destruct (decide (pr ∈ up1)); tauto.
    + intros pr [?|(p & c & (Hp & Hh & c' & Hc & Hv)%Hd & Hb & ->)]%H2;
        [by apply Hsound|].
      rewrite Hc in Hb. injection Hb as <-. subst b.
      by apply (unit_pair_step _ _ a p c').
    + intros pr p c [->|Hpr]%elem_of_cons Hp Hh Hb Hv; apply H2.
      * right. exists p, c. split; [|done]. apply Hd. simpl in Hh.
        split; [done|]. split; [done|]. by exists c.
      * left. by apply (Hclosed pr p c).
    + exists up'. split; [done|]. split; [|done].
      etrans; [|exact Hsub]. intros pr Hpr. apply H2. by left.
Qed.

(** [get_unit_pairs] returns, and returns the unit pairs. *)
Lemma get_unit_pairs_spec self :
  ∃ up, get_unit_pairs self = Ok up
        ∧ ∀ pr, pr ∈ up ↔ unit_pair (_productions self) (_variables self) pr.
Proof.
  unfold get_unit_pairs.
  set (up0 := set_map (λ variable, (variable, variable)) (_variables self)
              : gset (CFGObject * CFGObject)).
  destruct (unit_loop_spec (_productions self) (_variables self)
              (unit_fuel self) up0 (reverse (elements up0)) [])
    as (up & Hrun & Hsub & Hsound & Hclosed).
  - unfold unit_fuel. rewrite length_reverse.
    set (U := list_to_set (unit_universe (_productions self) (_variables self))
              : gset (CFGObject * CFGObject)).
    assert (size (U ∖ up0) ≤ size U) by (apply subseteq_size; set_solver).
    pose proof (size_list_to_set_le
                  (unit_universe (_productions self) (_variables self))).
    pose proof (length_unit_universe (_productions self) (_variables self)).
    assert (length (elements up0) ≤ size (_variables self)); [|fold U in H0; lia].
    change (size up0 ≤ size (_variables self)). subst up0.
    unfold set_map. etrans; [apply size_list_to_set_le|].
    by rewrite length_fmap.
  - intros pr. rewrite elem_of_reverse, elem_of_elements, elem_of_nil. tauto.
  - intros pr (v & -> & Hv)%elem_of_map. by constructor.
  - intros pr p c Hpr. by apply elem_of_nil in Hpr.
  - exists up. split; [done|]. intros pr. split; [apply Hsound|].
    induction 1 as [v Hv|a p c Hpair IH Hp Hb Hc].
    + apply Hsub, elem_of_map. by exists v.
    + by apply (Hclosed (a, head p) p c).
Qed.

(** * Proofs: well-formed grammars and their analyses *)

Lemma to_variable_not_Terminal x : is_Terminal (to_variable x) = false.
Proof. by destruct x. Qed.

Lemma to_variable_is_Variable x : is_Variable (to_variable x) = true.
Proof. by destruct x. Qed.

Lemma to_terminal_is_Terminal x : is_Terminal (to_terminal x) = true.
Proof. by destruct x. Qed.

Lemma CFG_init_wf vs ts s ps : wf_core (CFG_init vs ts s ps).
Proof.
  unfold wf_core, symbols_sorted.
  rewrite CFG_init_terminals, CFG_init_variables, CFG_init_productions,
    CFG_init_start_symbol.
  split; [split|split; [|split]].
  - intros x [Hx|Hx]%elem_of_union.
    + destruct ts as [ts|]; [|set_solver].
      apply elem_of_map in Hx as (y & -> & _). apply to_terminal_is_Terminal.
    + by apply elem_of_list_to_set, list_elem_of_filter in Hx as [? _].
  - intros x [[[Hx|Hx]%elem_of_union|Hx]%elem_of_union|Hx]%elem_of_union.
    + destruct s as [s|]; simpl in Hx; [|set_solver].
      apply elem_of_singleton in Hx as ->. apply to_variable_not_Terminal.
    + destruct vs as [vs|]; [|set_solver].
      apply elem_of_map in Hx as (y & -> & _). apply to_variable_not_Terminal.
    + by apply elem_of_list_to_set, list_elem_of_fmap in Hx as (p & -> & _).
    + by apply elem_of_list_to_set, list_elem_of_filter in Hx as [? _].
  - intros p Hp. apply elem_of_union. left. apply elem_of_union. right.
    apply elem_of_list_to_set, list_elem_of_fmap. by exists p.
  - intros y Hy. destruct (is_Terminal y) eqn:E.
    + apply elem_of_union. right.
      by apply elem_of_list_to_set, list_elem_of_filter.
    + apply elem_of_union. right.
      by apply elem_of_list_to_set, list_elem_of_filter.
  - intros s' Hs. destruct s as [s|]; [|done]. simpl in Hs.
    injection Hs as <-. split; [set_solver|apply to_variable_is_Variable].
Qed.

Lemma CFG_init_cache_ok vs ts s ps : cache_ok (CFG_init vs ts s ps).
Proof. split; [by left|]. split; intros g; by simpl. Qed.

Lemma wf_core_same a b : same_core a b → wf_core a → wf_core b.
Proof.
  intros (Hv & Ht & Hs & Hp). unfold wf_core, symbols_sorted.
  by rewrite Hv, Ht, Hs, Hp.
Qed.

Lemma same_core_refl a : same_core a a.
Proof. by repeat split. Qed.

Lemma same_core_trans a b c : same_core a b → same_core b c → same_core a c.
Proof.
  intros (H1 & H2 & H3 & H4) (H1' & H2' & H3' & H4').
  repeat split; congruence.
Qed.

Lemma same_core_setup self :
  same_core self (_set_impacts_and_remaining_lists self).
Proof.
  unfold _set_impacts_and_remaining_lists.
  destruct (_impacts self); by repeat split.
Qed.

Lemma nullable_set_same a b g : same_core a b → nullable_set a g → nullable_set b g.
Proof. intros (_ & _ & _ & Hp). unfold nullable_set. by rewrite Hp. Qed.

Lemma generating_set_same a b g :
  same_core a b → generating_set a g → generating_set b g.
Proof. intros (_ & Ht & _ & Hp). unfold generating_set. by rewrite Ht, Hp. Qed.

Lemma get_nullable_symbols_ok self :
  wf_core self → cache_ok self →
  ∃ g self',
    get_nullable_symbols self = Ok (g, self')
    ∧ nullable_set self g
    ∧ same_core self self'
    ∧ cache_ok self'
    ∧ _nullable_symbols self' = Some g
    ∧ _generating_symbols self' = _generating_symbols self.
Proof.
  intros [[Hter _] _] (Hb & Hg & Hn). unfold get_nullable_symbols.
  destruct (_nullable_symbols self) as [g|] eqn:E.
  - exists g, self. split; [done|]. split; [by apply Hn|].
    split; [apply same_core_refl|]. split; [|done]. split; [done|].
    split; [done|]. by rewrite E.
  - destruct (get_generating_or_nullable_closure true self Hb Hter)
      as (g & Hrun & Hspec).
    rewrite Hrun. cbn [mbind result_bind fst snd].
    exists g, (set_nullable_symbols (_set_impacts_and_remaining_lists self) g).
    pose proof (same_core_setup self) as Hsame.
    assert (same_core self
              (set_nullable_symbols (_set_impacts_and_remaining_lists self) g))
      as Hsame' by (destruct Hsame as (? & ? & ? & ?); by repeat split).
    split; [done|]. split; [done|]. split; [done|]. split; [|split; [done|]].
    + split; [by apply tables_built_set_nullable, tables_built_setup|].
      split; simpl.
      * intros g'. unfold _set_impacts_and_remaining_lists.
        destruct (_impacts self); simpl; intros Hg'.
        -- apply (generating_set_same self); [done|]. by apply Hg.
        -- apply (generating_set_same self); [done|]. by apply Hg.
      * intros g' [= <-]. by apply (nullable_set_same self).
    + simpl. unfold _set_impacts_and_remaining_lists.
      by destruct (_impacts self).
Qed.

Lemma get_generating_symbols_ok self :
  wf_core self → cache_ok self →
  ∃ g self',
    get_generating_symbols self = Ok (g, self')
    ∧ generating_set self g
    ∧ same_core self self'
    ∧ cache_ok self'
    ∧ _generating_symbols self' = Some g
    ∧ _nullable_symbols self' = _nullable_symbols self.
Proof.
  intros [[Hter _] _] (Hb & Hg & Hn). unfold get_generating_symbols.
  destruct (_generating_symbols self) as [g|] eqn:E.
  - exists g, self. split; [done|]. split; [by apply Hg|].
    split; [apply same_core_refl|]. split; [|done]. split; [done|].
    split; [by rewrite E|done].
  - destruct (get_generating_or_nullable_closure false self Hb Hter)
      as (g & Hrun & Hspec).
    rewrite Hrun. cbn [mbind result_bind fst snd].
    exists g, (set_generating_symbols (_set_impacts_and_remaining_lists self) g).
    pose proof (same_core_setup self) as Hsame.
    assert (same_core self
              (set_generating_symbols (_set_impacts_and_remaining_lists self) g))
      as Hsame' by (destruct Hsame as (? & ? & ? & ?); by repeat split).
    split; [done|]. split; [done|]. split; [done|]. split; [|split; [done|]].
    + split; [by apply tables_built_set_generating, tables_built_setup|].
      split; simpl.
      * intros g' [= <-]. by apply (generating_set_same self).
      * intros g'. unfold _set_impacts_and_remaining_lists.
        destruct (_impacts self); simpl; intros Hg'.
        -- apply (nullable_set_same self); [done|]. by apply Hn.
        -- apply (nullable_set_same self); [done|]. by apply Hn.
    + simpl. unfold _set_impacts_and_remaining_lists.
      by destruct (_impacts self).
Qed.

(** * Further properties: the analyses *)

(** X1: on an instance whose tables are not set yet or are the tables of its
    productions, whose terminals are terminals and whose cache of generating
    symbols is empty, [get_generating_symbols] returns; the set it returns is
    the least set that holds the terminals of the grammar and the head of
    every production whose body symbols are all in it (epsilon apart, which
    is a seed of the working set and is taken out at the end); the set is
    left in the cache, and the grammar is not changed. *)
Theorem generating_symbols_least_fixed_point (self : CFG) :
  tables_built self →
  (∀ x, x ∈ _terminals self → is_Terminal x = true) →
  _generating_symbols self = None →
  ∃ g self',
    get_generating_symbols self = Ok (g, self')
    ∧ (∀ x, x ∈ g ↔ x ≠ Epsilon
                    ∧ closure ({[Epsilon]} ∪ _terminals self)
                              (_productions self) x)
    ∧ _generating_symbols self' = Some g
    ∧ same_core self self'.
Proof.
  intros Hb Hter Hc. unfold get_generating_symbols. rewrite Hc.
  destruct (get_generating_or_nullable_closure false self Hb Hter)
    as (g & Hrun & Hspec).
  rewrite Hrun. cbn [mbind result_bind fst snd].
  exists g, (set_generating_symbols (_set_impacts_and_remaining_lists self) g).
  split; [done|]. split; [done|]. split; [done|].
  destruct (same_core_setup self) as (? & ? & ? & ?). by repeat split.
Qed.

Lemma generating_symbols_least_fixed_point_witness :
  ∃ g self',
    get_generating_symbols cfg_ab = Ok (g, self')
    ∧ (∀ x, x ∈ g ↔ x ≠ Epsilon
                    ∧ closure ({[Epsilon]} ∪ _terminals cfg_ab)
                              (_productions cfg_ab) x)
    ∧ _generating_symbols self' = Some g
    ∧ same_core cfg_ab self'.
Proof.
  apply (generating_symbols_least_fixed_point cfg_ab).
  - by left.
  - exact (proj1 (proj1 (CFG_init_wf _ _ _ _))).
  - reflexivity.
Defined.

(** X2: under the same conditions, with an empty cache of nullable symbols,
    [get_nullable_symbols] returns the least set that holds the head of every
    production whose body symbols are all in it or are epsilon: the heads of
    the empty productions are its only seeds. *)
Theorem nullable_symbols_least_fixed_point (self : CFG) :
  tables_built self →
  (∀ x, x ∈ _terminals self → is_Terminal x = true) →
  _nullable_symbols self = None →
  ∃ g self',
    get_nullable_symbols self = Ok (g, self')
    ∧ (∀ x, x ∈ g ↔ x ≠ Epsilon
                    ∧ closure {[Epsilon]} (_productions self) x)
    ∧ _nullable_symbols self' = Some g
    ∧ same_core self self'.
Proof.
  intros Hb Hter Hc. unfold get_nullable_symbols. rewrite Hc.
  destruct (get_generating_or_nullable_closure true self Hb Hter)
    as (g & Hrun & Hspec).
  rewrite Hrun. cbn [mbind result_bind fst snd].
  exists g, (set_nullable_symbols (_set_impacts_and_remaining_lists self) g).
  split; [done|]. split; [done|]. split; [done|].
  destruct (same_core_setup self) as (? & ? & ? & ?). by repeat split.
Qed.

Lemma nullable_symbols_least_fixed_point_witness :
  ∃ g self',
    get_nullable_symbols cfg_ab = Ok (g, self')
    ∧ (∀ x, x ∈ g ↔ x ≠ Epsilon
                    ∧ closure {[Epsilon]} (_productions cfg_ab) x)
    ∧ _nullable_symbols self' = Some g
    ∧ same_core cfg_ab self'.
Proof.
  apply (nullable_symbols_least_fixed_point cfg_ab).
  - by left.
  - exact (proj1 (proj1 (CFG_init_wf _ _ _ _))).
  - reflexivity.
Defined.

(** X3: [get_reachable_symbols] returns for every grammar, and what it
    returns is the start symbol (also when there is none) together with the
    symbols that a chain of productions reaches from it, a step going from
    the head of a production to a symbol of its body that is not epsilon.
    Nothing else is in the set. *)
Theorem reachable_symbols_exact (self : CFG) :
  ∃ r, get_reachable_symbols self = Ok r
       ∧ _start_symbol self ∈ r
       ∧ (∀ x, x ∈ r ↔ reachable (_productions self) (_start_symbol self) x)
       ∧ (∀ y, Some y ∈ r →
               Some y = _start_symbol self
               ∨ y ≠ Epsilon ∧ y ∈ body_symbols (_productions self)).
Proof.
  destruct (get_reachable_symbols_spec self) as (r & Hrun & Hspec).
  exists r. split; [done|]. split; [apply Hspec; constructor|].
  split; [done|]. intros y Hy. apply Hspec in Hy.
  inversion Hy as [Hs|p y' Hh Hp Hin Hne]; [by left|subst; right].
  split; [done|]. apply elem_of_body_symbols. by exists p.
Qed.

(** X4: [get_unit_pairs] returns for every grammar, and the pairs it returns
    are the pairs (A, A) for the variables A of the grammar and the pairs
    (A, C) such that unit productions lead from A to C. *)
Theorem unit_pairs_exact (self : CFG) :
  ∃ up, get_unit_pairs self = Ok up
        ∧ (∀ v, v ∈ _variables self → (v, v) ∈ up)
        ∧ (∀ pr, pr ∈ up
                 ↔ unit_pair (_productions self) (_variables self) pr)
        ∧ (∀ a b, (a, b) ∈ up → a ∈ _variables self).
Proof.
  destruct (get_unit_pairs_spec self) as (up & Hrun & Hspec).
  exists up. split; [done|].
  split; [intros v Hv; apply Hspec; by constructor|]. split; [done|].
  intros a b Hab. apply Hspec in Hab.
  by apply unit_pair_first in Hab.
Qed.

(** X5: on an instance without tables, [_set_impacts_and_remaining_lists]
    sets the three tables.  Each production with a body that is not empty
    owns one counter, whose value is the length of the body; the impacts of
    a symbol list that counter once for each occurrence of the symbol in the
    body; the heads of the empty productions, and they only, are the added
    impacts.  A second call changes nothing. *)
Theorem set_impacts_and_remaining_lists_tables (self : CFG) :
  _impacts self = None →
  let self' := _set_impacts_and_remaining_lists self in
  ∃ t slots,
    _impacts self' = Some (t_impacts t)
    ∧ _remaining_lists self' = Some (t_remaining t)
    ∧ _added_impacts self' = Some (t_added t)
    ∧ tables_ok (_productions self) t slots
    ∧ same_core self self'
    ∧ _set_impacts_and_remaining_lists self' = self'.
Proof.
  intros Hn self'.
  assert (tables_built self) as Hb by by left.
  destruct (setup_tables_built self Hb) as (H1 & H2 & H3 & _).
  exists (build_tables (_productions self)), (build_slots (_productions self)).2.
  split; [done|]. split; [done|]. split; [done|].
  split; [apply build_tables_ok|]. split; [apply same_core_setup|].
  by apply setup_idempotent.
Qed.

Lemma set_impacts_and_remaining_lists_tables_witness :
  ∃ t slots,
    _impacts (_set_impacts_and_remaining_lists cfg_ab) = Some (t_impacts t)
    ∧ _remaining_lists (_set_impacts_and_remaining_lists cfg_ab)
      = Some (t_remaining t)
    ∧ _added_impacts (_set_impacts_and_remaining_lists cfg_ab)
      = Some (t_added t)
    ∧ tables_ok (_productions cfg_ab) t slots
    ∧ same_core cfg_ab (_set_impacts_and_remaining_lists cfg_ab)
    ∧ _set_impacts_and_remaining_lists (_set_impacts_and_remaining_lists cfg_ab)
      = _set_impacts_and_remaining_lists cfg_ab.
Proof.
  apply (set_impacts_and_remaining_lists_tables cfg_ab). reflexivity.
Defined.

(** X6: the constructor closes the two symbol sets under the symbols of the
    productions it is given: the head of every production is a variable of
    the grammar, a terminal of a body is a terminal of the grammar and any
    other body symbol is a variable of the grammar; the start symbol is a
    variable of the grammar; the set of terminals holds terminals only and
    the set of variables holds none, so the two sets are disjoint; the
    productions are kept as they are and every cache is empty. *)
Theorem init_closes_symbol_sets
    (vs ts : option (gset CFGObject)) (s : option CFGObject)
    (ps : option (list Production)) :
  let G := CFG_init vs ts s ps in
  (∀ p, p ∈ default [] ps → head p ∈ _variables G)
  ∧ (∀ p y, p ∈ default [] ps → y ∈ body p →
            if is_Terminal y then y ∈ _terminals G else y ∈ _variables G)
  ∧ (∀ x, s = Some x → _start_symbol G = Some (to_variable x)
                       ∧ to_variable x ∈ _variables G)
  ∧ (∀ x, x ∈ _terminals G → is_Terminal x = true)
  ∧ (∀ x, x ∈ _variables G → is_Terminal x = false)
  ∧ _variables G ## _terminals G
  ∧ _productions G = default [] ps
  ∧ _generating_symbols G = None ∧ _nullable_symbols G = None
  ∧ _impacts G = None.
Proof.
  intros G. destruct (CFG_init_wf vs ts s ps) as ([Ht Hv] & Hh & Hb & Hs).
  fold G in Ht, Hv, Hh, Hb, Hs.
  split; [done|]. split.
  { intros p y Hp Hy. apply Hb. apply elem_of_body_symbols. by exists p. }
  split.
  { intros x ->. split; [done|]. by apply (Hs (to_variable x)). }
  split; [done|]. split; [done|]. split; [|done].
  intros x Hx1 Hx2. apply Hv in Hx1. apply Ht in Hx2. congruence.
Qed.

(** * Further properties: fresh variables *)

Lemma next_free_loop_spec (V : gset CFGObject) (prefix : string) :
  ∀ fuel idx (W : gset CFGObject),
    W ⊆ V →
    (∀ j, idx ≤ j → Var (prefix +:+ pretty j) ∉ W) →
    size V < fuel + size W →
    ∃ i, next_free_loop fuel V idx prefix = Ok (i, prefix +:+ pretty i)
         ∧ idx ≤ i ∧ i < idx + fuel
         ∧ Var (prefix +:+ pretty i) ∉ V
         ∧ ∀ j, idx ≤ j < i → Var (prefix +:+ pretty j) ∈ V.
Proof.
  induction fuel as [|fuel IH]; intros idx W HW Hfresh Hsize.
  - apply subseteq_size in HW. lia.
  - simpl. destruct (decide (Var (prefix +:+ pretty idx) ∈ V)) as [Hin|Hout].
    + destruct (IH (idx + 1) ({[Var (prefix +:+ pretty idx)]} ∪ W))
        as (i & Hrun & Hle & Hlt & Hi & Hbelow).
      * set_solver.
      * intros j Hj [Hs|Hw]%elem_of_union; [|by apply (Hfresh j); [lia|]].
        apply elem_of_singleton in Hs. injection Hs as Hs.
        apply (inj (String.app prefix)), (inj pretty) in Hs. lia.
      * pose proof (size_union (C:=gset CFGObject)
                      {[Var (prefix +:+ pretty idx)]} W) as Hu.
        rewrite Hu, size_singleton; [lia|].
        intros x ->%elem_of_singleton. by apply (Hfresh idx).
      * exists i. split; [done|]. split; [lia|]. split; [lia|].
        split; [done|]. intros j Hj.
        destruct (decide (j = idx)) as [->|Hne]; [done|]. apply Hbelow. lia.
    + exists idx. split; [done|]. split; [done|]. split; [lia|].
      split; [done|]. intros j Hj. lia.
Qed.

Lemma get_next_free_variable_spec self idx prefix :
  ∃ i, _get_next_free_variable self idx prefix
       = Ok (i, prefix +:+ pretty i)
       ∧ idx < i ∧ i ≤ idx + 1 + size (_variables self)
       ∧ Var (prefix +:+ pretty i) ∉ _variables self
       ∧ ∀ j, idx < j < i → Var (prefix +:+ pretty j) ∈ _variables self.
Proof.
  unfold _get_next_free_variable.
  destruct (next_free_loop_spec (_variables self) prefix
              (S (size (_variables self))) (idx + 1) ∅)
    as (i & Hrun & Hle & Hlt & Hi & Hbelow).
  - set_solver.
  - set_solver.
  - rewrite size_empty. lia.
  - exists i. split; [done|]. split; [lia|]. split; [lia|].
    split; [done|]. intros j Hj. apply Hbelow. lia.
Qed.

(** X7: [_get_next_free_variable] returns for every grammar, index and
    prefix: the loop stops after at most as many rounds as the grammar has
    variables.  The index it returns is greater than the index it was given,
    the name is the prefix followed by that index, the variable of that name
    is not a variable of the grammar, and every index that was passed over
    names a variable of the grammar. *)
Theorem next_free_variable_is_free (self : CFG) (idx : nat) (prefix : string) :
  ∃ i, _get_next_free_variable self idx prefix
       = Ok (i, prefix +:+ pretty i)
       ∧ idx < i ∧ i ≤ idx + 1 + size (_variables self)
       ∧ Var (prefix +:+ pretty i) ∉ _variables self
       ∧ ∀ j, idx < j < i → Var (prefix +:+ pretty j) ∈ _variables self.
Proof. apply get_next_free_variable_spec. Qed.

(** * Further properties: unit productions *)

Lemma foldl_snoc_fmap {A B} (f : A → B) (l : list A) (acc : list B) :
  foldl (λ acc x, acc ++ [f x]) acc l = acc ++ (f <$> l).
Proof.
  revert acc. induction l as [|x l IH]; intros acc; simpl.
  - by rewrite app_nil_r.
  - by rewrite IH, <- app_assoc.
Qed.

Lemma add_unit_productions_spec d pairs base :
  add_unit_productions d pairs base
  = base ++ (pairs ≫= λ pair,
               (λ production, Production_init (value_of pair.1)
                                              (body production) false)
               <$> default [] (d !! pair.2)).
Proof.
  unfold add_unit_productions. revert base.
  induction pairs as [|pair pairs IH]; intros base; simpl.
  - by rewrite app_nil_r.
  - rewrite IH, foldl_snoc_fmap. by rewrite <- app_assoc.
Qed.

Lemma eliminate_unit_productions_spec self :
  ∃ g, eliminate_unit_productions self = Ok g
       ∧ _start_symbol g = to_variable <$> _start_symbol self
       ∧ ∀ p, p ∈ _productions g
              ↔ (p ∈ _productions self ∧ is_unit p = false)
                ∨ ∃ a q, unit_pair (_productions self) (_variables self)
                                   (a, head q)
                         ∧ q ∈ _productions self ∧ is_unit q = false
                         ∧ p = mkProduction (value_of a) (body q).
Proof.
  unfold eliminate_unit_productions.
  destruct (get_unit_pairs_spec self) as (up & -> & Hup).
  cbn [mbind result_bind]. eexists. split; [done|]. split; [done|].
  intros p. rewrite CFG_init_productions. simpl.
  rewrite add_unit_productions_spec, elem_of_app, list_elem_of_filter.
  rewrite list_elem_of_bind. split.
  - intros [[? ?]|([a b] & Hp & Hpair)]; [left; by split|right].
    apply list_elem_of_fmap in Hp as (q & -> & Hq). simpl in *.
    apply get_productions_d_spec in Hq as [Hq <-].
    apply list_elem_of_filter in Hq as [Hu Hq].
    apply elem_of_elements, Hup in Hpair. by exists a, q.
  - intros [[? ?]|(a & q & Hpair & Hq & Hu & ->)]; [left; by split|right].
    exists (a, head q). split; [|by apply elem_of_elements, Hup].
    apply list_elem_of_fmap. exists q. split; [done|]. simpl.
    apply get_productions_d_spec. split; [|done].
    by apply list_elem_of_filter.
Qed.

(** X8: [eliminate_unit_productions] returns for every grammar.  The
    productions of the grammar it builds are the productions of the grammar
    that are not unit productions, and, for every unit pair (A, B) and every
    production B → body that is not a unit production, the production
    A → body.  None of them is a unit production. *)
Theorem eliminate_unit_productions_exact (self : CFG) :
  ∃ g, eliminate_unit_productions self = Ok g
       ∧ (∀ p, p ∈ _productions g
               ↔ (p ∈ _productions self ∧ is_unit p = false)
                 ∨ ∃ a q, unit_pair (_productions self) (_variables self)
                                    (a, head q)
                          ∧ q ∈ _productions self ∧ is_unit q = false
                          ∧ p = mkProduction (value_of a) (body q))
       ∧ (∀ p, p ∈ _productions g → is_unit p = false).
Proof.
  destruct (eliminate_unit_productions_spec self) as (g & Hrun & _ & Hspec).
  exists g. split; [done|]. split; [done|].
  intros p [[_ Hp]|(a & q & _ & _ & Hu & ->)]%Hspec; [done|].
  by unfold is_unit in *.
Qed.

(** * Proofs: the tests of [to_normal_form] *)

Lemma size_set_map_inj `{Countable A, Countable B} (f : A → B)
    `{!Inj (=) (=) f} (X : gset A) :
  size (set_map f X : gset B) = size X.
Proof.
  unfold set_map. rewrite size_list_to_set.
  - by rewrite length_fmap.
  - apply NoDup_fmap_2; [done|apply NoDup_elements].
Qed.

Lemma gset_size_eq_subseteq `{Countable A} (X Y : gset A) :
  X ⊆ Y → size Y = size X → X = Y.
Proof.
  intros Hsub Hsize. apply set_eq. intros x.
  apply (set_subseteq_size_equiv (C:=gset A) X Y); [done|lia].
Qed.

Lemma generating_set_subseteq self g :
  wf_core self → generating_set self g →
  g ⊆ _variables self ∪ _terminals self.
Proof.
  intros (_ & Hh & _) Hg x [Hne Hx]%Hg.
  inversion Hx as [x' Hs|p Hp Hb]; subst.
  - apply elem_of_union in Hs as [Hs|Hs]; [|set_solver].
    by apply elem_of_singleton in Hs.
  - apply elem_of_union. left. by apply Hh.
Qed.

Lemma size_variables_terminals self :
  wf_core self →
  size (_variables self ∪ _terminals self)
  = size (_variables self) + size (_terminals self).
Proof.
  intros ([Ht Hv] & _).
  apply (size_union (C:=gset CFGObject)).
  intros x Hx1 Hx2. apply Hv in Hx1. apply Ht in Hx2. congruence.
Qed.

Lemma reachable_None ps x : reachable ps None x → x = None.
Proof. induction 1 as [|p y _ IH]; [done|discriminate]. Qed.

Lemma reachable_set_subseteq self r s :
  wf_core self → reachable_set self r → _start_symbol self = Some s →
  r ⊆ set_map Some (_variables self ∪ _terminals self).
Proof.
  intros (_ & _ & Hb & Hs) Hr Hstart x Hx%Hr. apply elem_of_map.
  inversion Hx as [Heq|p y Hh Hp Hy Hne]; subst.
  - exists s. split; [done|]. apply elem_of_union. left. by apply Hs.
  - exists y. split; [done|].
    assert (y ∈ body_symbols (_productions self)) as Hin
      by (apply elem_of_body_symbols; by exists p).
    apply Hb in Hin. destruct (is_Terminal y); set_solver.
Qed.

Lemma unit_pair_set_identity self up :
  unit_pair_set self up →
  set_map (λ v, (v, v)) (_variables self) ⊆ up.
Proof.
  intros Hup pr (v & -> & Hv)%elem_of_map. apply Hup. by constructor.
Qed.

Lemma needs_pipeline_false_elim self gn up gg r :
  wf_core self →
  nullable_set self gn → unit_pair_set self up →
  generating_set self gg → reachable_set self r →
  needs_pipeline self gn up gg r = false →
  canonical_but_reachable self
  ∧ (_start_symbol self = None → _productions self = [])
  ∧ (_start_symbol self ≠ None → canonical self).
Proof.
  intros Hwf Hn Hu Hg Hr Hnp. unfold needs_pipeline in Hnp.
  apply bool_decide_eq_false in Hnp.
  assert (size gn = 0) as Hs1 by (destruct (decide (size gn = 0)); tauto).
  assert (size up = size (_variables self)) as Hs2
    by (destruct (decide (size up = size (_variables self))); tauto).
  assert (size gg = size (_variables self) + size (_terminals self)) as Hs3
    by (destruct (decide (size gg = size (_variables self)
                                    + size (_terminals self))); tauto).
  assert (size r = size (_variables self) + size (_terminals self)) as Hs4
    by (destruct (decide (size r = size (_variables self)
                                   + size (_terminals self))); tauto).
  clear Hnp.
  assert (∀ x, closure {[Epsilon]} (_productions self) x → x = Epsilon) as HN.
  { intros x Hx. destruct (decide (x = Epsilon)) as [|Hne]; [done|].
    apply size_empty_iff in Hs1. assert (x ∈ gn) by by apply Hn.
    set_solver. }
  assert (∀ a b, unit_pair (_productions self) (_variables self) (a, b)
                 → a = b) as HU.
  { intros a b Hab.
    pose proof (unit_pair_set_identity self up Hu) as Hsub.
    apply gset_size_eq_subseteq in Hsub.
    - apply Hu in Hab. rewrite <- Hsub in Hab.
      apply elem_of_map in Hab as (v & [= -> ->] & _). done.
    - rewrite size_set_map_inj; [done|]. by intros ?? [= ->]. }
  assert (gg = _variables self ∪ _terminals self) as HG.
  { apply gset_size_eq_subseteq; [by apply generating_set_subseteq|].
    by rewrite size_variables_terminals. }
  assert (canonical_but_reachable self) as Hcbr.
  { split; [done|]. split; [done|]. intros x Hx. apply Hg. by rewrite HG. }
  split; [done|]. split.
  - intros Hstart. destruct (_productions self) as [|p ps] eqn:Hps; [done|].
    exfalso.
    assert (r = {[None]}) as ->.
    { apply set_eq. intros x. rewrite (Hr x), Hstart, elem_of_singleton. split.
      - apply reachable_None.
      - intros ->. constructor. }
    rewrite size_singleton in Hs4.
    destruct Hwf as (Hsorted & Hh & _).
    assert (head p ∈ _variables self) as Hp
      by (apply Hh; rewrite Hps; apply elem_of_cons; by left).
    assert (size (_variables self) ≠ 0) as Hv
      by (apply size_non_empty_iff; set_solver).
    assert (_terminals self = ∅) as Ht
      by (apply leibniz_equiv, size_empty_iff; lia).
    assert (head p ∈ gg) as Hgen by (rewrite HG; set_solver).
    apply Hg in Hgen as [Hne Hcl]. apply Hne, HN. rewrite <- Hps.
    eapply closure_mono; [| |exact Hcl]; [|done]. rewrite Ht. set_solver.
  - intros Hstart. destruct (_start_symbol self) as [s|] eqn:Es; [|done].
    destruct Hcbr as (? & ? & ?). split; [done|]. split; [done|].
    split; [done|]. intros x Hx.
    assert (r = set_map Some (_variables self ∪ _terminals self)) as ->.
    { apply gset_size_eq_subseteq.
      - by apply (reachable_set_subseteq self r s).
      - rewrite size_set_map_inj; [|by intros ?? [= ->]].
        by rewrite size_variables_terminals. }
    apply Hr. apply elem_of_map. by exists x.
Qed.

Lemma canonical_needs_pipeline self gn up gg r s :
  wf_core self →
  nullable_set self gn → unit_pair_set self up →
  generating_set self gg → reachable_set self r →
  _start_symbol self = Some s → canonical self →
  needs_pipeline self gn up gg r = false.
Proof.
  intros Hwf Hn Hu Hg Hr Hstart (HN & HU & HG & HR).
  assert (gn = ∅) as ->.
  { apply set_eq. intros x. split; [|set_solver].
    intros [Hne Hx]%Hn. by apply HN in Hx. }
  assert (up = set_map (λ v, (v, v)) (_variables self)) as ->.
  { apply set_eq. intros [a b]. rewrite elem_of_map. split.
    - intros Hab%Hu. pose proof (unit_pair_first _ _ _ Hab) as Ha. simpl in Ha.
      apply HU in Hab as ->. by exists b.
    - intros (v & [= -> ->] & Hv). apply Hu. by constructor. }
  assert (gg = _variables self ∪ _terminals self) as ->.
  { apply set_eq. intros x. split.
    - by apply generating_set_subseteq.
    - intros Hx. by apply Hg, HG. }
  assert (r = set_map Some (_variables self ∪ _terminals self)) as ->.
  { apply set_eq. intros x. split.
    - by apply (reachable_set_subseteq self r s).
    - intros (y & -> & Hy)%elem_of_map. by apply Hr, HR. }
  unfold needs_pipeline. apply bool_decide_eq_false.
  rewrite size_empty, !size_set_map_inj, size_variables_terminals by
    (done || by intros ?? [= ->]).
  lia.
Qed.

(** * Proofs: the shape of [to_normal_form] *)

Lemma unit_pair_set_same a b up :
  same_core a b → unit_pair_set a up → unit_pair_set b up.
Proof. intros (Hv & _ & _ & Hp). unfold unit_pair_set. by rewrite Hv, Hp. Qed.

Lemma reachable_set_same a b r :
  same_core a b → reachable_set a r → reachable_set b r.
Proof. intros (_ & _ & Hs & Hp). unfold reachable_set. by rewrite Hs, Hp. Qed.

Lemma same_core_sym a b : same_core a b → same_core b a.
Proof. intros (? & ? & ? & ?). by repeat split. Qed.

Lemma to_normal_form_unfold self :
  wf_core self → cache_ok self →
  ∃ gn up gg r self2,
    nullable_set self gn ∧ unit_pair_set self up
    ∧ generating_set self gg ∧ reachable_set self r
    ∧ same_core self self2 ∧ cache_ok self2
    ∧ ∀ fuel,
        to_normal_form (S fuel) self =
        if needs_pipeline self2 gn up gg r then
          if decide (length (_productions self2) = 0) then Ok self2
          else
            g ← remove_useless_symbols self2;
            g ← remove_epsilon g;
            g ← remove_useless_symbols g;
            g ← eliminate_unit_productions g;
            new_cfg ← remove_useless_symbols g;
            to_normal_form fuel new_cfg
        else
          new_productions ← _get_productions_with_only_single_terminals self2;
          new_productions ← _decompose_productions self2 new_productions;
          Ok (CFG_init None None (_start_symbol self2)
                       (Some (remove_dups new_productions))).
Proof.
  intros Hwf Hc.
  destruct (get_nullable_symbols_ok self Hwf Hc)
    as (gn & s1 & E1 & Hgn & Hs1 & Hc1 & _ & _).
  pose proof (wf_core_same _ _ Hs1 Hwf) as Hwf1.
  destruct (get_unit_pairs_spec s1) as (up & E2 & Hup).
  destruct (get_generating_symbols_ok s1 Hwf1 Hc1)
    as (gg & s2 & E3 & Hgg & Hs2 & Hc2 & _ & _).
  destruct (get_reachable_symbols_spec s2) as (r & E4 & Hr).
  exists gn, up, gg, r, s2.
  split; [done|].
  split; [apply (unit_pair_set_same s1); [by apply same_core_sym|done]|].
  split; [apply (generating_set_same s1); [by apply same_core_sym|done]|].
  split.
  { apply (reachable_set_same s2); [|done].
    apply same_core_sym. by apply (same_core_trans _ s1). }
  split; [by apply (same_core_trans _ s1)|]. split; [done|].
  intros fuel. cbn [to_normal_form].
  rewrite E1. cbn [mbind result_bind fst snd].
  rewrite E2. cbn [mbind result_bind fst snd].
  rewrite E3. cbn [mbind result_bind fst snd].
  rewrite E4. cbn [mbind result_bind fst snd].
  reflexivity.
Qed.

Lemma remove_useless_symbols_fresh self g :
  remove_useless_symbols self = Ok g → wf_core g ∧ cache_ok g.
Proof.
  unfold remove_useless_symbols. intros H.
  destruct (get_generating_symbols self) as [r| |]; [|done|done].
  cbn [mbind result_bind] in H.
  destruct (get_reachable_symbols _) as [r'| |]; [|done|done].
  cbn [mbind result_bind] in H. injection H as <-.
  split; [apply CFG_init_wf|apply CFG_init_cache_ok].
Qed.

Lemma single_terminals_nil self :
  _productions self = [] →
  _get_productions_with_only_single_terminals self = Ok [].
Proof.
  intros Hp. unfold _get_productions_with_only_single_terminals.
  rewrite Hp. simpl. by rewrite elements_empty.
Qed.

Lemma to_normal_form_no_productions self fuel :
  wf_core self → cache_ok self → _productions self = [] →
  ∃ R, to_normal_form (S fuel) self = Ok R ∧ _productions R = [].
Proof.
  intros Hwf Hc Hp.
  destruct (to_normal_form_unfold self Hwf Hc)
    as (gn & up & gg & r & s2 & _ & _ & _ & _ & Hs2 & _ & Heq).
  rewrite Heq. destruct Hs2 as (_ & _ & _ & Hps).
  destruct (needs_pipeline s2 gn up gg r).
  - rewrite decide_True by by rewrite <- Hps, Hp.
    exists s2. split; [done|]. by rewrite <- Hps.
  - rewrite single_terminals_nil by by rewrite <- Hps.
    cbn. eexists. split; [done|]. done.
Qed.

Lemma to_normal_form_shape fuel :
  ∀ self R,
    wf_core self → cache_ok self →
    to_normal_form fuel self = Ok R →
    wf_core R ∧ cache_ok R
    ∧ (_productions R = []
       ∨ ∃ H s ps1 ps2,
           wf_core H ∧ canonical H ∧ _start_symbol H = Some s
           ∧ _get_productions_with_only_single_terminals H = Ok ps1
           ∧ _decompose_productions H ps1 = Ok ps2
           ∧ R = CFG_init None None (Some s) (Some (remove_dups ps2))).
Proof.
  induction fuel as [|fuel IH]; intros self R Hwf Hc Hrun; [done|].
  destruct (to_normal_form_unfold self Hwf Hc)
    as (gn & up & gg & r & s2 & Hgn & Hup & Hgg & Hr & Hs2 & Hc2 & Heq).
  rewrite Heq in Hrun. clear Heq.
  pose proof (wf_core_same _ _ Hs2 Hwf) as Hwf2.
  destruct (needs_pipeline s2 gn up gg r) eqn:Hnp.
  - destruct (decide (length (_productions s2) = 0)) as [Hlen|Hlen].
    + injection Hrun as <-. split; [done|]. split; [done|]. left.
      by apply nil_length_inv.
    + destruct (remove_useless_symbols s2) as [g1| |]; [|done|done].
      cbn [mbind result_bind] in Hrun.
      destruct (remove_epsilon g1) as [g2| |]; [|done|done].
      cbn [mbind result_bind] in Hrun.
      destruct (remove_useless_symbols g2) as [g3| |]; [|done|done].
      cbn [mbind result_bind] in Hrun.
      destruct (eliminate_unit_productions g3) as [g4| |]; [|done|done].
      cbn [mbind result_bind] in Hrun.
      destruct (remove_useless_symbols g4) as [g5| |] eqn:E5; [|done|done].
      cbn [mbind result_bind] in Hrun.
      apply remove_useless_symbols_fresh in E5 as [Hwf5 Hc5].
      by apply (IH g5).
  - destruct (_get_productions_with_only_single_terminals s2)
      as [ps1| |] eqn:E1; [|done|done].
    cbn [mbind result_bind] in Hrun.
    destruct (_decompose_productions s2 ps1) as [ps2| |] eqn:E2; [|done|done].
    cbn [mbind result_bind] in Hrun. injection Hrun as <-.
    split; [apply CFG_init_wf|]. split; [apply CFG_init_cache_ok|].
    destruct (needs_pipeline_false_elim s2 gn up gg r Hwf2) as (_ & Hnone & Hsome);
      [by apply (nullable_set_same self)|by apply (unit_pair_set_same self)
      |by apply (generating_set_same self)|by apply (reachable_set_same self)
      |done|].
    destruct (_start_symbol s2) as [s|] eqn:Es.
    + right. exists s2, s, ps1, ps2. rewrite Es.
      split; [done|]. split; [by apply Hsome|]. done.
    + left. rewrite CFG_init_productions. simpl.
      rewrite single_terminals_nil in E1 by by apply Hnone.
      injection E1 as <-. cbn in E2. by injection E2 as <-.
Qed.

(** * Proofs: [_decompose_productions] *)

Lemma chain_mono ps ps' h b :
  (∀ p, p ∈ ps → p ∈ ps') → chain ps h b → chain ps' h b.
Proof.
  intros Hsub. induction 1 as [h x y Hp|h x v rest Hp _ IH].
  - apply chain_last. by apply Hsub.
  - eapply chain_link; [by apply Hsub|done].
Qed.

Lemma chain_length ps h b : chain ps h b → 2 ≤ length b.
Proof. induction 1; simpl in *; lia. Qed.

Lemma reachable_mono ps ps' s x :
  (∀ p, p ∈ ps → p ∈ ps') → reachable ps s x → reachable ps' s x.
Proof.
  intros Hsub. induction 1 as [|p y _ IH Hp Hy Hne]; [constructor|].
  eapply reachable_step; [exact IH|by apply Hsub|done|done].
Qed.

Lemma reachable_trans ps s x y :
  reachable ps s (Some x) → reachable ps (Some x) y → reachable ps s y.
Proof.
  intros Hx. induction 1 as [|p z _ IH Hp Hz Hne]; [done|].
  eapply reachable_step; [exact IH|done|done|done].
Qed.

Lemma link_of_mono ps ps' h b b' r :
  (∀ p, p ∈ ps → p ∈ ps') → (∀ z, z ∈ b → z ∈ b') →
  link_of ps h b r → link_of ps' h b' r.
Proof.
  intros Hsub Hb (x & y & Hr & Hx & Hy & Hreach).
  exists x, y. split; [done|]. split; [by apply Hb|]. split.
  - destruct Hy as [Hy|(v & sfx & -> & Hc & Hs)]; [left; by apply Hb|right].
    exists v, sfx. split; [done|]. split; [by apply (chain_mono ps)|].
    intros z Hz. by apply Hb, Hs.
  - by apply (reachable_mono ps).
Qed.

Lemma Production_init_filtered h b :
  Epsilon ∉ b → Production_init h b true = mkProduction h b.
Proof.
  intros Hb. unfold Production_init. f_equal.
  induction b as [|x b IH]; [done|].
  rewrite filter_cons. rewrite not_elem_of_cons in Hb. destruct Hb as [Hx Hb].
  rewrite decide_True by done. by rewrite IH.
Qed.

Lemma decompose_body_spec :
  ∀ new_var head body done nps,
    length body = length new_var + 2 →
    Epsilon ∉ body →
    (∀ sfx v, done !! sfx = Some v → length sfx < length body →
              chain nps v sfx) →
    ∃ new,
      (decompose_body head body new_var done nps).2 = nps ++ new
      ∧ chain (nps ++ new) head body
      ∧ (∀ r, r ∈ new → link_of (nps ++ new) head body r)
      ∧ (∀ sfx v,
           (decompose_body head body new_var done nps).1 !! sfx = Some v →
           done !! sfx = Some v
           ∨ (length sfx < length body ∧ chain (nps ++ new) v sfx)).
Proof.
  induction new_var as [|v new_var IH]; intros head body done nps Hlen Heps Hdone.
  - destruct body as [|x [|y [|z body]]]; simpl in Hlen; try lia.
    assert (decompose_body head [x; y] [] done nps
            = (done, nps ++ [mkProduction head [x; y]])) as ->.
    { simpl. by rewrite Production_init_filtered. }
    exists [mkProduction head [x; y]]. simpl. split; [done|].
    split; [apply chain_last; set_solver|]. split; [|by left].
    intros r ->%list_elem_of_singleton. exists x, y. simpl.
    split; [done|]. split; [set_solver|]. split; [left; set_solver|].
    constructor.
  - destruct body as [|b temp]; simpl in Hlen; [lia|].
    assert (Epsilon ∉ temp ∧ b ≠ Epsilon) as [Htemp Hb] by set_solver.
    simpl. destruct (done !! temp) as [d|] eqn:Hd.
    + assert (Production_init head [b; Var d] true
              = mkProduction head [b; Var d]) as ->
        by (apply Production_init_filtered; set_solver).
      exists [mkProduction head [b; Var d]]. simpl. split; [done|].
      assert (chain (nps ++ [mkProduction head [b; Var d]]) d temp) as Hc.
      { apply (chain_mono nps); [set_solver|]. apply Hdone; [done|].
        simpl. lia. }
      split; [apply (chain_link _ head b d temp); [set_solver|done]|].
      split; [|by left].
      intros r ->%list_elem_of_singleton. exists b, (Var d). simpl.
      split; [done|]. split; [set_solver|]. split; [|constructor].
      right. exists d, temp. split; [done|]. split; [done|]. set_solver.
    + assert (Production_init head [b; Var v] true
              = mkProduction head [b; Var v]) as ->
        by (apply Production_init_filtered; set_solver).
      destruct (IH v temp (<[temp := v]> done)
                  (nps ++ [mkProduction head [b; Var v]]))
        as (new & Hrun & Hchain & Hlinks & Hdone'); [lia|done| |].
      { intros sfx v' Hl Hlt.
        rewrite lookup_insert_ne in Hl by (intros ->; lia).
        apply (chain_mono nps); [set_solver|]. apply Hdone; [done|].
        simpl. lia. }
      rewrite <- app_assoc in Hrun, Hchain, Hlinks, Hdone'. simpl in *.
      exists (mkProduction head [b; Var v] :: new). split; [done|].
      assert (mkProduction head [b; Var v]
              ∈ nps ++ mkProduction head [b; Var v] :: new) as Hin
        by set_solver.
      split; [by apply (chain_link _ head b v temp)|]. split.
      * intros r [->|Hr]%elem_of_cons.
        -- exists b, (Var v). simpl. split; [done|]. split; [set_solver|].
           split; [|constructor]. right. exists v, temp.
           split; [done|]. split; [done|]. set_solver.
        -- destruct (Hlinks r Hr) as (x & y & Hbody & Hx & Hy & Hreach).
           exists x, y. split; [done|]. split; [set_solver|]. split.
           ++ destruct Hy as [Hy|(v' & sfx & -> & Hc & Hs)];
                [left; set_solver|right].
              exists v', sfx. split; [done|]. split; [done|]. set_solver.
           ++ eapply reachable_trans; [|exact Hreach].
              eapply (reachable_step _ _ (mkProduction head [b; Var v]));
                [constructor|done|simpl; set_solver|done].
      * intros sfx v' Hl. apply Hdone' in Hl as [Hl|[Hlt Hc]].
        -- destruct (decide (sfx = temp)) as [->|Hne].
           ++ rewrite lookup_insert_eq in Hl. injection Hl as <-.
              right. split; [simpl; lia|done].
           ++ rewrite lookup_insert_ne in Hl by done. by left.
        -- right. split; [simpl; lia|done].
Qed.

Lemma draw_new_var_length self n :
  ∀ idx r, draw_new_var self n idx = Ok r → length r.2 = n.
Proof.
  induction n as [|n IH]; intros idx r H; simpl in H.
  - by injection H as <-.
  - destruct (_get_next_free_variable self idx "C#CNF#") as [r1| |];
      [|done|done].
    cbn [mbind result_bind] in H.
    destruct (draw_new_var self n r1.1) as [r2| |] eqn:E; [|done|done].
    cbn [mbind result_bind] in H. injection H as <-. simpl.
    by rewrite (IH _ _ E).
Qed.

Lemma decompose_fold_fail self l acc :
  (∀ st, acc ≠ Ok st) →
  ∀ st, foldl (decompose_step self) acc l ≠ Ok st.
Proof.
  revert acc. induction l as [|q l IH]; intros acc Hacc; [done|].
  simpl. apply IH. intros st. unfold decompose_step.
  destruct acc as [st0| |]; [by destruct (Hacc st0)|done|done].
Qed.

Lemma decompose_step_spec self idx done nps q st1 :
  Epsilon ∉ body q →
  done_ok nps done →
  decompose_step self (Ok (idx, done, nps)) q = Ok st1 →
  ∃ new,
    st1.2 = nps ++ new
    ∧ done_ok (nps ++ new) st1.1.2
    ∧ (length (body q) ≤ 2 → q ∈ new)
    ∧ (2 < length (body q) → chain (nps ++ new) (head_value q) (body q))
    ∧ (∀ r, r ∈ new →
            (r = q ∧ length (body r) ≤ 2)
            ∨ (2 < length (body q)
               ∧ link_of (nps ++ new) (head_value q) (body q) r)).
Proof.
  intros Heps Hdone Hstep. unfold decompose_step in Hstep.
  cbn [mbind result_bind] in Hstep.
  destruct (decide (length (body q) ≤ 2)) as [Hle|Hgt].
  - injection Hstep as <-. exists [q]. simpl. split; [done|].
    split. { intros sfx v Hl. apply (chain_mono nps); [set_solver|by apply Hdone]. }
    split; [set_solver|]. split; [lia|].
    intros r ->%list_elem_of_singleton. by left.
  - destruct (draw_new_var self (length (body q) - 2) idx) as [r| |] eqn:E;
      [|done|done].
    cbn [mbind result_bind] in Hstep. injection Hstep as <-. simpl.
    apply draw_new_var_length in E.
    destruct (decompose_body_spec r.2 (head_value q) (body q) done nps)
      as (new & Hrun & Hchain & Hlinks & Hdone'); [lia|done| |].
    { intros sfx v Hl _. by apply Hdone. }
    exists new. split; [done|]. split.
    { intros sfx v Hl. apply Hdone' in Hl as [Hl|[_ Hc]]; [|done].
      apply (chain_mono nps); [set_solver|by apply Hdone]. }
    split; [lia|]. split; [done|]. intros r' Hr'. right.
    split; [lia|by apply Hlinks].
Qed.

Lemma decompose_fold_spec self :
  ∀ l idx done nps st',
    (∀ q, q ∈ l → Epsilon ∉ body q) →
    done_ok nps done →
    foldl (decompose_step self) (Ok (idx, done, nps)) l = Ok st' →
    ∃ new,
      st'.2 = nps ++ new
      ∧ done_ok (nps ++ new) st'.1.2
      ∧ (∀ q, q ∈ l → length (body q) ≤ 2 → q ∈ new)
      ∧ (∀ q, q ∈ l → 2 < length (body q) →
              chain (nps ++ new) (head_value q) (body q))
      ∧ (∀ r, r ∈ new →
              (r ∈ l ∧ length (body r) ≤ 2)
              ∨ ∃ q, q ∈ l ∧ 2 < length (body q)
                     ∧ link_of (nps ++ new) (head_value q) (body q) r).
Proof.
  induction l as [|q l IH]; intros idx done nps st' Heps Hdone Hrun.
  - simpl in Hrun. injection Hrun as <-. exists []. simpl.
    rewrite app_nil_r. split; [done|]. split; [done|].
    split; [set_solver|]. split; [set_solver|]. set_solver.
  - cbn [foldl] in Hrun.
    destruct (decompose_step self (Ok (idx, done, nps)) q)
      as [[[idx1 done1] nps1]| |] eqn:Hstep.
    2: { exfalso. eapply decompose_fold_fail; [|exact Hrun]. intros ?; discriminate. }
    2: { exfalso. eapply decompose_fold_fail; [|exact Hrun]. intros ?; discriminate. }
    destruct (decompose_step_spec self idx done nps q _
                (Heps q ltac:(set_solver)) Hdone Hstep)
      as (new1 & Hnps1 & Hdone1 & Hshort1 & Hlong1 & Hnew1).
    simpl in Hnps1, Hdone1. subst nps1.
    destruct (IH idx1 done1 (nps ++ new1) st'
                ltac:(set_solver) Hdone1 Hrun)
      as (new2 & Hnps2 & Hdone2 & Hshort2 & Hlong2 & Hnew2).
    rewrite <- app_assoc in Hnps2, Hdone2, Hlong2, Hnew2.
    exists (new1 ++ new2). split; [done|]. split; [done|].
    assert (∀ p, p ∈ nps ++ new1 → p ∈ nps ++ new1 ++ new2) as Hsub
      by set_solver.
    split; [|split].
    + intros q' [->|Hq']%elem_of_cons Hlen; [set_solver|].
      apply elem_of_app. right. by apply Hshort2.
    + intros q' [->|Hq']%elem_of_cons Hlen.
      * apply (chain_mono (nps ++ new1)); [done|by apply Hlong1].
      * by apply Hlong2.
    + intros r [Hr|Hr]%elem_of_app.
      * destruct (Hnew1 r Hr) as [[-> Hlen]|[Hlen Hlink]].
        -- left. split; [set_solver|done].
        -- right. exists q. split; [set_solver|]. split; [done|].
           by apply (link_of_mono (nps ++ new1) _ _ (body q)).
      * destruct (Hnew2 r Hr) as [[Hin Hlen]|(q' & Hq' & Hlen & Hlink)].
        -- left. split; [set_solver|done].
        -- right. exists q'. split; [set_solver|]. done.
Qed.

Lemma decompose_productions_spec self ps1 ps2 :
  (∀ q, q ∈ ps1 → Epsilon ∉ body q) →
  _decompose_productions self ps1 = Ok ps2 →
  (∀ q, q ∈ ps1 → length (body q) ≤ 2 → q ∈ ps2)
  ∧ (∀ q, q ∈ ps1 → 2 < length (body q) →
          chain ps2 (head_value q) (body q))
  ∧ (∀ r, r ∈ ps2 →
          (r ∈ ps1 ∧ length (body r) ≤ 2)
          ∨ ∃ q, q ∈ ps1 ∧ 2 < length (body q)
                 ∧ link_of ps2 (head_value q) (body q) r).
Proof.
  intros Heps Hrun. unfold _decompose_productions in Hrun.
  destruct (foldl (decompose_step self) (Ok (0, ∅, [])) ps1)
    as [st| |] eqn:E; [|done|done].
  cbn [mbind result_bind] in Hrun. injection Hrun as <-.
  destruct (decompose_fold_spec self ps1 0 ∅ [] st Heps) as
    (new & Hnps & _ & H1 & H2 & H3); [|done|].
  { intros sfx v Hl. by rewrite lookup_empty in Hl. }
  simpl in *. by rewrite Hnps.
Qed.

Lemma decompose_productions_short self ps :
  (∀ q, q ∈ ps → length (body q) ≤ 2) →
  _decompose_productions self ps = Ok ps.
Proof.
  intros Hshort. unfold _decompose_productions.
  assert (∀ l idx done nps,
            (∀ q, q ∈ l → length (body q) ≤ 2) →
            foldl (decompose_step self) (Ok (idx, done, nps)) l
            = Ok (idx, done, nps ++ l)) as Hfold.
  { induction l as [|q l IH]; intros idx dn nps Hl; cbn [foldl].
    - by rewrite app_nil_r.
    - assert (decompose_step self (Ok (idx, dn, nps)) q
              = Ok (idx, dn, nps ++ [q])) as ->.
      { unfold decompose_step. cbn [mbind result_bind].
        by rewrite decide_True by (apply Hl; set_solver). }
      rewrite IH by set_solver. by rewrite <- app_assoc. }
  by rewrite Hfold.
Qed.

(** * Proofs: [_get_productions_with_only_single_terminals] *)

Lemma term_to_var_of_lookup terminals x :
  term_to_var_of terminals !! x
  = if decide (x ∈ terminals) then Some (cnf_name x) else None.
Proof.
  unfold term_to_var_of.
  assert (∀ l (d : gmap CFGObject string),
            foldl (λ d terminal, <[terminal := cnf_name terminal]> d) d l !! x
            = if decide (x ∈ l) then Some (cnf_name x) else d !! x) as Hfold.
  { induction l as [|t l IH]; intros d; cbn [foldl].
    - destruct (decide (x ∈ [])) as [Hx|Hx]; [|done]. by apply elem_of_nil in Hx.
    - rewrite IH. destruct (decide (x ∈ l)) as [Hl|Hl].
      + by rewrite decide_True by set_solver.
      + destruct (decide (x = t)) as [->|Hne].
        * rewrite lookup_insert_eq. by rewrite decide_True by set_solver.
        * rewrite lookup_insert_ne by done.
          by rewrite decide_False by set_solver. }
  rewrite Hfold, lookup_empty.
  destruct (decide (x ∈ elements terminals)) as [Hl|Hl];
    [rewrite decide_True|rewrite decide_False]; set_solver.
Qed.

Lemma replace_terminals_spec terminals body used :
  (replace_terminals (term_to_var_of terminals) body used).1
  = cnf_symbol terminals <$> body
  ∧ ∀ x, x ∈ (replace_terminals (term_to_var_of terminals) body used).2
         ↔ x ∈ used ∨ (x ∈ body ∧ x ∈ terminals).
Proof.
  unfold replace_terminals.
  assert (∀ l acc (u : gset CFGObject),
            let r := foldl (λ st symbol,
                       match term_to_var_of terminals !! symbol with
                       | Some v => (st.1 ++ [Var v], {[symbol]} ∪ st.2)
                       | None => (st.1 ++ [symbol], st.2)
                       end) (acc, u) l in
            r.1 = acc ++ (cnf_symbol terminals <$> l)
            ∧ ∀ x, x ∈ r.2 ↔ x ∈ u ∨ (x ∈ l ∧ x ∈ terminals)) as Hfold.
  { induction l as [|y l IH]; intros acc u; cbn [foldl].
    - simpl. rewrite app_nil_r. split; [done|]. set_solver.
    - rewrite fmap_cons, term_to_var_of_lookup. cbn [fst snd].
      destruct (decide (y ∈ terminals)) as [Hy|Hy].
      + assert (cnf_symbol terminals y = Var (cnf_name y)) as ->
          by (unfold cnf_symbol; by rewrite decide_True).
        destruct (IH (acc ++ [Var (cnf_name y)]) ({[y]} ∪ u)) as [H1 H2].
        cbn zeta. rewrite H1, <- app_assoc. split; [done|].
        intros x. rewrite H2. set_solver.
      + assert (cnf_symbol terminals y = y) as ->
          by (unfold cnf_symbol; by rewrite decide_False).
        destruct (IH (acc ++ [y]) u) as [H1 H2].
        cbn zeta. rewrite H1, <- app_assoc. split; [done|].
        intros x. rewrite H2. set_solver. }
  apply (Hfold body [] used).
Qed.

Lemma single_terminals_spec self :
  ∃ used : gset CFGObject,
    (∀ x, x ∈ used ↔ ∃ p, p ∈ _productions self ∧ length (body p) ≠ 1
                          ∧ x ∈ body p ∧ x ∈ _terminals self)
    ∧ _get_productions_with_only_single_terminals self
      = Ok ((cnf_production (_terminals self) <$> _productions self)
            ++ (cnf_terminal_production <$> elements used)).
Proof.
  unfold _get_productions_with_only_single_terminals.
  set (T := _terminals self).
  set (step := λ (st : list Production * gset CFGObject) production,
         if decide (length (body production) = 1)
         then (st.1 ++ [production], st.2)
         else
           let r := replace_terminals (term_to_var_of T) (body production) st.2 in
           (st.1 ++ [Production_init (head_value production) r.1 true], r.2)).
  assert (∀ l acc (u : gset CFGObject),
            (foldl step (acc, u) l).1 = acc ++ (cnf_production T <$> l)
            ∧ ∀ x, x ∈ (foldl step (acc, u) l).2
                   ↔ x ∈ u ∨ ∃ p, p ∈ l ∧ length (body p) ≠ 1
                                  ∧ x ∈ body p ∧ x ∈ T) as Hfold.
  { induction l as [|p l IH]; intros acc u; cbn [foldl].
    - simpl. rewrite app_nil_r. split; [done|]. set_solver.
    - rewrite fmap_cons.
      destruct (decide (length (body p) = 1)) as [Hp|Hp].
      + assert (step (acc, u) p = (acc ++ [p], u)) as ->
          by (unfold step; simpl; by rewrite decide_True).
        assert (cnf_production T p = p) as ->
          by (unfold cnf_production; by rewrite decide_True).
        destruct (IH (acc ++ [p]) u) as [H1 H2].
        rewrite H1, <- app_assoc. split; [done|].
        intros x. rewrite H2. split.
        * intros [?|(p' & ? & ? & ? & ?)]; [by left|right].
          exists p'. set_solver.
        * intros [?|(p' & [->|?]%elem_of_cons & ? & ? & ?)];
            [by left|done|right].
          by exists p'.
      + destruct (replace_terminals_spec T (body p) u) as [R1 R2].
        assert (step (acc, u) p
                = (acc ++ [Production_init (head_value p)
                             (cnf_symbol T <$> body p) true],
                   (replace_terminals (term_to_var_of T) (body p) u).2)) as ->
          by (unfold step; simpl; rewrite decide_False by done; by rewrite R1).
        assert (cnf_production T p
                = Production_init (head_value p) (cnf_symbol T <$> body p) true)
          as -> by (unfold cnf_production; by rewrite decide_False).
        destruct (IH (acc ++ [Production_init (head_value p)
                                (cnf_symbol T <$> body p) true])
                     (replace_terminals (term_to_var_of T) (body p) u).2)
          as [H1 H2].
        rewrite H1, <- app_assoc. split; [done|].
        intros x. rewrite H2, R2. split.
        * intros [[?|[? ?]]|(p' & ? & ? & ? & ?)].
          -- by left.
          -- right. exists p. set_solver.
          -- right. exists p'. set_solver.
        * intros [?|(p' & [->|?]%elem_of_cons & ? & ? & ?)].
          -- left. by left.
          -- left. by right.
          -- right. by exists p'. }
  destruct (Hfold (_productions self) [] ∅) as [H1 H2].
  exists (foldl step ([], ∅) (_productions self)).2. split.
  { intros x. rewrite H2. set_solver. }
  rewrite H1. simpl.
  assert (∀ l acc,
            (∀ t, t ∈ l → t ∈ T) →
            foldl (λ acc terminal,
                     new_productions ← acc;
                     v ← getitem KeyError (term_to_var_of T !! terminal);
                     Ok (new_productions ++ [Production_init v [terminal] true]))
                  (Ok acc) l
            = Ok (acc ++ (cnf_terminal_production <$> l))) as Hfold2.
  { induction l as [|t l IH]; intros acc Hl; cbn [foldl].
    - simpl. by rewrite app_nil_r.
    - cbn [mbind result_bind]. rewrite term_to_var_of_lookup.
      rewrite decide_True by (apply Hl; set_solver). simpl getitem.
      cbn [mbind result_bind]. rewrite IH by set_solver.
      by rewrite <- app_assoc. }
  apply Hfold2. intros t Ht%elem_of_elements%H2. set_solver.
Qed.

(** * Proofs: the grammar that [to_normal_form] builds *)

Lemma is_Variable_not_Epsilon x : is_Variable x = true → x ≠ Epsilon.
Proof. by destruct x. Qed.

Lemma is_Terminal_not_Epsilon x : is_Terminal x = true → x ≠ Epsilon.
Proof. by destruct x. Qed.

Lemma not_Terminal_is_Variable x :
  is_Terminal x = false → x ≠ Epsilon → is_Variable x = true.
Proof. by destruct x. Qed.

Lemma Forall_not_Epsilon (b : list CFGObject) :
  (∀ z, z ∈ b → z ≠ Epsilon) → Epsilon ∉ b.
Proof. intros Hb Hin. by apply (Hb Epsilon). Qed.

Lemma chain_closure seed ps h b :
  chain ps h b → (∀ y, y ∈ b → closure seed ps y) → closure seed ps (Var h).
Proof.
  induction 1 as [h x y Hp|h x v rest Hp _ IH]; intros Hb.
  - by apply (closure_production seed ps (mkProduction h [x; y])).
  - apply (closure_production seed ps (mkProduction h [x; Var v])); [done|].
    simpl. intros y [->|[->|?%elem_of_nil]%elem_of_cons]%elem_of_cons;
      [|apply IH|done].
    + apply Hb. set_solver.
    + intros z Hz. apply Hb. set_solver.
Qed.

Lemma chain_reach ps st h b :
  chain ps h b → Epsilon ∉ b → reachable ps st (Some (Var h)) →
  ∀ z, z ∈ b → reachable ps st (Some z).
Proof.
  induction 1 as [h x y Hp|h x v rest Hp _ IH]; intros Heps Hh z Hz.
  - apply (reachable_step ps st (mkProduction h [x; y])); [done|done|done|].
    intros ->. done.
  - apply elem_of_cons in Hz as [->|Hz].
    + apply (reachable_step ps st (mkProduction h [x; Var v]));
        [done|done|simpl; set_solver|]. intros ->. set_solver.
    + apply IH; [set_solver| |done].
      apply (reachable_step ps st (mkProduction h [x; Var v]));
        [done|done|simpl; set_solver|done].
Qed.

Lemma unit_pair_self_loops ps V :
  (∀ p c, p ∈ ps → body p = [c] → is_Variable c = true → c = head p) →
  ∀ pr, unit_pair ps V pr → pr.1 = pr.2.
Proof.
  intros Hloop pr. induction 1 as [v Hv|a p c _ IH Hp Hb Hc]; [done|].
  simpl in *. rewrite IH. symmetry. by apply Hloop.
Qed.

Lemma closure_Epsilon_only ps :
  (∀ p, p ∈ ps → body p ≠ [] ∧ Epsilon ∉ body p) →
  ∀ x, closure {[Epsilon]} ps x → x = Epsilon.
Proof.
  intros Hps x. induction 1 as [x Hx|p Hp Hb IH]; [set_solver|].
  destruct (Hps p Hp) as [Hne Heps]. destruct (body p) as [|y l]; [done|].
  exfalso. apply Heps. rewrite <- (IH y) at 1; set_solver.
Qed.

Lemma canonical_same a b : same_core a b → canonical a → canonical b.
Proof.
  intros (Hv & Ht & Hs & Hp). unfold canonical. by rewrite Hv, Ht, Hs, Hp.
Qed.

Lemma remove_dups_NoDup_id `{EqDecision A} (l : list A) :
  NoDup l → remove_dups l = l.
Proof.
  induction 1 as [|x l Hx _ IH]; [done|]. simpl.
  destruct (decide_rel elem_of x l) as [Hin|_]; [done|]. by rewrite IH.
Qed.

Section Finalize.

Variables (H : CFG) (s : CFGObject) (ps1 ps2 : list Production).
Hypothesis Hwf : wf_core H.
Hypothesis Hcan : canonical H.
Hypothesis Hstart : _start_symbol H = Some s.
Hypothesis Hst : _get_productions_with_only_single_terminals H = Ok ps1.
Hypothesis Hdec : _decompose_productions H ps1 = Ok ps2.

Lemma canonical_no_Epsilon x :
  x ∈ _variables H ∪ _terminals H → x ≠ Epsilon.
Proof. destruct Hcan as (_ & _ & HG & _). intros Hx. by apply HG. Qed.

Lemma canonical_body_kind p y :
  p ∈ _productions H → y ∈ body p →
  (y ∈ _terminals H ∧ is_Terminal y = true)
  ∨ (y ∈ _variables H ∧ is_Variable y = true ∧ y ∉ _terminals H).
Proof.
  intros Hp Hy. destruct Hwf as ([Ht Hv] & _ & Hb & _).
  assert (y ∈ body_symbols (_productions H)) as Hin
    by (apply elem_of_body_symbols; by exists p).
  apply Hb in Hin. destruct (is_Terminal y) eqn:E; [by left|right].
  split; [done|]. split.
  - apply not_Terminal_is_Variable; [done|].
    apply canonical_no_Epsilon. set_solver.
  - intros Hy'%Ht. congruence.
Qed.

Lemma canonical_body_no_Epsilon p :
  p ∈ _productions H → Epsilon ∉ body p.
Proof.
  intros Hp Hin.
  by destruct (canonical_body_kind p Epsilon Hp Hin) as [[_ ?]|(_ & ? & _)].
Qed.

Lemma canonical_body_nonempty p :
  p ∈ _productions H → body p ≠ [].
Proof.
  intros Hp Hb. destruct Hcan as (HN & _).
  assert (head p = Epsilon) as Habs; [|done].
  apply HN. apply closure_production; [done|]. rewrite Hb. set_solver.
Qed.

Lemma canonical_unit p c :
  p ∈ _productions H → body p = [c] → is_Variable c = true → c = head p.
Proof.
  intros Hp Hb Hc. destruct Hcan as (_ & HU & _).
  destruct Hwf as (_ & Hh & _). symmetry. apply HU.
  eapply unit_pair_step; [|done|done|done]. constructor. by apply Hh.
Qed.

Lemma cnf_symbol_is_Variable p y :
  p ∈ _productions H → y ∈ body p →
  is_Variable (cnf_symbol (_terminals H) y) = true.
Proof.
  intros Hp Hy. unfold cnf_symbol.
  destruct (canonical_body_kind p y Hp Hy) as [[Ht _]|(_ & Hv & Ht)].
  - by rewrite decide_True.
  - by rewrite decide_False.
Qed.

Lemma cnf_production_long p :
  p ∈ _productions H → length (body p) ≠ 1 →
  cnf_production (_terminals H) p
  = mkProduction (head_value p) (cnf_symbol (_terminals H) <$> body p).
Proof.
  intros Hp Hlen. unfold cnf_production. rewrite decide_False by done.
  apply Production_init_filtered. apply Forall_not_Epsilon.
  intros z (y & -> & Hy)%list_elem_of_fmap.
  by apply is_Variable_not_Epsilon, (cnf_symbol_is_Variable p).
Qed.

Lemma cnf_production_short p :
  length (body p) = 1 → cnf_production (_terminals H) p = p.
Proof. intros Hlen. unfold cnf_production. by rewrite decide_True. Qed.

Lemma single_terminals_elem q :
  q ∈ ps1 ↔
  (∃ p, p ∈ _productions H ∧ q = cnf_production (_terminals H) p)
  ∨ (∃ t p, p ∈ _productions H ∧ length (body p) ≠ 1 ∧ t ∈ body p
            ∧ t ∈ _terminals H ∧ q = mkProduction (cnf_name t) [t]).
Proof.
  destruct (single_terminals_spec H) as (used & Hused & Hrun).
  rewrite Hst in Hrun. injection Hrun as ->.
  rewrite elem_of_app, !list_elem_of_fmap.
  assert (∀ t, t ∈ _terminals H →
               cnf_terminal_production t = mkProduction (cnf_name t) [t])
    as Hcnf.
  { intros t Ht. apply Production_init_filtered.
    destruct Hwf as ([HT _] & _). apply HT in Ht.
    apply is_Terminal_not_Epsilon in Ht. set_solver. }
  split.
  - intros [(p & -> & Hp)|(t & -> & Ht)]; [left; by exists p|right].
    apply elem_of_elements, Hused in Ht as (p & Hp & Hlen & Hin & HT).
    exists t, p. by rewrite Hcnf.
  - intros [(p & Hp & ->)|(t & p & Hp & Hlen & Hin & HT & ->)];
      [left; by exists p|right].
    exists t. split; [by rewrite Hcnf|].
    apply elem_of_elements, Hused. by exists p.
Qed.

Lemma single_terminals_no_Epsilon q : q ∈ ps1 → Epsilon ∉ body q.
Proof.
  intros [(p & Hp & ->)|(t & p & Hp & Hlen & Hin & HT & ->)]%single_terminals_elem.
  - destruct (decide (length (body p) = 1)) as [Hlen|Hlen].
    + rewrite cnf_production_short by done. by apply canonical_body_no_Epsilon.
    + rewrite cnf_production_long by done. simpl. apply Forall_not_Epsilon.
      intros z (y & -> & Hy)%list_elem_of_fmap.
      by apply is_Variable_not_Epsilon, (cnf_symbol_is_Variable p).
  - simpl. destruct Hwf as ([Hter _] & _). apply Hter in HT.
    apply is_Terminal_not_Epsilon in HT. set_solver.
Qed.

Lemma single_terminals_long q :
  q ∈ ps1 → length (body q) ≠ 1 →
  2 ≤ length (body q) ∧ ∀ z, z ∈ body q → is_Variable z = true.
Proof.
  intros [(p & Hp & ->)|(t & p & Hp & Hlen & Hin & HT & ->)]%single_terminals_elem
    Hq; [|done].
  destruct (decide (length (body p) = 1)) as [Hlen|Hlen].
  - by rewrite cnf_production_short in Hq by done.
  - rewrite cnf_production_long by done. simpl. rewrite length_fmap. split.
    + pose proof (canonical_body_nonempty p Hp).
      destruct (body p) as [|? [|? ?]]; simpl in *; try done; lia.
    + intros z (y & -> & Hy)%list_elem_of_fmap.
      by apply (cnf_symbol_is_Variable p).
Qed.

Lemma single_terminals_short q :
  q ∈ ps1 → length (body q) = 1 →
  (q ∈ _productions H)
  ∨ ∃ t, t ∈ _terminals H ∧ is_Terminal t = true
         ∧ q = mkProduction (cnf_name t) [t].
Proof.
  intros [(p & Hp & ->)|(t & p & Hp & Hlen & Hin & HT & ->)]%single_terminals_elem
    Hq.
  - destruct (decide (length (body p) = 1)) as [Hlen|Hlen].
    + left. by rewrite cnf_production_short.
    + rewrite cnf_production_long in Hq by done. simpl in Hq.
      by rewrite length_fmap in Hq.
  - right. exists t. destruct Hwf as ([Hter _] & _). split; [done|].
    split; [by apply Hter|done].
Qed.

(** The productions of the result: one terminal, or a unit production of
    the grammar, or two variables. *)
Lemma decomposed_shape r :
  r ∈ ps2 →
  Epsilon ∉ body r
  ∧ ((length (body r) = 1
      ∧ (r ∈ _productions H ∨ ∃ t, is_Terminal t = true ∧ body r = [t]))
     ∨ (length (body r) = 2 ∧ ∀ z, z ∈ body r → is_Variable z = true)).
Proof.
  intros Hr.
  destruct (decompose_productions_spec H ps1 ps2 single_terminals_no_Epsilon
              Hdec) as (_ & _ & Hshape).
  destruct (Hshape r Hr) as [[Hin Hlen]|(q & Hq & Hlen & x & y & Hb & Hx & Hy & _)].
  - split; [by apply single_terminals_no_Epsilon|].
    destruct (decide (length (body r) = 1)) as [H1|H1].
    + left. split; [done|].
      destruct (single_terminals_short r Hin H1) as [?|(t & _ & Ht & ->)];
        [by left|right]. by exists t.
    + right. destruct (single_terminals_long r Hin H1) as [H2 Hv].
      split; [lia|done].
  - assert (length (body q) ≠ 1) as Hq1 by lia.
    destruct (single_terminals_long q Hq Hq1) as [_ Hv].
    assert (∀ z, z ∈ body r → is_Variable z = true) as Hvars.
    { intros z. rewrite Hb. intros [->|[->|?%elem_of_nil]%elem_of_cons]%elem_of_cons;
        [by apply Hv| |done].
      destruct Hy as [Hy|(v & _ & -> & _)]; [by apply Hv|done]. }
    split.
    + apply Forall_not_Epsilon. intros z Hz.
      by apply is_Variable_not_Epsilon, Hvars.
    + right. split; [by rewrite Hb|done].
Qed.


Lemma start_is_Variable : is_Variable s = true ∧ s ∈ _variables H.
Proof. destruct Hwf as (_ & _ & _ & Hs). by destruct (Hs s Hstart). Qed.

Lemma normal_form_of_productions p :
  p ∈ _productions (normal_form_of s ps2) ↔ p ∈ ps2.
Proof.
  unfold normal_form_of. rewrite CFG_init_productions. simpl.
  apply elem_of_remove_dups.
Qed.

Lemma normal_form_of_body_symbols y :
  y ∈ body_symbols (remove_dups ps2) ↔ ∃ r, r ∈ ps2 ∧ y ∈ body r.
Proof.
  rewrite elem_of_body_symbols. split; intros (r & Hr & Hy); exists r.
  - split; [by rewrite elem_of_remove_dups in Hr|done].
  - split; [by rewrite elem_of_remove_dups|done].
Qed.

Lemma normal_form_of_terminals t :
  t ∈ _terminals (normal_form_of s ps2)
  ↔ is_Terminal t = true ∧ ∃ r, r ∈ ps2 ∧ t ∈ body r.
Proof.
  unfold normal_form_of. rewrite CFG_init_terminals. simpl.
  rewrite elem_of_union, elem_of_list_to_set, list_elem_of_filter.
  rewrite normal_form_of_body_symbols. set_solver.
Qed.

Lemma normal_form_of_variables x :
  x ∈ _variables (normal_form_of s ps2)
  ↔ x = s ∨ (∃ r, r ∈ ps2 ∧ x = head r)
    ∨ (is_Terminal x = false ∧ ∃ r, r ∈ ps2 ∧ x ∈ body r).
Proof.
  unfold normal_form_of. rewrite CFG_init_variables. simpl.
  destruct start_is_Variable as [Hs _].
  assert (to_variable s = s) as -> by by destruct s.
  rewrite !elem_of_union, !elem_of_list_to_set, list_elem_of_filter.
  rewrite normal_form_of_body_symbols, list_elem_of_fmap.
  rewrite elem_of_singleton. split.
  - intros [[[?|?%elem_of_empty]|(r & -> & Hr)]|?];
      [by left|done| |by right; right].
    right. left. exists r. by rewrite elem_of_remove_dups in Hr.
  - intros [?|[(r & Hr & ->)|?]]; [by left; left; left| |by right].
    left. right. exists r. split; [done|]. by rewrite elem_of_remove_dups.
Qed.

Lemma normal_form_of_start :
  _start_symbol (normal_form_of s ps2) = Some s.
Proof.
  unfold normal_form_of. rewrite CFG_init_start_symbol. simpl.
  destruct start_is_Variable as [Hs _]. by destruct s.
Qed.

Lemma decomposed_cases q :
  q ∈ ps1 →
  (length (body q) ≤ 2 ∧ q ∈ ps2)
  ∨ (2 < length (body q) ∧ chain ps2 (head_value q) (body q)).
Proof.
  intros Hq.
  destruct (decompose_productions_spec H ps1 ps2 single_terminals_no_Epsilon
              Hdec) as (Hshort & Hlong & _).
  destruct (decide (length (body q) ≤ 2)); [left|right].
  - split; [done|by apply Hshort].
  - split; [lia|apply Hlong; [done|lia]].
Qed.

Lemma cnf_production_in p :
  p ∈ _productions H → cnf_production (_terminals H) p ∈ ps1.
Proof. intros Hp. apply single_terminals_elem. left. by exists p. Qed.

Lemma cnf_production_head p :
  p ∈ _productions H → head (cnf_production (_terminals H) p) = head p.
Proof.
  intros Hp. destruct (decide (length (body p) = 1)).
  - by rewrite cnf_production_short.
  - by rewrite cnf_production_long.
Qed.

Lemma cnf_production_body p y :
  p ∈ _productions H → y ∈ body p →
  cnf_symbol (_terminals H) y ∈ body (cnf_production (_terminals H) p)
  ∨ (length (body p) = 1 ∧ cnf_production (_terminals H) p = p).
Proof.
  intros Hp Hy. destruct (decide (length (body p) = 1)).
  - right. by rewrite cnf_production_short.
  - left. rewrite cnf_production_long by done. simpl.
    apply list_elem_of_fmap. by exists y.
Qed.

(** ** Every symbol of the result is generating *)

Lemma transfer_terminal r t :
  r ∈ ps2 → t ∈ body r → is_Terminal t = true →
  closure ({[Epsilon]} ∪ _terminals (normal_form_of s ps2)) ps2 t.
Proof.
  intros Hr Ht Hter. apply closure_seed, elem_of_union. right.
  apply normal_form_of_terminals. split; [done|]. by exists r.
Qed.

Lemma closure_of_single_terminals q :
  q ∈ ps1 →
  (∀ z, z ∈ body q →
        closure ({[Epsilon]} ∪ _terminals (normal_form_of s ps2)) ps2 z) →
  closure ({[Epsilon]} ∪ _terminals (normal_form_of s ps2)) ps2 (head q).
Proof.
  intros Hq Hb. destruct (decomposed_cases q Hq) as [[_ Hin]|[_ Hchain]].
  - by apply closure_production.
  - by apply (chain_closure _ _ _ (body q)).
Qed.

Lemma cnf_variable_closure t p :
  p ∈ _productions H → length (body p) ≠ 1 → t ∈ body p →
  t ∈ _terminals H →
  closure ({[Epsilon]} ∪ _terminals (normal_form_of s ps2)) ps2
          (Var (cnf_name t)).
Proof.
  intros Hp Hlen Hin Ht.
  assert (mkProduction (cnf_name t) [t] ∈ ps1) as Hq.
  { apply single_terminals_elem. right. by exists t, p. }
  apply (closure_of_single_terminals _ Hq). simpl.
  intros z ->%list_elem_of_singleton.
  destruct (decomposed_cases _ Hq) as [[_ Hin2]|[Hlong _]]; [|simpl in *; lia].
  apply (transfer_terminal _ _ Hin2); [simpl; set_solver|].
  destruct Hwf as ([Hter _] & _). by apply Hter.
Qed.

Lemma short_production_kept p :
  p ∈ _productions H → length (body p) = 1 → p ∈ ps2.
Proof.
  intros Hp Hlen. pose proof (cnf_production_in p Hp) as Hq.
  rewrite cnf_production_short in Hq by done.
  destruct (decomposed_cases p Hq) as [[_ ?]|[? _]]; [done|lia].
Qed.

Lemma transfer_closure x :
  closure ({[Epsilon]} ∪ _terminals H) (_productions H) x →
  is_Variable x = true →
  closure ({[Epsilon]} ∪ _terminals (normal_form_of s ps2)) ps2 x.
Proof.
  induction 1 as [x Hx|p Hp Hb IH]; intros Hvar.
  - apply elem_of_union in Hx as [->%elem_of_singleton|Hx]; [done|].
    destruct Hwf as ([Hter _] & _). apply Hter in Hx. by destruct x.
  - rewrite <- (cnf_production_head p Hp).
    apply closure_of_single_terminals; [by apply cnf_production_in|].
    intros z Hz. destruct (decide (length (body p) = 1)) as [Hlen|Hlen].
    + rewrite cnf_production_short in Hz by done.
      destruct (canonical_body_kind p z Hp Hz) as [[_ Ht]|(_ & Hv & _)].
      * apply (transfer_terminal p); [by apply short_production_kept|done|done].
      * by apply IH.
    + rewrite cnf_production_long in Hz by done. simpl in Hz.
      apply list_elem_of_fmap in Hz as (y & -> & Hy). unfold cnf_symbol.
      destruct (canonical_body_kind p y Hp Hy) as [[HT Ht]|(_ & Hv & HT)].
      * rewrite decide_True by done. by apply (cnf_variable_closure y p).
      * rewrite decide_False by done. by apply IH.
Qed.

Lemma variable_closure x :
  x ∈ _variables H → is_Variable x = true →
  closure ({[Epsilon]} ∪ _terminals (normal_form_of s ps2)) ps2 x.
Proof.
  intros Hx Hv. apply transfer_closure; [|done].
  destruct Hcan as (_ & _ & HG & _). apply HG. set_solver.
Qed.

Lemma single_terminals_body_closure q z :
  q ∈ ps1 → z ∈ body q →
  closure ({[Epsilon]} ∪ _terminals (normal_form_of s ps2)) ps2 z.
Proof.
  intros Hq Hz. pose proof Hq as Hq0.
  apply single_terminals_elem in Hq
    as [(p & Hp & ->)|(t & p & Hp & Hlen & Hin & HT & ->)].
  - destruct (decide (length (body p) = 1)) as [Hlen|Hlen].
    + rewrite cnf_production_short in Hz by done.
      destruct (canonical_body_kind p z Hp Hz) as [[_ Ht]|(HV & Hv & _)].
      * apply (transfer_terminal p); [by apply short_production_kept|done|done].
      * by apply variable_closure.
    + rewrite cnf_production_long in Hz by done. simpl in Hz.
      apply list_elem_of_fmap in Hz as (y & -> & Hy). unfold cnf_symbol.
      destruct (canonical_body_kind p y Hp Hy) as [[HT Ht]|(HV & Hv & HT)].
      * rewrite decide_True by done. by apply (cnf_variable_closure y p).
      * rewrite decide_False by done. by apply variable_closure.
  - simpl in Hz. apply list_elem_of_singleton in Hz as ->.
    destruct (decomposed_cases _ Hq0) as [[_ Hin2]|[Hlong _]];
      [|simpl in *; lia].
    apply (transfer_terminal _ _ Hin2); [simpl; set_solver|].
    destruct Hwf as ([Hter _] & _). by apply Hter.
Qed.

Lemma decomposed_body_closure r y :
  r ∈ ps2 → y ∈ body r →
  closure ({[Epsilon]} ∪ _terminals (normal_form_of s ps2)) ps2 y.
Proof.
  intros Hr Hy.
  destruct (decompose_productions_spec H ps1 ps2 single_terminals_no_Epsilon
              Hdec) as (_ & _ & Hshape).
  destruct (Hshape r Hr)
    as [[Hin _]|(q & Hq & _ & x & y' & Hb & Hx & Hy' & _)].
  - by apply (single_terminals_body_closure r).
  - rewrite Hb in Hy.
    apply elem_of_cons in Hy as [->|[->|?%elem_of_nil]%elem_of_cons];
      [by apply (single_terminals_body_closure q)| |done].
    destruct Hy' as [Hy'|(v & sfx & -> & Hc & Hs)].
    + by apply (single_terminals_body_closure q).
    + apply (chain_closure _ _ _ sfx); [done|]. intros z Hz.
      by apply (single_terminals_body_closure q), Hs.
Qed.

(** ** Every symbol of the result is reachable *)

Lemma reach_of_single_terminals q z :
  q ∈ ps1 → reachable ps2 (Some s) (Some (head q)) → z ∈ body q →
  reachable ps2 (Some s) (Some z).
Proof.
  intros Hq Hh Hz. pose proof (single_terminals_no_Epsilon q Hq) as Heps.
  destruct (decomposed_cases q Hq) as [[_ Hin]|[_ Hchain]].
  - apply (reachable_step _ _ q); [done|done|done|]. by intros ->.
  - by apply (chain_reach _ _ (head_value q) (body q)).
Qed.

Lemma transfer_reach x :
  reachable (_productions H) (Some s) x →
  ∀ y, x = Some y → is_Variable y = true → reachable ps2 (Some s) (Some y).
Proof.
  induction 1 as [|p y0 _ IH Hp Hy0 Hne]; intros y Heq Hvar.
  - rewrite Heq. constructor.
  - injection Heq as ->.
    apply (reach_of_single_terminals (cnf_production (_terminals H) p)).
    + by apply cnf_production_in.
    + rewrite cnf_production_head by done. by apply IH.
    + destruct (cnf_production_body p y Hp Hy0) as [Hin|[_ ->]]; [|done].
      unfold cnf_symbol in Hin.
      destruct (canonical_body_kind p y Hp Hy0) as [[_ Ht]|(_ & _ & HT)].
      * by destruct y.
      * by rewrite decide_False in Hin.
Qed.

Lemma variable_reach x :
  x ∈ _variables H → is_Variable x = true → reachable ps2 (Some s) (Some x).
Proof.
  intros Hx Hv. apply (transfer_reach (Some x)); [|done|done].
  destruct Hcan as (_ & _ & _ & HR). rewrite <- Hstart. apply HR. set_solver.
Qed.

Lemma head_reach p :
  p ∈ _productions H → reachable ps2 (Some s) (Some (head p)).
Proof.
  intros Hp. apply variable_reach; [|done].
  destruct Hwf as (_ & Hh & _). by apply Hh.
Qed.

Lemma single_terminals_head_reach q :
  q ∈ ps1 → reachable ps2 (Some s) (Some (head q)).
Proof.
  intros [(p & Hp & ->)|(t & p & Hp & Hlen & Hin & HT & ->)]%single_terminals_elem.
  - rewrite cnf_production_head by done. by apply head_reach.
  - apply (reach_of_single_terminals (cnf_production (_terminals H) p)).
    + by apply cnf_production_in.
    + rewrite cnf_production_head by done. by apply head_reach.
    + rewrite cnf_production_long by done. simpl. apply list_elem_of_fmap.
      exists t. split; [|done]. unfold cnf_symbol. by rewrite decide_True.
Qed.

Lemma decomposed_head_reach r :
  r ∈ ps2 → reachable ps2 (Some s) (Some (head r)).
Proof.
  intros Hr.
  destruct (decompose_productions_spec H ps1 ps2 single_terminals_no_Epsilon
              Hdec) as (_ & _ & Hshape).
  destruct (Hshape r Hr)
    as [[Hin _]|(q & Hq & _ & x & y' & _ & _ & _ & Hreach)].
  - by apply single_terminals_head_reach.
  - apply (reachable_trans _ _ (Var (head_value q))); [|done].
    by apply (single_terminals_head_reach q).
Qed.

Lemma decomposed_body_reach r y :
  r ∈ ps2 → y ∈ body r → reachable ps2 (Some s) (Some y).
Proof.
  intros Hr Hy. destruct (decomposed_shape r Hr) as [Heps _].
  apply (reachable_step _ _ r); [by apply decomposed_head_reach|done|done|].
  by intros ->.
Qed.

(** ** The result passes the four tests *)

Lemma normal_form_of_canonical : canonical (normal_form_of s ps2).
Proof.
  assert (∀ p, p ∈ _productions (normal_form_of s ps2) → p ∈ ps2) as Hsub
    by (intros p; apply normal_form_of_productions).
  assert (∀ p, p ∈ ps2 → p ∈ _productions (normal_form_of s ps2)) as Hsup
    by (intros p; apply normal_form_of_productions).
  split; [|split; [|split]].
  - apply closure_Epsilon_only. intros p Hp%Hsub.
    destruct (decomposed_shape p Hp) as [Heps [[Hlen _]|[Hlen _]]];
      (split; [|done]); by destruct (body p).
  - intros a b Hab.
    apply (unit_pair_self_loops _ _) in Hab; [done|].
    intros p c Hp%Hsub Hb Hc.
    destruct (decomposed_shape p Hp)
      as [_ [[_ [Hin|(t & Ht & Hbt)]]|[Hlen _]]].
    + by apply canonical_unit.
    + rewrite Hb in Hbt. injection Hbt as ->. by destruct t.
    + by rewrite Hb in Hlen.
  - intros x Hx.
    assert (x ≠ Epsilon
            ∧ closure ({[Epsilon]} ∪ _terminals (normal_form_of s ps2)) ps2 x)
      as [Hne Hcl].
    { apply elem_of_union in Hx as [Hx|Hx].
      - apply normal_form_of_variables in Hx
          as [->|[(r & Hr & ->)|(Hnt & r & Hr & Hx)]].
        + destruct start_is_Variable as [Hs HsV].
          split; [by apply is_Variable_not_Epsilon|by apply variable_closure].
        + split; [done|]. apply closure_production; [done|].
          intros y Hy. by apply (decomposed_body_closure r).
        + split; [|by apply (decomposed_body_closure r)].
          destruct (decomposed_shape r Hr) as [Heps _]. by intros ->.
      - apply normal_form_of_terminals in Hx as (Hter & r & Hr & Hx).
        split; [by apply is_Terminal_not_Epsilon|].
        by apply (transfer_terminal r). }
    split; [done|]. eapply closure_mono; [| |exact Hcl]; done.
  - intros x Hx. rewrite normal_form_of_start.
    apply (reachable_mono ps2); [done|].
    apply elem_of_union in Hx as [Hx|Hx].
    + apply normal_form_of_variables in Hx
        as [->|[(r & Hr & ->)|(Hnt & r & Hr & Hx)]].
      * constructor.
      * by apply decomposed_head_reach.
      * by apply (decomposed_body_reach r).
    + apply normal_form_of_terminals in Hx as (Hter & r & Hr & Hx).
      by apply (decomposed_body_reach r).
Qed.

(** ** The result is left as it is by the last steps *)

Lemma normal_form_of_short p :
  p ∈ _productions (normal_form_of s ps2) → length (body p) ≤ 2.
Proof.
  intros Hp%normal_form_of_productions.
  destruct (decomposed_shape p Hp) as [_ [[Hlen _]|[Hlen _]]]; lia.
Qed.

Lemma normal_form_of_cnf_production p :
  p ∈ _productions (normal_form_of s ps2) →
  cnf_production (_terminals (normal_form_of s ps2)) p = p
  ∧ (length (body p) ≠ 1 →
     ∀ x, x ∈ body p → x ∉ _terminals (normal_form_of s ps2)).
Proof.
  intros Hp%normal_form_of_productions.
  destruct (decomposed_shape p Hp) as [Heps [[Hlen _]|[Hlen Hvars]]].
  - split; [|done]. unfold cnf_production. by rewrite decide_True.
  - assert (∀ x, x ∈ body p → x ∉ _terminals (normal_form_of s ps2)) as Hnt.
    { intros x Hx [Hter _]%normal_form_of_terminals.
      apply Hvars in Hx. by destruct x. }
    split; [|done]. unfold cnf_production.
    rewrite decide_False by lia.
    assert (cnf_symbol (_terminals (normal_form_of s ps2)) <$> body p
            = body p) as ->.
    { rewrite <- (list_fmap_id (body p)) at 2. apply list_fmap_ext.
      intros i x Hx%list_elem_of_lookup_2. unfold cnf_symbol.
      by rewrite decide_False by by apply Hnt. }
    rewrite Production_init_filtered by done. by destruct p.
Qed.

Lemma normal_form_of_fixed fuel :
  ∃ R', to_normal_form (S fuel) (normal_form_of s ps2) = Ok R'
        ∧ _productions R' = _productions (normal_form_of s ps2).
Proof.
  assert (wf_core (normal_form_of s ps2)) as HwfR by apply CFG_init_wf.
  assert (cache_ok (normal_form_of s ps2)) as HcR by apply CFG_init_cache_ok.
  destruct (to_normal_form_unfold _ HwfR HcR)
    as (gn & up & gg & r & R2 & Hgn & Hup & Hgg & Hr & Hs2 & Hc2 & Heq).
  rewrite Heq. clear Heq.
  pose proof (wf_core_same _ _ Hs2 HwfR) as Hwf2.
  pose proof Hs2 as (HV & HT & HS & HP).
  assert (needs_pipeline R2 gn up gg r = false) as ->.
  { apply (canonical_needs_pipeline R2 gn up gg r s); [done| | | | | |].
    - by apply (nullable_set_same (normal_form_of s ps2)).
    - by apply (unit_pair_set_same (normal_form_of s ps2)).
    - by apply (generating_set_same (normal_form_of s ps2)).
    - by apply (reachable_set_same (normal_form_of s ps2)).
    - rewrite <- HS. apply normal_form_of_start.
    - apply (canonical_same (normal_form_of s ps2)); [done|].
      apply normal_form_of_canonical. }
  destruct (single_terminals_spec R2) as (used & Hused & ->).
  cbn [mbind result_bind].
  assert (used = ∅) as ->.
  { apply set_eq. intros x. split; [|set_solver].
    intros (p & Hp & Hlen & Hx & Hter)%Hused. exfalso.
    rewrite <- HP in Hp. rewrite <- HT in Hter.
    destruct (normal_form_of_cnf_production p Hp) as [_ Hnt].
    by apply (Hnt Hlen x). }
  rewrite elements_empty, fmap_nil, app_nil_r.
  assert (cnf_production (_terminals R2) <$> _productions R2
          = _productions R2) as ->.
  { rewrite <- (list_fmap_id (_productions R2)) at 2. apply list_fmap_ext.
    intros i p Hp%list_elem_of_lookup_2. rewrite <- HP in Hp.
    rewrite <- HT. by destruct (normal_form_of_cnf_production p Hp) as [-> _]. }
  rewrite decompose_productions_short.
  2: { intros q Hq. rewrite <- HP in Hq. by apply normal_form_of_short. }
  cbn [mbind result_bind].
  exists (CFG_init None None (_start_symbol R2)
                   (Some (remove_dups (_productions R2)))).
  split; [done|].
  change (remove_dups (_productions R2)
          = _productions (normal_form_of s ps2)).
  rewrite <- HP. apply remove_dups_NoDup_id.
  change (NoDup (remove_dups ps2)). apply NoDup_remove_dups.
Qed.

End Finalize.

(** C3: converting to Chomsky normal form twice gives the productions of
    converting once.  [self] is a grammar as the constructor builds it, with
    caches that hold what the methods computed; when [to_normal_form]
    returns the grammar [R] for it, [to_normal_form] returns for [R] as well,
    whatever the depth it is allowed, and the grammar it returns has the
    productions of [R]. *)
Theorem to_normal_form_idempotent (self : CFG) (n : nat) (R : CFG) :
  wf_core self → cache_ok self →
  to_normal_form n self = Ok R →
  ∀ m, ∃ R', to_normal_form (S m) R = Ok R'
             ∧ _productions R' = _productions R.
Proof.
  intros Hwf Hc Hrun m.
  destruct (to_normal_form_shape n self R Hwf Hc Hrun)
    as (HwfR & HcR & [Hnil|(H & s & ps1 & ps2 & HwfH & Hcan & Hstart & Hst
                            & Hdec & ->)]).
  - destruct (to_normal_form_no_productions R m HwfR HcR Hnil)
      as (R' & HR' & Hp).
    exists R'. split; [done|]. by rewrite Hp, Hnil.
  - by apply (normal_form_of_fixed H s ps1 ps2).
Qed.

Lemma to_normal_form_idempotent_witness :
  ∃ R R', to_normal_form 1 cfg_ab = Ok R
          ∧ to_normal_form 1 R = Ok R'
          ∧ _productions R' = _productions R.
Proof.
  assert (wf_core cfg_ab) as Hwf by (unfold cfg_ab; apply CFG_init_wf).
  assert (cache_ok cfg_ab) as Hc by (unfold cfg_ab; apply CFG_init_cache_ok).
  destruct (to_normal_form 1 cfg_ab) as [R|e|] eqn:E.
  - exists R.
    destruct (to_normal_form_idempotent cfg_ab 1 R Hwf Hc E 0)
      as (R' & HR' & Hp).
    exists R'. split; [reflexivity|]. split; [exact HR'|exact Hp].
  - vm_compute in E. discriminate E.
  - vm_compute in E. discriminate E.
Defined.

(** * Proofs: [generate_epsilon] returns *)

Lemma ge_process_impacts_basic start entries st :
  (∀ e, e ∈ entries → is_Some (counter (remaining_lists st) e.1 e.2)) →
  ∃ r, ge_process_impacts start entries st = Ok r
       ∧ ∀ st', r = Some st' →
           dom (remaining_lists st') = dom (remaining_lists st)
           ∧ (∀ s i, is_Some (counter (remaining_lists st') s i)
                     ↔ is_Some (counter (remaining_lists st) s i))
           ∧ engine_measure st' ≤ engine_measure st.
Proof.
  revert st. induction entries as [|[s i] entries IH]; intros st Hval.
  - exists (Some st). split; [done|]. by intros st' [= <-].
  - cbn [ge_process_impacts].
    destruct (decide (s ∈ g_symbols st)) as [Hin|Hnin].
    + apply IH. intros e He. apply Hval. by apply elem_of_cons; right.
    + destruct (add_to_counter_defined (-1) (remaining_lists st) s i)
        as [r Hr]; [apply (Hval (s, i)); by apply elem_of_cons; left|].
      rewrite Hr. cbn [mbind result_bind].
      pose proof (dom_add_to_counter _ _ _ _ _ Hr) as Hdom.
      pose proof (λ s' i', counter_defined_add_to_counter _ _ _ _ _ s' i' Hr)
        as Hdef.
      assert (s ∈ dom (remaining_lists st)) as Hsdom.
      { eapply counter_dom. apply (Hval (s, i)). by apply elem_of_cons; left. }
      destruct (decide (r.2 = 0%Z)) as [Hz|Hz].
      * destruct (decide (Some s = start)) as [Hs|Hs].
        { exists None. split; [done|]. by intros st' [=]. }
        edestruct (IH {| g_symbols := {[s]} ∪ g_symbols st;
                         to_process := s :: to_process st;
                         processed_with_modification := [];
                         remaining_lists := r.1 |})
          as (res & H1 & H2); simpl.
        { intros e He. apply Hdef, Hval. by apply elem_of_cons; right. }
        exists res. split; [done|]. intros st' ->.
        destruct (H2 st' eq_refl) as (H3 & H4 & H5). simpl in *.
        split; [by rewrite H3|]. split; [intros; by rewrite H4, Hdef|].
        etrans; [exact H5|]. unfold engine_measure. simpl. rewrite Hdom.
        pose proof (size_difference_insert _ _ _ Hsdom Hnin). lia.
      * edestruct (IH {| g_symbols := g_symbols st;
                         to_process := to_process st;
                         processed_with_modification := [];
                         remaining_lists := r.1 |})
          as (res & H1 & H2); simpl.
        { intros e He. apply Hdef, Hval. by apply elem_of_cons; right. }
        exists res. split; [done|]. intros st' ->.
        destruct (H2 st' eq_refl) as (H3 & H4 & H5). simpl in *.
        split; [by rewrite H3|]. split; [intros; by rewrite H4, Hdef|].
        etrans; [exact H5|]. unfold engine_measure. simpl. by rewrite Hdom.
Qed.

Lemma ge_loop_total fuel start imp st :
  valid_impacts imp (remaining_lists st) →
  engine_measure st < fuel →
  ∃ b, ge_loop fuel start imp st = Ok b.
Proof.
  revert st. induction fuel as [|fuel IH]; intros st Hval Hfuel; [lia|].
  cbn [ge_loop]. destruct (to_process st) as [|current rest] eqn:Htp.
  - by exists false.
  - destruct (ge_process_impacts_basic start (default [] (imp !! current))
                {| g_symbols := g_symbols st;
                   to_process := rest;
                   processed_with_modification := [];
                   remaining_lists := remaining_lists st |})
      as (res & H1 & H2); simpl.
    { intros e He. destruct (imp !! current) as [entries|] eqn:E; simpl in He.
      - by apply (Hval current entries).
      - by apply elem_of_nil in He. }
    rewrite H1. cbn [mbind result_bind]. destruct res as [st1|].
    + destruct (H2 st1 eq_refl) as (H3 & H4 & H5). simpl in *. apply IH.
      * intros sym entries e Hsym He. apply H4. by eapply Hval.
      * unfold engine_measure in *. simpl in *. rewrite Htp in Hfuel.
        simpl in Hfuel. lia.
    + by exists true.
Qed.

Lemma generate_epsilon_total self :
  tables_built self →
  ∃ b, generate_epsilon self = Ok (b, _set_impacts_and_remaining_lists self).
Proof.
  intros Hb. destruct (setup_tables_built self Hb) as (H1 & H2 & H3 & _).
  unfold generate_epsilon. rewrite H1, H2, H3. cbn [getitem mbind result_bind].
  destruct (ge_seed _ _ _) as [seed|]; [|by exists true].
  cbn [mbind result_bind].
  edestruct (ge_loop_total
               (engine_fuel {| g_symbols := seed.1; to_process := seed.2;
                               processed_with_modification := [];
                               remaining_lists :=
                                 t_remaining (build_tables (_productions self)) |})
               (_start_symbol (_set_impacts_and_remaining_lists self))
               (t_impacts (build_tables (_productions self))))
    as [b Hrun]; [| |rewrite Hrun; by exists b].
  - apply build_tables_valid.
  - unfold engine_fuel, engine_measure. simpl.
    assert (dom (t_remaining (build_tables (_productions self))) ∖ seed.1
            ⊆ dom (t_remaining (build_tables (_productions self)))) as Hsub
      by set_solver.
    apply subseteq_size in Hsub.
    lia.
Qed.

(** * Proofs: the pipeline of [to_normal_form] *)

Lemma remove_nullable_production_sub_no_Epsilon body nullables l :
  l ∈ remove_nullable_production_sub body nullables → Epsilon ∉ l.
Proof.
  revert l. induction body as [|b body IH]; intros l Hl; simpl in Hl.
  - apply list_elem_of_singleton in Hl as ->. set_solver.
  - apply list_elem_of_bind in Hl as (body_temp & Hl & Htemp).
    apply IH in Htemp. apply elem_of_app in Hl as [Hl|Hl].
    + destruct (decide (b ∈ nullables)); [|by apply elem_of_nil in Hl].
      by apply list_elem_of_singleton in Hl as ->.
    + destruct (decide (b ≠ Epsilon)); [|by apply elem_of_nil in Hl].
      apply list_elem_of_singleton in Hl as ->. set_solver.
Qed.

Lemma remove_epsilon_spec self :
  wf_core self → cache_ok self →
  ∃ g, remove_epsilon self = Ok g ∧ wf_core g ∧ cache_ok g
       ∧ epsilon_free (_productions g).
Proof.
  intros Hwf Hc. unfold remove_epsilon.
  destruct (get_nullable_symbols_ok self Hwf Hc) as (gn & s1 & -> & _).
  cbn [mbind result_bind]. eexists. split; [done|].
  split; [apply CFG_init_wf|]. split; [apply CFG_init_cache_ok|].
  rewrite CFG_init_productions. simpl. intros p Hp.
  apply list_elem_of_bind in Hp as (q & Hp & Hq).
  unfold remove_nullable_production in Hp.
  apply list_elem_of_fmap in Hp as (l & -> & Hl).
  apply list_elem_of_filter in Hl as [Hne Hl].
  apply remove_nullable_production_sub_no_Epsilon in Hl.
  rewrite Production_init_filtered by done. by simpl.
Qed.

Lemma eliminate_unit_productions_fresh self :
  ∃ g, eliminate_unit_productions self = Ok g ∧ wf_core g ∧ cache_ok g
       ∧ unit_free (_productions g)
       ∧ (epsilon_free (_productions self) → epsilon_free (_productions g)).
Proof.
  destruct (eliminate_unit_productions_spec self) as (g & Hrun & _ & Hspec).
  exists g. split; [done|].
  assert (wf_core g ∧ cache_ok g) as [Hwf Hc].
  { unfold eliminate_unit_productions in Hrun.
    destruct (get_unit_pairs self); [|done|done].
    cbn [mbind result_bind] in Hrun. injection Hrun as <-.
    split; [apply CFG_init_wf|apply CFG_init_cache_ok]. }
  split; [done|]. split; [done|]. split.
  - intros p [[_ Hp]|(a & q & _ & _ & Hu & ->)]%Hspec; [done|].
    by unfold is_unit in *.
  - intros Heps p [[Hp _]|(a & q & _ & Hq & _ & ->)]%Hspec; [by apply Heps|].
    simpl. by apply Heps.
Qed.

Lemma remove_useless_symbols_eq self :
  wf_core self → cache_ok self →
  ∃ (gen : gset CFGObject) (r : gset (option CFGObject)),
    generating_set self gen
    ∧ (∀ x, x ∈ r ↔
            reachable (filter (λ x, head x ∈ gen
                                    ∧ Forall (λ y, y ∈ gen) (body x))
                              (_productions self))
                      (to_variable <$> _start_symbol self) x)
    ∧ remove_useless_symbols self
      = Ok (CFG_init
              (Some (filter (λ x, Some x ∈ r) (_variables self ∩ gen)))
              (Some (filter (λ x, Some x ∈ r) (_terminals self ∩ gen)))
              (_start_symbol self)
              (Some (filter (λ x, Some (head x) ∈ r)
                       (filter (λ x, head x ∈ gen
                                     ∧ Forall (λ y, y ∈ gen) (body x))
                               (_productions self))))).
Proof.
  intros Hwf Hc. unfold remove_useless_symbols.
  destruct (get_generating_symbols_ok self Hwf Hc) as (gen & s1 & -> & Hgen & _).
  cbn [mbind result_bind fst snd].
  destruct (get_reachable_symbols_spec
              (CFG_init (Some (_variables self ∩ gen))
                        (Some (_terminals self ∩ gen)) (_start_symbol self)
                        (Some (filter (λ x, head x ∈ gen
                                            ∧ Forall (λ y, y ∈ gen) (body x))
                                      (_productions self)))))
    as (r & -> & Hr).
  cbn [mbind result_bind]. exists gen, r. split; [done|]. split; [|done].
  intros x. rewrite Hr. by rewrite CFG_init_productions, CFG_init_start_symbol.
Qed.

Section RemoveUseless.

Variables (self : CFG) (gen : gset CFGObject) (r : gset (option CFGObject))
          (s : CFGObject).
Hypothesis Hwf : wf_core self.
Hypothesis Hgen : generating_set self gen.
Hypothesis Heps : epsilon_free (_productions self).
Hypothesis Hunit : unit_free (_productions self).
Hypothesis Hstart : _start_symbol self = Some s.
Hypothesis Hr :
  ∀ x, x ∈ r ↔
       reachable (filter (λ x, head x ∈ gen ∧ Forall (λ y, y ∈ gen) (body x))
                         (_productions self))
                 (Some s) x.

Lemma useful_production p :
  p ∈ filter (λ x, Some (head x) ∈ r)
        (filter (λ x, head x ∈ gen ∧ Forall (λ y, y ∈ gen) (body x))
                (_productions self))
  ↔ p ∈ _productions self ∧ head p ∈ gen ∧ (∀ y, y ∈ body p → y ∈ gen)
    ∧ Some (head p) ∈ r.
Proof.
  rewrite !list_elem_of_filter, Forall_forall. tauto.
Qed.

Lemma useful_start_generating p :
  p ∈ filter (λ x, Some (head x) ∈ r)
        (filter (λ x, head x ∈ gen ∧ Forall (λ y, y ∈ gen) (body x))
                (_productions self)) →
  s ∈ gen.
Proof.
  intros (Hp & Hh & Hb & Hreach)%useful_production.
  destruct (decide (s ∈ gen)) as [|Hs]; [done|exfalso].
  assert (∀ x, reachable (filter (λ x, head x ∈ gen
                                       ∧ Forall (λ y, y ∈ gen) (body x))
                                 (_productions self)) (Some s) x →
               x = Some s) as Honly.
  { intros x. induction 1 as [|q y _ IH Hq Hy Hne]; [done|].
    injection IH as IH. apply list_elem_of_filter in Hq as [[Hq _] _].
    by rewrite IH in Hq. }
  apply Hr, Honly in Hreach. injection Hreach as Hreach.
  by rewrite Hreach in Hh.
Qed.

Lemma useful_body_reachable p y :
  p ∈ filter (λ x, Some (head x) ∈ r)
        (filter (λ x, head x ∈ gen ∧ Forall (λ y, y ∈ gen) (body x))
                (_productions self)) →
  y ∈ body p → y ∈ gen ∧ Some y ∈ r.
Proof.
  intros Hp Hy. pose proof Hp as (Hin & Hh & Hb & Hreach)%useful_production.
  split; [by apply Hb|]. apply Hr.
  apply (reachable_step _ _ p); [by apply Hr| |done|].
  - apply list_elem_of_filter in Hp as [_ Hp]. done.
  - apply Hb, Hgen in Hy as [Hne _]. done.
Qed.

Lemma useful_symbols x :
  s ∈ gen →
  x ∈ _variables
        (CFG_init (Some (filter (λ x, Some x ∈ r) (_variables self ∩ gen)))
                  (Some (filter (λ x, Some x ∈ r) (_terminals self ∩ gen)))
                  (Some s)
                  (Some (filter (λ x, Some (head x) ∈ r)
                           (filter (λ x, head x ∈ gen
                                         ∧ Forall (λ y, y ∈ gen) (body x))
                                   (_productions self)))))
    ∪ _terminals
        (CFG_init (Some (filter (λ x, Some x ∈ r) (_variables self ∩ gen)))
                  (Some (filter (λ x, Some x ∈ r) (_terminals self ∩ gen)))
                  (Some s)
                  (Some (filter (λ x, Some (head x) ∈ r)
                           (filter (λ x, head x ∈ gen
                                         ∧ Forall (λ y, y ∈ gen) (body x))
                                   (_productions self))))) →
  x ∈ gen ∧ Some x ∈ r.
Proof.
  intros Hs. destruct Hwf as ([Hter Hvar] & _ & _ & Hst).
  destruct (Hst s Hstart) as [HsV HsVar].
  rewrite CFG_init_variables, CFG_init_terminals. simpl.
  rewrite !elem_of_union, !elem_of_list_to_set, !list_elem_of_filter.
  rewrite !elem_of_map, list_elem_of_fmap, elem_of_singleton.
  intros [[[[->|(y & -> & Hy)]|(p & -> & Hp)]|[_ Hx]]|[(y & -> & Hy)|[_ Hx]]].
  - assert (to_variable s = s) as -> by by destruct s.
    split; [done|]. apply Hr. constructor.
  - apply elem_of_filter in Hy as [Hy1 [Hy2 Hy3]%elem_of_intersection].
    assert (to_variable y = y) as ->; [|done].
    apply Hvar in Hy2. apply Hgen in Hy3 as [Hne _]. by destruct y.
  - by apply useful_production in Hp as (_ & ? & _ & ?).
  - apply elem_of_body_symbols in Hx as (p & Hp & Hx).
    by apply (useful_body_reachable p).
  - apply elem_of_filter in Hy as [Hy1 [Hy2 Hy3]%elem_of_intersection].
    assert (to_terminal y = y) as ->; [|done].
    apply Hter in Hy2. by destruct y.
  - apply elem_of_body_symbols in Hx as (p & Hp & Hx).
    by apply (useful_body_reachable p).
Qed.

Lemma useful_closure x :
  closure ({[Epsilon]} ∪ _terminals self) (_productions self) x →
  x ≠ Epsilon → Some x ∈ r →
  closure ({[Epsilon]}
           ∪ _terminals
               (CFG_init (Some (filter (λ x, Some x ∈ r) (_variables self ∩ gen)))
                  (Some (filter (λ x, Some x ∈ r) (_terminals self ∩ gen)))
                  (Some s)
                  (Some (filter (λ x, Some (head x) ∈ r)
                           (filter (λ x, head x ∈ gen
                                         ∧ Forall (λ y, y ∈ gen) (body x))
                                   (_productions self))))))
          (filter (λ x, Some (head x) ∈ r)
             (filter (λ x, head x ∈ gen ∧ Forall (λ y, y ∈ gen) (body x))
                     (_productions self)))
          x.
Proof.
  destruct Hwf as ([Hter Hvar] & _).
  induction 1 as [x Hx|p Hp Hb IH]; intros Hne Hreach.
  - apply elem_of_union in Hx as [->%elem_of_singleton|Hx]; [done|].
    apply closure_seed, elem_of_union. right.
    rewrite CFG_init_terminals. apply elem_of_union. left.
    apply elem_of_map. exists x. split.
    + apply Hter in Hx. by destruct x.
    + apply elem_of_filter. split; [done|]. apply elem_of_intersection.
      split; [done|]. apply Hgen. split; [done|]. by apply closure_seed, elem_of_union; right.
  - assert (p ∈ filter (λ x, Some (head x) ∈ r)
                  (filter (λ x, head x ∈ gen ∧ Forall (λ y, y ∈ gen) (body x))
                          (_productions self))) as Hp'.
    { apply useful_production. split; [done|]. split.
      - apply Hgen. split; [done|]. by apply closure_production.
      - split; [|done]. intros y Hy. apply Hgen. split; [|by apply Hb].
        intros ->. by destruct (Heps p Hp). }
    apply closure_production; [done|]. intros y Hy.
    destruct (useful_body_reachable p y Hp' Hy) as [Hg Hry].
    apply IH; [done| |done]. by apply Hgen in Hg as [? _].
Qed.

Lemma useful_reachable x :
  reachable (filter (λ x, head x ∈ gen ∧ Forall (λ y, y ∈ gen) (body x))
                    (_productions self)) (Some s) x →
  reachable (filter (λ x, Some (head x) ∈ r)
               (filter (λ x, head x ∈ gen ∧ Forall (λ y, y ∈ gen) (body x))
                       (_productions self))) (Some s) x.
Proof.
  induction 1 as [|p y Hh IH Hp Hy Hne]; [constructor|].
  apply (reachable_step _ _ p); [done| |done|done].
  apply list_elem_of_filter. split; [by apply Hr|done].
Qed.

Lemma remove_useless_symbols_settled_start :
  settled
    (CFG_init (Some (filter (λ x, Some x ∈ r) (_variables self ∩ gen)))
              (Some (filter (λ x, Some x ∈ r) (_terminals self ∩ gen)))
              (Some s)
              (Some (filter (λ x, Some (head x) ∈ r)
                       (filter (λ x, head x ∈ gen
                                     ∧ Forall (λ y, y ∈ gen) (body x))
                               (_productions self))))).
Proof.
  destruct Hwf as (_ & _ & _ & Hst). destruct (Hst s Hstart) as [HsV HsVar].
  destruct (filter (λ x, Some (head x) ∈ r)
              (filter (λ x, head x ∈ gen ∧ Forall (λ y, y ∈ gen) (body x))
                      (_productions self))) as [|p0 l0] eqn:Hps; [by left|].
  right. rewrite <- Hps.
  assert (s ∈ gen) as Hs.
  { apply (useful_start_generating p0). rewrite Hps. set_solver. }
  split.
  2: { exists s. rewrite CFG_init_start_symbol. simpl. by destruct s. }
  split; [|split; [|split]]; rewrite CFG_init_productions; cbn [default].
  - apply closure_Epsilon_only. intros p (Hp & _)%useful_production.
    by apply Heps.
  - intros a b Hab. apply (unit_pair_self_loops _ _) in Hab; [done|].
    intros p c (Hp & _)%useful_production Hb Hc.
    apply Hunit in Hp. unfold is_unit in Hp. rewrite Hb in Hp. congruence.
  - intros x Hx. apply (useful_symbols x Hs) in Hx as [Hg Hrx].
    apply Hgen in Hg as [Hne Hcl]. split; [done|]. by apply useful_closure.
  - intros x Hx. apply (useful_symbols x Hs) in Hx as [Hg Hrx].
    rewrite CFG_init_start_symbol. cbn [fmap option_fmap option_map].
    assert (to_variable s = s) as -> by by destruct s.
    by apply useful_reachable, Hr.
Qed.

End RemoveUseless.

Lemma remove_useless_symbols_settled self :
  wf_core self → cache_ok self →
  epsilon_free (_productions self) → unit_free (_productions self) →
  ∃ g, remove_useless_symbols self = Ok g ∧ wf_core g ∧ cache_ok g
       ∧ settled g.
Proof.
  intros Hwf Hc Heps Hunit.
  destruct (remove_useless_symbols_eq self Hwf Hc) as (gen & r & Hgen & Hr & ->).
  eexists. split; [done|]. split; [apply CFG_init_wf|].
  split; [apply CFG_init_cache_ok|].
  destruct (_start_symbol self) as [s|] eqn:Hstart.
  - pose proof Hwf as (Hsorted & Hh & Hb & Hst).
    destruct (Hst s Hstart) as [HsV HsVar].
    assert (to_variable s = s) as Hto by by destruct s.
    simpl in Hr. rewrite Hto in Hr.
    by apply (remove_useless_symbols_settled_start self gen r s).
  - left. rewrite CFG_init_productions. simpl. apply elem_of_nil_inv.
    intros p [Hp _]%list_elem_of_filter. apply Hr in Hp. simpl in Hp.
    by apply reachable_None in Hp.
Qed.

(** * Proofs: [to_normal_form] returns *)

Lemma draw_new_var_total self n :
  ∀ idx, ∃ r, draw_new_var self n idx = Ok r.
Proof.
  induction n as [|n IH]; intros idx; simpl; [by eexists|].
  destruct (get_next_free_variable_spec self idx "C#CNF#") as (i & -> & _).
  cbn [mbind result_bind fst snd]. destruct (IH i) as [r ->].
  cbn [mbind result_bind]. by eexists.
Qed.

Lemma decompose_productions_total self ps :
  ∃ ps2, _decompose_productions self ps = Ok ps2.
Proof.
  unfold _decompose_productions.
  assert (∀ l st, ∃ st', foldl (decompose_step self) (Ok st) l = Ok st')
    as Hfold.
  { induction l as [|q l IH]; intros st; cbn [foldl]; [by eexists|].
    assert (∃ st1, decompose_step self (Ok st) q = Ok st1) as [st1 ->].
    { unfold decompose_step. cbn [mbind result_bind].
      destruct st as [[idx dn] nps].
      destruct (decide (length (body q) ≤ 2)); [by eexists|].
      destruct (draw_new_var_total self (length (body q) - 2) idx) as [r ->].
      cbn [mbind result_bind]. by eexists. }
    apply IH. }
  destruct (Hfold ps (0, ∅, [])) as [st ->]. cbn [mbind result_bind].
  by eexists.
Qed.

Lemma remove_useless_symbols_sub self :
  wf_core self → cache_ok self →
  ∃ g, remove_useless_symbols self = Ok g ∧ wf_core g ∧ cache_ok g
       ∧ ∀ p, p ∈ _productions g → p ∈ _productions self.
Proof.
  intros Hwf Hc.
  destruct (remove_useless_symbols_eq self Hwf Hc) as (gen & r & _ & _ & ->).
  eexists. split; [done|]. split; [apply CFG_init_wf|].
  split; [apply CFG_init_cache_ok|].
  intros p. rewrite CFG_init_productions. cbn [default].
  by intros [_ [_ Hp]%list_elem_of_filter]%list_elem_of_filter.
Qed.

Lemma to_normal_form_settled self :
  wf_core self → cache_ok self → settled self →
  ∃ R, ∀ fuel, to_normal_form (S fuel) self = Ok R.
Proof.
  intros Hwf Hc Hsettled.
  destruct (to_normal_form_unfold self Hwf Hc)
    as (gn & up & gg & r & s2 & Hgn & Hup & Hgg & Hr & Hs2 & Hc2 & Heq).
  pose proof (wf_core_same _ _ Hs2 Hwf) as Hwf2.
  pose proof Hs2 as (HV & HT & HS & HP).
  destruct (needs_pipeline s2 gn up gg r) eqn:Hnp.
  - destruct Hsettled as [Hnil|[Hcan [s Hstart]]].
    + exists s2. intros fuel. rewrite Heq.
      by rewrite decide_True by by rewrite <- HP, Hnil.
    + rewrite (canonical_needs_pipeline s2 gn up gg r s) in Hnp; [done|done| | | | | |].
      * by apply (nullable_set_same self).
      * by apply (unit_pair_set_same self).
      * by apply (generating_set_same self).
      * by apply (reachable_set_same self).
      * by rewrite <- HS.
      * by apply (canonical_same self).
  - destruct (single_terminals_spec s2) as (used & _ & Hst).
    destruct (decompose_productions_total s2
                ((cnf_production (_terminals s2) <$> _productions s2)
                 ++ (cnf_terminal_production <$> elements used)))
      as [ps2 Hdec].
    eexists. intros fuel. rewrite Heq, Hst. cbn [mbind result_bind].
    rewrite Hdec. cbn [mbind result_bind]. reflexivity.
Qed.

Lemma to_normal_form_run self :
  wf_core self → cache_ok self →
  ∃ R, (∀ fuel, to_normal_form (S (S fuel)) self = Ok R)
       ∧ (to_normal_form 1 self = Ok R ∨ to_normal_form 1 self = Timeout).
Proof.
  intros Hwf Hc.
  destruct (to_normal_form_unfold self Hwf Hc)
    as (gn & up & gg & r & s2 & Hgn & Hup & Hgg & Hr & Hs2 & Hc2 & Heq).
  pose proof (wf_core_same _ _ Hs2 Hwf) as Hwf2.
  destruct (needs_pipeline s2 gn up gg r) eqn:Hnp.
  - destruct (decide (length (_productions s2) = 0)) as [Hlen|Hlen].
    + exists s2. split; [intros fuel|left]; rewrite Heq; reflexivity.
    + destruct (remove_useless_symbols_sub s2 Hwf2 Hc2)
        as (g1 & E1 & Hwf1 & Hc1 & _).
      destruct (remove_epsilon_spec g1 Hwf1 Hc1)
        as (g2 & E2 & Hwf2' & Hc2' & Heps2).
      destruct (remove_useless_symbols_sub g2 Hwf2' Hc2')
        as (g3 & E3 & Hwf3 & Hc3 & Hsub3).
      destruct (eliminate_unit_productions_fresh g3)
        as (g4 & E4 & Hwf4 & Hc4 & Hunit4 & Heps4).
      destruct (remove_useless_symbols_settled g4 Hwf4 Hc4)
        as (g5 & E5 & Hwf5 & Hc5 & Hsettled).
      { apply Heps4. intros p Hp. by apply Heps2, Hsub3. }
      { done. }
      destruct (to_normal_form_settled g5 Hwf5 Hc5 Hsettled) as [R HR].
      exists R. split; [intros fuel|right]; rewrite Heq;
        rewrite E1; cbn [mbind result_bind];
        rewrite E2; cbn [mbind result_bind];
        rewrite E3; cbn [mbind result_bind];
        rewrite E4; cbn [mbind result_bind];
        rewrite E5; cbn [mbind result_bind]; [apply HR|done].
  - destruct (single_terminals_spec s2) as (used & _ & Hst).
    destruct (decompose_productions_total s2
                ((cnf_production (_terminals s2) <$> _productions s2)
                 ++ (cnf_terminal_production <$> elements used)))
      as [ps2 Hdec].
    eexists. split; [intros fuel|left]; rewrite Heq, Hst;
      cbn [mbind result_bind]; rewrite Hdec; cbn [mbind result_bind];
      reflexivity.
Qed.

Lemma to_normal_form_no_raise fuel self e :
  wf_core self → cache_ok self → to_normal_form fuel self ≠ Raise e.
Proof.
  intros Hwf Hc. destruct (to_normal_form_run self Hwf Hc) as (R & H2 & H1).
  destruct fuel as [|[|fuel]]; [done| |by rewrite H2].
  by destruct H1 as [->| ->].
Qed.

Lemma to_normal_form_bodies fuel self R p :
  wf_core self → cache_ok self →
  to_normal_form fuel self = Ok R → p ∈ _productions R →
  length (body p) = 1 ∨ length (body p) = 2.
Proof.
  intros Hwf Hc Hrun Hp.
  destruct (to_normal_form_shape fuel self R Hwf Hc Hrun)
    as (_ & _ & [Hnil|(H & s & ps1 & ps2 & HwfH & Hcan & Hstart & Hst
                       & Hdec & ->)]).
  - rewrite Hnil in Hp. by apply elem_of_nil in Hp.
  - rewrite CFG_init_productions in Hp. simpl in Hp.
    rewrite elem_of_remove_dups in Hp.
    eapply decomposed_shape in Hp as [_ [[Hl _]|[Hl _]]]; eauto.
Qed.

(** * Proofs: [intersection] returns *)

Lemma foldl_result_total {A B} (f : result A → B → result A) (l : list B) :
  (∀ acc x, ∃ r, f (Ok acc) x = Ok r) →
  ∀ acc, ∃ r, foldl f (Ok acc) l = Ok r.
Proof.
  intros Hf. induction l as [|x l IH]; intros acc; cbn [foldl].
  - by eexists.
  - destruct (Hf acc x) as [r ->]. apply IH.
Qed.

Section IntersectionTotal.

Context {State Regex Other : Type}.
Variable to_epsilon_nfa : Regex → FiniteAutomaton State.
Variable to_deterministic : FiniteAutomaton State → FiniteAutomaton State.
Variable to_cfg_combined_variable : State → option CFGObject → State → string.

Lemma intersection_when_two_non_terminals_total production states :
  length (body production) = 2 →
  ∃ ps, _intersection_when_two_non_terminals to_cfg_combined_variable
          production states = Ok ps.
Proof.
  intros Hlen. unfold _intersection_when_two_non_terminals.
  destruct (body production) as [|b0 [|b1 [|b2 l]]] eqn:Hb; try done.
  assert (∀ state_p state_r,
            ∃ bodies, _get_all_bodies to_cfg_combined_variable production
                        state_p state_r states = Ok bodies) as Hbodies.
  { intros state_p state_r. unfold _get_all_bodies. rewrite Hb. simpl.
    by eexists. }
  apply foldl_result_total. intros acc state_p.
  apply foldl_result_total. intros acc' state_r.
  cbn [mbind result_bind]. destruct (Hbodies state_p state_r) as [bodies ->].
  cbn [mbind result_bind]. by eexists.
Qed.

Lemma intersection_when_terminal_total other production states :
  length (body production) = 1 →
  ∃ ps, _intersection_when_terminal to_cfg_combined_variable other
          production states = Ok ps.
Proof.
  intros Hlen. unfold _intersection_when_terminal.
  destruct (body production) as [|b0 [|b1 l]] eqn:Hb; try done.
  apply foldl_result_total. intros acc state_p.
  cbn [mbind result_bind lookup list_lookup getitem].
  destruct (transition other state_p (value_of b0)); by eexists.
Qed.

Lemma intersection_productions_total other ps states :
  (∀ p, p ∈ ps → length (body p) = 1 ∨ length (body p) = 2) →
  ∃ nps,
    foldl (λ acc production,
             new_productions ← acc;
             ps ← (if decide (length (body production) = 2)
                   then _intersection_when_two_non_terminals
                          to_cfg_combined_variable production states
                   else _intersection_when_terminal
                          to_cfg_combined_variable other production states);
             Ok (new_productions ++ ps))
          (Ok []) ps = Ok nps.
Proof.
  intros Hps.
  assert (∀ l acc,
            (∀ p, p ∈ l → length (body p) = 1 ∨ length (body p) = 2) →
            ∃ r,
              foldl (λ acc production,
                       new_productions ← acc;
                       ps ← (if decide (length (body production) = 2)
                             then _intersection_when_two_non_terminals
                                    to_cfg_combined_variable production states
                             else _intersection_when_terminal
                                    to_cfg_combined_variable other production
                                    states);
                       Ok (new_productions ++ ps))
                    (Ok acc) l = Ok r) as Hfold.
  { induction l as [|p l IH]; intros acc Hl; cbn [foldl]; [by eexists|].
    cbn [mbind result_bind].
    destruct (decide (length (body p) = 2)) as [H2|H2].
    - destruct (intersection_when_two_non_terminals_total p states H2)
        as [r ->].
      cbn [mbind result_bind]. apply IH. intros q Hq. apply Hl. set_solver.
    - destruct (intersection_when_terminal_total other p states) as [r ->].
      { destruct (Hl p); [set_solver|done|done]. }
      cbn [mbind result_bind]. apply IH. intros q Hq. apply Hl. set_solver. }
  by apply Hfold.
Qed.

Lemma intersection_rest_run fuel self (other : FiniteAutomaton State) :
  wf_core self → cache_ok self →
  (is_empty other = false → start_states other ≠ []) →
  (∀ e,
     (if is_empty other then Ok (CFG_init None None None None)
      else
        c ← contains fuel self [];
        let generate_empty := c && accepts_empty_word other in
        cfg ← to_normal_form fuel self;
        let states := states other in
        new_productions ←
          foldl (λ acc production,
                   new_productions ← acc;
                   ps ← (if decide (length (body production) = 2)
                         then _intersection_when_two_non_terminals
                                to_cfg_combined_variable production states
                         else _intersection_when_terminal
                                to_cfg_combined_variable other production
                                states);
                   Ok (new_productions ++ ps))
                (Ok []) (_productions cfg);
        starting ← _intersection_starting_rules to_cfg_combined_variable
                     cfg other;
        let new_productions := new_productions ++ starting in
        let new_productions :=
          if generate_empty
          then new_productions ++ [Production_init "Start" [] true]
          else new_productions in
        Ok (CFG_init None None (Some (Var "Start")) (Some new_productions)))
     ≠ Raise e)
  ∧ (2 ≤ fuel →
     ∃ R,
       (if is_empty other then Ok (CFG_init None None None None)
        else
          c ← contains fuel self [];
          let generate_empty := c && accepts_empty_word other in
          cfg ← to_normal_form fuel self;
          let states := states other in
          new_productions ←
            foldl (λ acc production,
                     new_productions ← acc;
                     ps ← (if decide (length (body production) = 2)
                           then _intersection_when_two_non_terminals
                                  to_cfg_combined_variable production states
                           else _intersection_when_terminal
                                  to_cfg_combined_variable other production
                                  states);
                     Ok (new_productions ++ ps))
                  (Ok []) (_productions cfg);
          starting ← _intersection_starting_rules to_cfg_combined_variable
                       cfg other;
          let new_productions := new_productions ++ starting in
          let new_productions :=
            if generate_empty
            then new_productions ++ [Production_init "Start" [] true]
            else new_productions in
          Ok (CFG_init None None (Some (Var "Start")) (Some new_productions)))
       = Ok R).
Proof.
  intros Hwf Hc Hcontract.
  destruct (is_empty other) eqn:Hempty; [split; [done|by eexists]|].
  specialize (Hcontract eq_refl).
  destruct Hc as (Hb & Hcg & Hcn).
  destruct (generate_epsilon_total self Hb) as [b Hge].
  assert (contains fuel self [] = Ok b) as ->.
  { unfold contains. simpl. by rewrite Hge. }
  cbn [mbind result_bind].
  assert (cache_ok self) as Hc by done.
  destruct (to_normal_form fuel self) as [cfg|e'|] eqn:Hnf.
  - cbn [mbind result_bind].
    destruct (intersection_productions_total other (_productions cfg)
                (states other)) as [nps ->].
    { intros p Hp. by apply (to_normal_form_bodies fuel self cfg p). }
    cbn [mbind result_bind]. unfold _intersection_starting_rules.
    destruct (start_states other) as [|s0 l]; [done|].
    cbn [mbind result_bind lookup list_lookup getitem].
    split; [done|]. intros _. by eexists.
  - by apply to_normal_form_no_raise in Hnf.
  - cbn [mbind result_bind]. split; [done|]. intros Hfuel.
    destruct (to_normal_form_run self Hwf Hc) as (R & H2 & _).
    destruct fuel as [|[|fuel]]; [lia|lia|]. by rewrite H2 in Hnf.
Qed.

(** C6: [intersection] raises [NotImplementedError] exactly when its operand
    is neither a regular expression nor a finite automaton.  On a regular
    expression and on a finite automaton it raises nothing: for a grammar as
    the constructor builds it, with caches that hold what the methods
    computed, and an automaton that has a start state when its language is
    not empty (the automaton is the determinised one when the operand is a
    regular expression or is not deterministic), no exception comes out of
    [intersection] whatever the depth allowed to [to_normal_form], and with
    a depth of two or more [intersection] returns a grammar. *)
Theorem intersection_raises_iff (fuel : nat) (self : CFG)
    (other : operand State Regex Other) :
  (intersection to_epsilon_nfa to_deterministic to_cfg_combined_variable
                fuel self other = Raise NotImplementedError
   ↔ ∃ o, other = another_object o)
  ∧ (wf_core self → cache_ok self →
     (∀ a, used_automaton to_epsilon_nfa to_deterministic other = Some a →
           is_empty a = false → start_states a ≠ []) →
     (∀ o, other ≠ another_object o) →
     (∀ e, intersection to_epsilon_nfa to_deterministic
                        to_cfg_combined_variable fuel self other ≠ Raise e)
     ∧ (2 ≤ fuel →
        ∃ R, intersection to_epsilon_nfa to_deterministic
                          to_cfg_combined_variable fuel self other = Ok R)).
Proof.
  split; [apply intersection_not_implemented|].
  intros Hwf Hc Hcontract Hother. unfold intersection.
  destruct other as [r|a|o]; [| |by destruct (Hother o)];
    cbn [mbind result_bind].
  - apply intersection_rest_run; [done|done|].
    apply Hcontract. reflexivity.
  - assert ((if is_deterministic a then Ok a else Ok (to_deterministic a))
            = Ok (if is_deterministic a then a else to_deterministic a))
      as -> by by destruct (is_deterministic a).
    cbn [mbind result_bind].
    apply intersection_rest_run; [done|done|].
    apply Hcontract. reflexivity.
Qed.

End IntersectionTotal.

Lemma intersection_raises_iff_witness :
  (∃ R, intersection (Regex:=unit) (Other:=unit) (λ _, automaton_a) id
          (λ p x r, pretty p +:+ default ""%string (value_of <$> x)
                             +:+ pretty r)
          2 cfg_ab (a_finite_automaton automaton_a) = Ok R)
  ∧ (∀ e, intersection (Regex:=unit) (Other:=unit) (λ _, automaton_a) id
            (λ p x r, pretty p +:+ default ""%string (value_of <$> x)
                               +:+ pretty r)
            2 cfg_ab (a_finite_automaton automaton_a) ≠ Raise e).
Proof.
  assert (wf_core cfg_ab) as Hwf by (unfold cfg_ab; apply CFG_init_wf).
  assert (cache_ok cfg_ab) as Hc by (unfold cfg_ab; apply CFG_init_cache_ok).
  destruct (intersection_raises_iff (Regex:=unit) (Other:=unit)
              (λ _, automaton_a) id
              (λ p x r, pretty p +:+ default ""%string (value_of <$> x)
                                 +:+ pretty r)
              2 cfg_ab (a_finite_automaton automaton_a)) as [_ Hrun].
  destruct (Hrun Hwf Hc) as [Hnr Hok].
  - intros a [= <-] _. discriminate.
  - intros o. discriminate.
  - split; [apply Hok; lia|exact Hnr].
Defined.

(** * Further properties: [to_normal_form] *)

(** X9: for a grammar as the constructor builds it, with caches that hold
    what the methods computed, [to_normal_form] returns: the recursion goes
    one level deep at most, since the grammar that the pipeline builds has no
    production or passes the four tests.  The grammar it returns is the same
    whatever the depth allowed beyond two, each of its productions has a body
    of one or two symbols, and no exception is raised at any depth. *)
Theorem to_normal_form_returns (self : CFG) :
  wf_core self → cache_ok self →
  ∃ R, (∀ fuel, to_normal_form (S (S fuel)) self = Ok R)
       ∧ (∀ p, p ∈ _productions R →
               length (body p) = 1 ∨ length (body p) = 2)
       ∧ (∀ fuel e, to_normal_form fuel self ≠ Raise e).
Proof.
  intros Hwf Hc. destruct (to_normal_form_run self Hwf Hc) as (R & H2 & _).
  exists R. split; [done|]. split.
  - intros p Hp. by apply (to_normal_form_bodies 2 self R p).
  - intros fuel e. by apply to_normal_form_no_raise.
Qed.

Lemma to_normal_form_returns_witness :
  ∃ R, (∀ fuel, to_normal_form (S (S fuel)) cfg_ab = Ok R)
       ∧ (∀ p, p ∈ _productions R →
               length (body p) = 1 ∨ length (body p) = 2)
       ∧ (∀ fuel e, to_normal_form fuel cfg_ab ≠ Raise e).
Proof.
  apply (to_normal_form_returns cfg_ab).
  - unfold cfg_ab. apply CFG_init_wf.
  - unfold cfg_ab. apply CFG_init_cache_ok.
Defined.
